(** * Polynomial-root and incremental-Merkle-tree membership commitments

    A shallow embedding of the two commitment engines of the repository:

    - [Field]: the [mod] helper that canonicalises a bigint into [0, p);
    - [Poly]:  polynomial_equation.ts ([interpolatePolynomial], [addRoot],
               [removeRoot], [verifyPolynomial]);
    - [Batch]: polynomial/utils/benchmark_poly_helper.js
               ([addSecretsToBatches]), once on values and once on a store
               of JavaScript objects, where the aliasing is visible;
    - [IMT]:   merkle_tree.ts (class [IncrementalMerkleTree] and
               [verifyMerkleProof]).

    JavaScript [bigint]s are [Z]; array indices and loop counters are [nat]
    or [Z] as noted at each definition. *)

From Stdlib Require Import ZArith Lia List Zdiv Morphisms Setoid.
From stdpp Require Import base option list gmap strings pretty.

Local Open Scope Z_scope.

(* ===================================================================== *)
(** * Field arithmetic                                                    *)
(* ===================================================================== *)

Module Field.

(** [bn_254_fp] (called [FIELD_PRIME] in the .js helpers). *)
Definition bn_254_fp : Z :=
  21888242871839275222246405745257275088548364400416034343698204186575808495617.

(** [const mod = (x, f = bn_254_fp) => { const result = x % f;
     return result >= 0n ? result : result + f }].
    The bigint [%] truncates towards zero, which is [Z.rem]. *)
Definition mod_ (x : Z) (f : Z) : Z :=
  let result := Z.rem x f in
  if 0 <=? result then result else result + f.

(** A call [mod(x)] that leaves the modulus at its default. *)
Definition fmod (x : Z) : Z := mod_ x bn_254_fp.

(** Canonical representatives: the integers of [0, p). *)
Definition is_field_element (x : Z) : Prop := 0 <= x < bn_254_fp.

End Field.

(* ===================================================================== *)
(** * Polynomial commitment (polynomial_equation.ts)                      *)
(* ===================================================================== *)

Module Poly.
Import Field.

Definition MAX_POLY_DEGREE : nat := 128.

Definition initial_polynomial : list Z := [1].

(** [a[i]] for a read that the enclosing loop keeps inside the array (each
    use below is covered by a bound lemma); the placeholder [0] is never
    observed. *)
Definition arr_get (a : list Z) (i : nat) : Z := default 0 (a !! i).

(** Body of the inner [for] of [interpolatePolynomial]: two in-place
    writes on [newPolynomial], the second reading the array after the
    first. *)
Definition interpolate_inner (polynomial : list Z) (root : Z)
    (newPolynomial : list Z) (i : nat) : list Z :=
  let newPolynomial :=
    <[S i := fmod (arr_get newPolynomial (S i) + arr_get polynomial i)]> newPolynomial in
  <[i := fmod (arr_get newPolynomial i - fmod (arr_get polynomial i * root))]> newPolynomial.

(** Body of the outer [for (const root of roots)]. *)
Definition interpolate_outer (polynomial : list Z) (root : Z) : list Z :=
  let newPolynomial := replicate (length polynomial + 1) 0 in
  foldl (interpolate_inner polynomial root) newPolynomial (seq 0 (length polynomial)).

Definition interpolatePolynomial (roots : list Z) : list Z :=
  foldl interpolate_outer [1] roots.

(** Body of the [for] of [addRoot]. *)
Definition addRoot_body (oldPoly : list Z) (newRoot : Z)
    (newPoly : list Z) (i : nat) : list Z :=
  let newPoly := <[S i := fmod (arr_get newPoly (S i) + arr_get oldPoly i)]> newPoly in
  <[i := fmod (arr_get newPoly i - fmod (arr_get oldPoly i * newRoot))]> newPoly.

Definition addRoot (oldPoly : list Z) (newRoot : Z) : list Z :=
  let newPoly := replicate (length oldPoly + 1) 0 in
  foldl (addRoot_body oldPoly newRoot) newPoly (seq 0 (length oldPoly)).

(** The three ways [removeRoot] ends: [throw new Error("Polynomial degree
    too low")], [return null], [return newPoly]. *)
Inductive removal : Type :=
  | DegreeTooLow
  | NotARoot
  | Quotient (newPoly : list Z).

(** [for (let i = n; i >= 0; i--)]: the iteration at [i] and all those
    below it.  [None] is the early [return null]. *)
Fixpoint removeRoot_loop (oldPoly : list Z) (rootToRemove : Z) (i : nat)
    (newPoly : list Z) (carry : Z) : option (list Z) :=
  let coeff := fmod (arr_get oldPoly i + carry) in
  match i with
  | S i' =>
      removeRoot_loop oldPoly rootToRemove i'
        (<[i' := coeff]> newPoly) (fmod (coeff * rootToRemove))
  | O => if coeff =? 0 then Some newPoly else None
  end.

Definition removeRoot (oldPoly : list Z) (rootToRemove : Z) : removal :=
  let n := Z.of_nat (length oldPoly) - 1 in
  if n <=? 0 then DegreeTooLow
  else
    let newPoly := replicate (Z.to_nat n) 0 in
    match removeRoot_loop oldPoly rootToRemove (Z.to_nat n) newPoly 0 with
    | Some newPoly => Quotient newPoly
    | None => NotARoot
    end.

(** Body of [for (const coeff of coefficients)] in [verifyPolynomial], on
    the pair of locals [(result, rootPower)]. *)
Definition verifyPolynomial_body (root : Z) (st : Z * Z) (coeff : Z) : Z * Z :=
  let '(result, rootPower) := st in
  (fmod (result + fmod (coeff * rootPower)), fmod (rootPower * root)).

(** The local [result] when the loop of [verifyPolynomial] ends: the value
    of the polynomial at [root], in the field. *)
Definition evaluate (coefficients : list Z) (root : Z) : Z :=
  fst (foldl (verifyPolynomial_body root) (0, 1) coefficients).

Definition verifyPolynomial (coefficients : list Z) (root : Z) : bool :=
  evaluate coefficients root =? 0.

(** Repeated [addRoot], starting from the polynomial [1]. *)
Definition addRoots (roots : list Z) : list Z := foldl addRoot [1] roots.

End Poly.

Module PolyTests.
Import Field Poly.

Example interpolate_1_2_3 :
  interpolatePolynomial [1; 2; 3] = [bn_254_fp - 6; 11; bn_254_fp - 6; 1].
Proof. vm_compute. reflexivity. Qed.

Example roots_1_2_3 :
  let poly := interpolatePolynomial [1; 2; 3] in
  verifyPolynomial poly 1 = true /\ verifyPolynomial poly 2 = true /\
  verifyPolynomial poly 3 = true /\ verifyPolynomial poly 4 = false.
Proof. vm_compute. tauto. Qed.

Example add_4_remove_2 :
  removeRoot (addRoot (interpolatePolynomial [1; 2; 3]) 4) 2
  = Quotient (interpolatePolynomial [1; 3; 4]).
Proof. vm_compute. reflexivity. Qed.

Example remove_invalid_99 :
  removeRoot (interpolatePolynomial [1; 3; 4]) 99 = NotARoot.
Proof. vm_compute. reflexivity. Qed.

Example remove_from_constant : removeRoot [5] 1 = DegreeTooLow.
Proof. vm_compute. reflexivity. Qed.

End PolyTests.

(* ===================================================================== *)
(** * Facts about the field helper                                        *)
(* ===================================================================== *)

Module FieldFacts.
Import Field.

(** Congruence modulo the field prime. *)
Abbreviation congr := (eqm bn_254_fp).

#[export] Instance congr_equiv : Equivalence congr := eqm_setoid bn_254_fp.
#[export] Instance congr_add : Proper (congr ==> congr ==> congr) Z.add := Zplus_eqm bn_254_fp.
#[export] Instance congr_sub : Proper (congr ==> congr ==> congr) Z.sub := Zminus_eqm bn_254_fp.
#[export] Instance congr_mul : Proper (congr ==> congr ==> congr) Z.mul := Zmult_eqm bn_254_fp.

Lemma bn_254_fp_pos : 0 < bn_254_fp.
Proof. reflexivity. Qed.

(** For a positive modulus the helper is the mathematical remainder. *)
Lemma mod__modulo (x f : Z) : 0 < f -> mod_ x f = x mod f.
Proof.
  intros Hf. unfold mod_. cbv zeta.
  pose proof (Z.quot_rem' x f) as Hqr.
  pose proof (Z.rem_bound_abs x f ltac:(lia)) as Habs.
  destruct (Z.leb_spec 0 (Z.rem x f)) as [Hr | Hr].
  - apply Z.mod_unique_pos with (q := Z.quot x f); [lia | exact Hqr].
  - apply Z.mod_unique_pos with (q := Z.quot x f - 1); lia.
Qed.

Lemma fmod_modulo (x : Z) : fmod x = x mod bn_254_fp.
Proof. apply mod__modulo, bn_254_fp_pos. Qed.

Lemma fmod_range (x : Z) : is_field_element (fmod x).
Proof. rewrite fmod_modulo. apply Z.mod_pos_bound, bn_254_fp_pos. Qed.

Lemma fmod_field_element (x : Z) : is_field_element x -> fmod x = x.
Proof. intros H. rewrite fmod_modulo. apply Z.mod_small, H. Qed.

Lemma fmod_idem (x : Z) : fmod (fmod x) = fmod x.
Proof. apply fmod_field_element, fmod_range. Qed.

Lemma congr_of_eq (a b : Z) : a = b -> congr a b.
Proof. intros ->. reflexivity. Qed.

Lemma fmod_congr (x : Z) : congr (fmod x) x.
Proof. rewrite fmod_modulo. apply Zmod_eqm. Qed.

Lemma fmod_eq_iff (x y : Z) : fmod x = fmod y <-> congr x y.
Proof. rewrite !fmod_modulo. reflexivity. Qed.

Lemma fmod_zero_iff (x : Z) : fmod x = 0 <-> congr x 0.
Proof.
  rewrite <- fmod_eq_iff. replace (fmod 0) with 0 by reflexivity. reflexivity.
Qed.

End FieldFacts.

(* ===================================================================== *)
(** * Facts about the polynomial operations                               *)
(* ===================================================================== *)

Module PolyFacts.
Import Field Poly FieldFacts.

(** ** Closed forms of the loops *)

(** What the loop of [addRoot] leaves in [newPoly]: [prev] is the value
    already written into the slot that the next iteration will lower. *)
Fixpoint shift_scale (r prev : Z) (P : list Z) : list Z :=
  match P with
  | [] => [prev]
  | c :: P' => fmod (prev - fmod (c * r)) :: shift_scale r (fmod (0 + c)) P'
  end.

(** The [carry] that synthetic division brings down onto the coefficient
    just below the list [l] of higher coefficients. *)
Fixpoint carry_in (r : Z) (l : list Z) : Z :=
  match l with
  | [] => 0
  | q :: l' => fmod (fmod (q + carry_in r l') * r)
  end.

(** All the values [coeff] of the loop of [removeRoot], lowest index
    first: the head is the remainder, the tail the quotient. *)
Fixpoint synth (r : Z) (l : list Z) : list Z :=
  match l with
  | [] => []
  | q :: l' => fmod (q + carry_in r l') :: synth r l'
  end.

(** The value of a coefficient list at [x], over the integers. *)
Fixpoint peval (P : list Z) (x : Z) : Z :=
  match P with
  | [] => 0
  | c :: P' => c + x * peval P' x
  end.

Ltac congr_ring := apply congr_of_eq; ring.

(** ** Array helpers *)

Lemma arr_get_middle (l1 l2 : list Z) (x : Z) :
  arr_get (l1 ++ x :: l2) (length l1) = x.
Proof. unfold arr_get. rewrite list_lookup_middle; reflexivity. Qed.

Lemma insert_middle (l1 l2 : list Z) (x y : Z) :
  <[length l1 := y]> (l1 ++ x :: l2) = l1 ++ y :: l2.
Proof. induction l1 as [| a l1 IH]; simpl; [reflexivity | now rewrite IH]. Qed.

Lemma arr_get_middle_S (l1 l2 : list Z) (x y : Z) :
  arr_get (l1 ++ x :: y :: l2) (S (length l1)) = y.
Proof.
  replace (l1 ++ x :: y :: l2) with ((l1 ++ [x]) ++ y :: l2)
    by (rewrite <- app_assoc; reflexivity).
  replace (S (length l1)) with (length (l1 ++ [x])) by (rewrite length_app; simpl; lia).
  apply arr_get_middle.
Qed.

Lemma insert_middle_S (l1 l2 : list Z) (x y z : Z) :
  <[S (length l1) := z]> (l1 ++ x :: y :: l2) = l1 ++ x :: z :: l2.
Proof.
  replace (l1 ++ x :: y :: l2) with ((l1 ++ [x]) ++ y :: l2)
    by (rewrite <- app_assoc; reflexivity).
  replace (S (length l1)) with (length (l1 ++ [x])) by (rewrite length_app; simpl; lia).
  rewrite insert_middle, <- app_assoc. reflexivity.
Qed.

Lemma drop_insert_here (l : list Z) (i : nat) (c : Z) :
  (i < length l)%nat -> drop i (<[i := c]> l) = c :: drop (S i) l.
Proof.
  revert i. induction l as [| a l IH]; intros [| i] Hi; simpl in *; try lia.
  - reflexivity.
  - apply IH. lia.
Qed.

(** ** [interpolatePolynomial] and [addRoot] *)

Lemma interpolate_outer_addRoot (polynomial : list Z) (root : Z) :
  interpolate_outer polynomial root = addRoot polynomial root.
Proof. reflexivity. Qed.

Lemma addRoot_body_step (pre P done : list Z) (c prev r : Z) :
  length done = length pre ->
  addRoot_body (pre ++ c :: P) r
    (done ++ prev :: replicate (S (length P)) 0) (length pre)
  = (done ++ [fmod (prev - fmod (c * r))]) ++ fmod (0 + c) :: replicate (length P) 0.
Proof.
  intros Hlen. unfold addRoot_body. cbv zeta. simpl replicate.
  rewrite (arr_get_middle pre). rewrite <- Hlen.
  rewrite arr_get_middle_S, insert_middle_S, arr_get_middle, insert_middle.
  rewrite <- app_assoc. reflexivity.
Qed.

Lemma addRoot_loop_closed (r : Z) (P : list Z) :
  forall (pre done : list Z) (prev : Z),
    length done = length pre ->
    foldl (addRoot_body (pre ++ P) r)
      (done ++ prev :: replicate (length P) 0) (seq (length pre) (length P))
    = done ++ shift_scale r prev P.
Proof.
  induction P as [| c P IH]; intros pre done prev Hlen.
  - reflexivity.
  - cbn [length seq foldl]. rewrite addRoot_body_step by exact Hlen.
    replace (pre ++ c :: P) with ((pre ++ [c]) ++ P)
      by (rewrite <- app_assoc; reflexivity).
    replace (S (length pre)) with (length (pre ++ [c]))
      by (rewrite length_app; simpl; lia).
    rewrite IH by (rewrite !length_app; simpl; lia).
    rewrite <- app_assoc. reflexivity.
Qed.

Lemma addRoot_closed (P : list Z) (r : Z) : addRoot P r = shift_scale r 0 P.
Proof.
  unfold addRoot. cbv zeta. rewrite Nat.add_1_r.
  exact (addRoot_loop_closed r P [] [] 0 eq_refl).
Qed.

Lemma length_shift_scale (r prev : Z) (P : list Z) :
  length (shift_scale r prev P) = S (length P).
Proof. revert prev. induction P as [| c P IH]; intros prev; simpl; [| rewrite IH]; reflexivity. Qed.

Lemma length_addRoot (P : list Z) (r : Z) : length (addRoot P r) = S (length P).
Proof. rewrite addRoot_closed. apply length_shift_scale. Qed.

Lemma interpolatePolynomial_foldl (roots : list Z) (Q : list Z) :
  foldl interpolate_outer Q roots = foldl addRoot Q roots.
Proof.
  revert Q. induction roots as [| root roots IH]; intros Q; simpl.
  - reflexivity.
  - rewrite interpolate_outer_addRoot. apply IH.
Qed.

(** ** [removeRoot] *)

Lemma length_synth (r : Z) (l : list Z) : length (synth r l) = length l.
Proof. induction l as [| q l IH]; simpl; [| rewrite IH]; reflexivity. Qed.

(** The value [coeff] of the iteration at index [k]. *)
Lemma synth_lookup (r : Z) (Q : list Z) (k : nat) :
  (k < length Q)%nat ->
  synth r Q !! k = Some (fmod (arr_get Q k + carry_in r (drop (S k) Q))).
Proof.
  revert k. induction Q as [| q Q IH]; intros [| k] Hk; simpl in *; try lia.
  - rewrite drop_0. reflexivity.
  - rewrite IH by lia. reflexivity.
Qed.

(** The value [carry] after the iteration at index [k]. *)
Lemma carry_in_drop (r : Z) (Q : list Z) (k : nat) :
  (k < length Q)%nat ->
  carry_in r (drop k Q)
  = fmod (fmod (arr_get Q k + carry_in r (drop (S k) Q)) * r).
Proof.
  revert k. induction Q as [| q Q IH]; intros [| k] Hk; simpl in *; try lia.
  - rewrite drop_0. reflexivity.
  - rewrite IH by lia. reflexivity.
Qed.

Lemma removeRoot_loop_closed (r : Z) (Q : list Z) :
  forall (i : nat) (newPoly : list Z),
    (i < length Q)%nat -> (i <= length newPoly)%nat ->
    removeRoot_loop Q r i newPoly (carry_in r (drop (S i) Q))
    = if hd 0 (synth r Q) =? 0
      then Some (take i (tail (synth r Q)) ++ drop i newPoly)
      else None.
Proof.
  induction i as [| i IH]; intros newPoly Hi Hn.
  - destruct Q as [| q Q]; [simpl in Hi; lia |].
    simpl. rewrite drop_0. reflexivity.
  - cbn [removeRoot_loop].
    rewrite <- (carry_in_drop r Q (S i)) by lia.
    rewrite IH by (rewrite ?length_insert; lia).
    destruct (hd 0 (synth r Q) =? 0); [| reflexivity].
    f_equal.
    rewrite drop_insert_here by lia.
    rewrite (take_S_r _ i (fmod (arr_get Q (S i) + carry_in r (drop (S (S i)) Q)))).
    + rewrite <- app_assoc. reflexivity.
    + rewrite lookup_tail. apply synth_lookup. lia.
Qed.

Lemma removeRoot_closed (Q : list Z) (r : Z) :
  (2 <= length Q)%nat ->
  removeRoot Q r
  = if hd 0 (synth r Q) =? 0 then Quotient (tail (synth r Q)) else NotARoot.
Proof.
  intros Hlen. unfold removeRoot. cbv zeta.
  destruct (Z.leb_spec (Z.of_nat (length Q) - 1) 0) as [Hle | Hgt]; [lia |].
  replace (Z.to_nat (Z.of_nat (length Q) - 1)) with (length Q - 1)%nat by lia.
  assert (Hcarry : carry_in r (drop (S (length Q - 1)) Q) = 0).
  { rewrite drop_ge by lia. reflexivity. }
  pose proof (removeRoot_loop_closed r Q (length Q - 1)
                (replicate (length Q - 1) 0)) as Hloop.
  rewrite Hcarry in Hloop.
  rewrite Hloop by (rewrite ?length_replicate; lia).
  destruct (hd 0 (synth r Q) =? 0); [| reflexivity].
  f_equal.
  rewrite drop_ge by (rewrite length_replicate; lia).
  rewrite app_nil_r. apply take_ge.
  rewrite length_tl, length_synth. lia.
Qed.

Lemma removeRoot_too_short (Q : list Z) (r : Z) :
  (length Q <= 1)%nat -> removeRoot Q r = DegreeTooLow.
Proof.
  intros Hlen. unfold removeRoot. cbv zeta.
  destruct (Z.leb_spec (Z.of_nat (length Q) - 1) 0); [reflexivity | lia].
Qed.

(** Synthetic division undoes the multiplication by [(x - r)]. *)
Lemma carry_in_synth (r : Z) (l : list Z) :
  carry_in r l = match synth r l with [] => 0 | h :: _ => fmod (h * r) end.
Proof. destruct l; reflexivity. Qed.

Lemma synth_shift_scale (r : Z) (P : list Z) :
  forall a : Z, synth r (shift_scale r a P) = fmod a :: map fmod P.
Proof.
  induction P as [| c P IH]; intros a.
  - simpl. rewrite Z.add_0_r. reflexivity.
  - cbn [shift_scale synth map].
    rewrite carry_in_synth, IH. rewrite !fmod_idem. f_equal.
    apply fmod_eq_iff. rewrite !fmod_congr. congr_ring.
Qed.

Lemma removeRoot_addRoot_general (P : list Z) (r : Z) :
  P <> [] -> removeRoot (addRoot P r) r = Quotient (map fmod P).
Proof.
  intros Hne.
  rewrite removeRoot_closed.
  - rewrite addRoot_closed, synth_shift_scale. reflexivity.
  - rewrite length_addRoot. destruct P; [congruence | simpl; lia].
Qed.

Lemma map_fmod_field (P : list Z) :
  Forall is_field_element P -> map fmod P = P.
Proof.
  induction 1 as [| c P Hc _ IH]; simpl; [reflexivity |].
  rewrite IH, fmod_field_element by exact Hc. reflexivity.
Qed.

(** ** Evaluation *)

Lemma verifyPolynomial_loop_congr (x : Z) (l : list Z) :
  forall res pw : Z,
    congr (fst (foldl (verifyPolynomial_body x) (res, pw) l))
          (res + pw * peval l x).
Proof.
  induction l as [| c l IH]; intros res pw.
  - simpl. congr_ring.
  - cbn [foldl verifyPolynomial_body peval]. rewrite IH, !fmod_congr. congr_ring.
Qed.

Lemma verifyPolynomial_loop_range (x : Z) (l : list Z) :
  forall res pw : Z,
    is_field_element res ->
    is_field_element (fst (foldl (verifyPolynomial_body x) (res, pw) l)).
Proof.
  induction l as [| c l IH]; intros res pw Hres.
  - exact Hres.
  - cbn [foldl verifyPolynomial_body]. apply IH, fmod_range.
Qed.

Lemma evaluate_range (P : list Z) (x : Z) : is_field_element (evaluate P x).
Proof.
  apply verifyPolynomial_loop_range. split; [lia | apply bn_254_fp_pos].
Qed.

(** [evaluate] is the integer value of the polynomial, reduced. *)
Lemma evaluate_peval (P : list Z) (x : Z) : evaluate P x = fmod (peval P x).
Proof.
  rewrite <- (fmod_field_element (evaluate P x)) by apply evaluate_range.
  apply fmod_eq_iff. unfold evaluate.
  rewrite verifyPolynomial_loop_congr. congr_ring.
Qed.

Lemma verifyPolynomial_true_iff (P : list Z) (x : Z) :
  verifyPolynomial P x = true <-> congr (peval P x) 0.
Proof.
  unfold verifyPolynomial. rewrite Z.eqb_eq, evaluate_peval.
  apply fmod_zero_iff.
Qed.

Lemma carry_in_peval (r : Z) (l : list Z) : congr (carry_in r l) (r * peval l r).
Proof.
  induction l as [| q l IH]; simpl.
  - congr_ring.
  - rewrite !fmod_congr, IH. congr_ring.
Qed.

(** The remainder of the synthetic division is the value at [r]. *)
Lemma hd_synth_evaluate (r : Z) (Q : list Z) :
  Q <> [] -> hd 0 (synth r Q) = evaluate Q r.
Proof.
  destruct Q as [| q Q]; [congruence | intros _].
  rewrite evaluate_peval. simpl. apply fmod_eq_iff.
  rewrite carry_in_peval. congr_ring.
Qed.

Lemma removeRoot_NotARoot_iff (Q : list Z) (r : Z) :
  (2 <= length Q)%nat ->
  removeRoot Q r = NotARoot <-> evaluate Q r <> 0.
Proof.
  intros Hlen. rewrite removeRoot_closed by exact Hlen.
  rewrite hd_synth_evaluate by (destruct Q; [simpl in Hlen; lia | congruence]).
  destruct (Z.eqb_spec (evaluate Q r) 0) as [H0 | H0]; split; congruence.
Qed.

(** Multiplying by [(x - r)], seen through the values. *)
Lemma peval_shift_scale (r x : Z) (P : list Z) :
  forall a : Z, congr (peval (shift_scale r a P) x) (a + (x - r) * peval P x).
Proof.
  induction P as [| c P IH]; intros a.
  - simpl. congr_ring.
  - cbn [shift_scale peval]. rewrite IH, !fmod_congr. congr_ring.
Qed.

Lemma peval_addRoot (P : list Z) (r x : Z) :
  congr (peval (addRoot P r) x) ((x - r) * peval P x).
Proof. rewrite addRoot_closed, peval_shift_scale. congr_ring. Qed.

Lemma peval_foldl_addRoot (x : Z) (roots : list Z) :
  forall Q : list Z,
    congr (peval Q x) 0 \/ In x roots ->
    congr (peval (foldl addRoot Q roots) x) 0.
Proof.
  induction roots as [| r roots IH]; intros Q H.
  - simpl in *. tauto.
  - cbn [foldl]. apply IH.
    destruct H as [HQ | [-> | Hin]]; [left | left | right; exact Hin].
    + rewrite peval_addRoot, HQ. congr_ring.
    + rewrite peval_addRoot. congr_ring.
Qed.

(** ** The laws of the polynomial commitment *)

(** The add/remove round trip at a polynomial [P] and a root [r]. *)
Definition round_trip (P : list Z) (r : Z) : Prop :=
  removeRoot (addRoot P r) r = Quotient P.

(** C2, as stated, fails at the empty coefficient list: [addRoot [] r] is
    the constant [[0]], and [removeRoot] throws on a constant. *)
Lemma round_trip_fails_on_empty_list :
  Forall is_field_element [] /\ is_field_element 0 /\
  removeRoot (addRoot [] 0) 0 = DegreeTooLow /\ ~ round_trip [] 0.
Proof.
  split; [constructor |]. split; [split; [lia | apply bn_254_fp_pos] |].
  split; [reflexivity |]. unfold round_trip. vm_compute. discriminate.
Qed.

(** C2 (amended): for every non-empty coefficient list [P] of field
    elements and every [r], [removeRoot (addRoot P r) r] returns a
    coefficient list identical to [P]. *)
Theorem removeRoot_addRoot (P : list Z) (r : Z) :
  P <> [] -> Forall is_field_element P -> round_trip P r.
Proof.
  intros Hne HP. unfold round_trip.
  rewrite removeRoot_addRoot_general by exact Hne.
  rewrite map_fmod_field by exact HP. reflexivity.
Qed.

Lemma removeRoot_addRoot_witness : round_trip [bn_254_fp - 6; 11; bn_254_fp - 6; 1] 10.
Proof.
  apply (removeRoot_addRoot [bn_254_fp - 6; 11; bn_254_fp - 6; 1] 10).
  - discriminate.
  - repeat constructor; vm_compute; congruence.
Defined.

(** C4: every root fed to [interpolatePolynomial], or accumulated by
    repeated [addRoot] from the polynomial [1], is a zero of the resulting
    polynomial in the field. *)
Theorem polynomial_root_law (roots : list Z) (r : Z) :
  In r roots ->
  evaluate (interpolatePolynomial roots) r = 0 /\
  verifyPolynomial (interpolatePolynomial roots) r = true /\
  verifyPolynomial (addRoots roots) r = true.
Proof.
  intros Hin.
  assert (H : verifyPolynomial (addRoots roots) r = true).
  { apply verifyPolynomial_true_iff, peval_foldl_addRoot. right. exact Hin. }
  unfold interpolatePolynomial. rewrite interpolatePolynomial_foldl.
  fold (addRoots roots). split; [| split]; try exact H.
  apply Z.eqb_eq. exact H.
Qed.

Lemma polynomial_root_law_witness :
  evaluate (interpolatePolynomial [1; 2; 3]) 2 = 0 /\
  verifyPolynomial (interpolatePolynomial [1; 2; 3]) 2 = true /\
  verifyPolynomial (addRoots [1; 2; 3]) 2 = true.
Proof. apply (polynomial_root_law [1; 2; 3] 2). simpl. tauto. Defined.

(** C8: [interpolatePolynomial] returns the coefficient list obtained
    from [[1]] by one [addRoot] per root, in order. *)
Theorem interpolatePolynomial_is_repeated_addRoot (roots : list Z) :
  interpolatePolynomial roots = foldl addRoot [1] roots.
Proof.
  unfold interpolatePolynomial.
  generalize (1 :: @nil Z) as Q. induction roots as [| root roots IH]; intros Q.
  - reflexivity.
  - cbn [foldl]. rewrite IH. f_equal.
Qed.

End PolyFacts.

(* ===================================================================== *)
(** * A store of JavaScript objects                                       *)
(* ===================================================================== *)

(** Arrays and [Map]s are objects handled by reference.  Where a claim
    is about which objects a call writes, the call is modelled on a store
    that maps references to the objects' current contents. *)

Module Store.
Import Field Poly.

Definition loc : Type := positive.

Inductive obj : Type :=
  | BigArr (xs : list Z)              (** [bigint[]] *)
  | RefArr (rs : list loc)            (** an array whose entries are arrays *)
  | StrMap (m : gmap string nat).     (** [Map<string, number>] *)

Abbreviation store := (gmap loc obj).

(** A call either returns or throws; the store it leaves is kept in both
    cases. *)
Inductive outcome (A : Type) : Type :=
  | Done (a : A)
  | Thrown.
Arguments Done {A} a.
Arguments Thrown {A}.

Definition M (A : Type) : Type := store -> outcome A * store.

#[export] Instance M_ret : MRet M := fun A a σ => (Done a, σ).

#[export] Instance M_bind : MBind M := fun A B f c σ =>
  match c σ with
  | (Done a, σ') => f a σ'
  | (Thrown, σ') => (Thrown, σ')
  end.

Definition throw {A : Type} : M A := fun σ => (Thrown, σ).

(** A new object, at a reference no object of the store has. *)
Definition alloc (o : obj) : M loc := fun σ =>
  let l := fresh (dom σ) in (Done l, <[l := o]> σ).

Definition write (l : loc) (o : obj) : M unit := fun σ => (Done tt, <[l := o]> σ).

(** Reads at the type the code expects; a value of another kind (or
    [undefined]) makes the property access throw a [TypeError]. *)
Definition read_big (l : loc) : M (list Z) := fun σ =>
  match σ !! l with Some (BigArr xs) => (Done xs, σ) | _ => (Thrown, σ) end.

Definition read_refs (l : loc) : M (list loc) := fun σ =>
  match σ !! l with Some (RefArr rs) => (Done rs, σ) | _ => (Thrown, σ) end.

Definition read_map (l : loc) : M (gmap string nat) := fun σ =>
  match σ !! l with Some (StrMap m) => (Done m, σ) | _ => (Thrown, σ) end.

(** [addRoot(oldPoly, newRoot)] on references.  The loop writes only
    [newPoly], which the call has just created and nothing else refers
    to, so it runs as [Poly.addRoot] does on the contents. *)
Definition addRoot_st (oldPoly : loc) (newRoot : Z) : M loc :=
  P ← read_big oldPoly;
  alloc (BigArr (addRoot P newRoot)).

(** [removeRoot(oldPoly, rootToRemove)] on references; [None] is [null].
    As in [addRoot_st], [newPoly] is local to the call; on [return null]
    it stays behind, unreferenced. *)
Definition removeRoot_st (oldPoly : loc) (rootToRemove : Z) : M (option loc) :=
  P ← read_big oldPoly;
  match removeRoot P rootToRemove with
  | DegreeTooLow => throw
  | NotARoot =>
      _ ← alloc (BigArr (replicate (length P - 1) 0));
      mret None
  | Quotient newPoly =>
      l ← alloc (BigArr newPoly);
      mret (Some l)
  end.

End Store.

Module StoreFacts.
Import Field Poly Store FieldFacts PolyFacts.

Lemma fresh_not_in_store (σ : store) : σ !! fresh (dom σ) = None.
Proof. apply not_elem_of_dom, is_fresh. Qed.

Lemma lookup_alloc_old (σ : store) (o : obj) (l : loc) :
  is_Some (σ !! l) -> <[fresh (dom σ) := o]> σ !! l = σ !! l.
Proof.
  intros Hl. apply lookup_insert_ne. intros <-.
  rewrite fresh_not_in_store in Hl. destruct Hl; discriminate.
Qed.

(** C3: for a polynomial [P] of degree at least 1, [removeRoot] returns
    [null] (NotARoot) exactly when the value of [P] at [r] is nonzero in
    the field, and then the array [P] holds what it held before. *)
Theorem removeRoot_rejects_exactly_nonroots
    (σ : store) (oldPoly : loc) (P : list Z) (r : Z) :
  σ !! oldPoly = Some (BigArr P) ->
  (2 <= length P)%nat ->
  (removeRoot P r = NotARoot <-> evaluate P r <> 0) /\
  (fst (removeRoot_st oldPoly r σ) = Done None <-> verifyPolynomial P r = false) /\
  (fst (removeRoot_st oldPoly r σ) = Done None ->
   snd (removeRoot_st oldPoly r σ) !! oldPoly = Some (BigArr P)).
Proof.
  intros Hσ Hlen.
  pose proof (removeRoot_NotARoot_iff P r Hlen) as Hiff.
  split; [exact Hiff |].
  unfold removeRoot_st, mbind, M_bind, read_big. rewrite Hσ.
  unfold verifyPolynomial. rewrite Z.eqb_neq.
  destruct (removeRoot P r) as [| | q] eqn:Hrm; cbn.
  - rewrite removeRoot_closed in Hrm by exact Hlen.
    destruct (hd 0 (synth r P) =? 0); discriminate.
  - split; [tauto |]. intros _.
    rewrite lookup_alloc_old; [exact Hσ | rewrite Hσ; eauto].
  - split; [| discriminate].
    split; [discriminate |]. intros Hne. apply Hiff in Hne. discriminate.
Qed.

Lemma removeRoot_rejects_exactly_nonroots_witness :
  (removeRoot [24; 2; 1] 5 = NotARoot <-> evaluate [24; 2; 1] 5 <> 0) /\
  (fst (removeRoot_st 1%positive 5 {[ 1%positive := BigArr [24; 2; 1] ]}) = Done None
   <-> verifyPolynomial [24; 2; 1] 5 = false) /\
  (fst (removeRoot_st 1%positive 5 {[ 1%positive := BigArr [24; 2; 1] ]}) = Done None ->
   snd (removeRoot_st 1%positive 5 {[ 1%positive := BigArr [24; 2; 1] ]}) !! 1%positive
   = Some (BigArr [24; 2; 1])).
Proof.
  apply (removeRoot_rejects_exactly_nonroots
           {[ 1%positive := BigArr [24; 2; 1] ]} 1%positive [24; 2; 1] 5).
  - reflexivity.
  - simpl. lia.
Defined.

End StoreFacts.

(* ===================================================================== *)
(** * Batch manager (polynomial/utils/benchmark_poly_helper.js)           *)
(* ===================================================================== *)

(** The helper file carries its own copies of [mod] and [addRoot]; they
    are, token for token, the ones of polynomial_equation.ts, so this
    module uses [Field.fmod] and [Poly.addRoot] for them. *)

Module Batch.
Import Field Poly.

(** [const MAX_POLY_DEGREE = 128] of the helper file. *)
Definition MAX_POLY_DEGREE : nat := 128.

(** ** On values *)

(** The three structures that a call receives and returns: the
    polynomials, the root list of each, and the [Map] from
    [secret.toString()] to a batch index. *)
Record state : Type := mkState {
  batches : list (list Z);
  batchRoots : list (list Z);
  userMap : gmap string nat;
}.

Definition empty : state := mkState [] [] ∅.

(** [for (let i = 0; i < currentRoots.length; i++) { if (...) { ...; break } }],
    from index [i] on; [rest] is [currentRoots] from [i] on (the loop
    changes [currentRoots] only in the iteration that ends it).  The
    boolean is [inserted].  [None]: [currentBatches[i]] is [undefined] and
    [addRoot] throws on [oldPoly.length]. *)
Fixpoint scan (st : state) (secret : Z) (rest : list (list Z)) (i : nat)
    : option (bool * state) :=
  match rest with
  | [] => Some (false, st)
  | roots :: rest' =>
      if (length roots <? MAX_POLY_DEGREE)%nat then
        match batches st !! i with
        | None => None
        | Some poly =>
            Some (true,
                  mkState (<[i := addRoot poly secret]> (batches st))
                          (<[i := roots ++ [secret]]> (batchRoots st))
                          (<[pretty secret := i]> (userMap st)))
        end
      else scan st secret rest' (S i)
  end.

(** Body of [for (const secret of newSecrets)]. *)
Definition place (st : state) (secret : Z) : option state :=
  match scan st secret (batchRoots st) 0 with
  | None => None
  | Some (true, st') => Some st'
  | Some (false, st') =>
      let newBatchRoots := [secret] in
      let newBatchPoly := addRoot [1] secret in
      let currentRoots := batchRoots st' ++ [newBatchRoots] in
      let currentBatches := batches st' ++ [newBatchPoly] in
      Some (mkState currentBatches currentRoots
              (<[pretty secret := (length currentRoots - 1)%nat]> (userMap st')))
  end.

Fixpoint place_all (st : state) (newSecrets : list Z) : option state :=
  match newSecrets with
  | [] => Some st
  | secret :: newSecrets' =>
      match place st secret with
      | None => None
      | Some st' => place_all st' newSecrets'
      end
  end.

(** [addSecretsToBatches(batches, batchRoots, userMap, newSecrets)] seen
    through the contents of its arguments and of its result. *)
Definition addSecretsToBatches (batches batchRoots : list (list Z))
    (userMap : gmap string nat) (newSecrets : list Z) : option state :=
  place_all (mkState batches batchRoots userMap) newSecrets.

(** A sequence of calls, each on the result of the one before. *)
Fixpoint calls (st : state) (rounds : list (list Z)) : option state :=
  match rounds with
  | [] => Some st
  | newSecrets :: rounds' =>
      match addSecretsToBatches (batches st) (batchRoots st) (userMap st) newSecrets with
      | None => None
      | Some st' => calls st' rounds'
      end
  end.

(** ** The batch invariant of the specification *)

(** Every batch except at most the last holds exactly [MAX_POLY_DEGREE]
    roots. *)
Definition all_but_last_full (st : state) : Prop :=
  forall (i : nat) (roots : list Z),
    batchRoots st !! i = Some roots ->
    (S i < length (batchRoots st))%nat ->
    length roots = MAX_POLY_DEGREE.

(** Each mapped root appears in the root list of its mapped batch. *)
Definition mapped_are_listed (st : state) : Prop :=
  forall (key : string) (i : nat),
    userMap st !! key = Some i ->
    exists (roots : list Z) (secret : Z),
      batchRoots st !! i = Some roots /\ secret ∈ roots /\ key = pretty secret.

(** Every listed root is mapped to the batch that lists it. *)
Definition listed_are_mapped (st : state) : Prop :=
  forall (i : nat) (roots : list Z) (secret : Z),
    batchRoots st !! i = Some roots -> secret ∈ roots ->
    userMap st !! pretty secret = Some i.

Definition batch_invariant (st : state) : Prop :=
  all_but_last_full st /\ mapped_are_listed st /\ listed_are_mapped st.

End Batch.

Module BatchTests.
Import Field Poly Batch.

Example two_secrets :
  addSecretsToBatches [] [] ∅ [7; 9]
  = Some (mkState [addRoot (addRoot [1] 7) 9] [[7; 9]]
            (<["9" := 0%nat]> (<["7" := 0%nat]> ∅))).
Proof. vm_compute. reflexivity. Qed.

(** A polynomial with no root list to go with it: the scan finds no room
    and the new batch gets the index of its root list. *)
Example more_batches_than_root_lists :
  (fun st => (map length (batches st), batchRoots st, userMap st !! "5"))
    <$> addSecretsToBatches [[1]] [] ∅ [5]
  = Some ([1; 2]%nat, [[5]], Some 0%nat).
Proof. vm_compute. reflexivity. Qed.

(** A root list with no polynomial to go with it: [addRoot(undefined, _)]. *)
Example more_root_lists_than_batches :
  addSecretsToBatches [] [[]] ∅ [5] = None.
Proof. vm_compute. reflexivity. Qed.

End BatchTests.

Module BatchFacts.
Import Field Poly Batch.

Local Open Scope nat_scope.

(** ** What the first-fit scan returns *)

Definition full (roots : list Z) : Prop := MAX_POLY_DEGREE <= length roots.

Lemma scan_spec (st : state) (secret : Z) :
  forall (rest : list (list Z)) (i : nat),
    match scan st secret rest i with
    | Some (false, st') => st' = st /\ Forall full rest
    | Some (true, st') =>
        exists (k : nat) (roots poly : list Z),
          rest !! k = Some roots /\ length roots < MAX_POLY_DEGREE /\
          Forall full (take k rest) /\
          batches st !! (i + k) = Some poly /\
          st' = mkState (<[i + k := addRoot poly secret]> (batches st))
                        (<[i + k := roots ++ [secret]]> (batchRoots st))
                        (<[pretty secret := i + k]> (userMap st))
    | None => exists k : nat, k < length rest /\ batches st !! (i + k) = None
    end.
Proof.
  induction rest as [| roots rest IH]; intros i.
  - simpl. split; [reflexivity | constructor].
  - cbn [scan].
    destruct (Nat.ltb_spec (length roots) MAX_POLY_DEGREE) as [Hroom | Hfull].
    + destruct (batches st !! i) as [poly |] eqn:Hpoly.
      * exists 0, roots, poly. rewrite Nat.add_0_r.
        repeat split; try assumption; constructor.
      * exists 0. rewrite Nat.add_0_r. simpl. split; [lia | assumption].
    + specialize (IH (S i)).
      destruct (scan st secret rest (S i)) as [[[|] st'] |].
      * destruct IH as (k & roots' & poly & Hk & Hlen & Hbefore & Hpoly & ->).
        exists (S k), roots', poly.
        replace (i + S k) with (S i + k) by lia.
        repeat split; try assumption.
        simpl. constructor; assumption.
      * destruct IH as [-> Hall]. split; [reflexivity |].
        constructor; assumption.
      * destruct IH as (k & Hk & Hnone). exists (S k).
        replace (i + S k) with (S i + k) by lia. simpl. split; [lia | assumption].
Qed.

(** ** The invariant kept by insertions of pairwise distinct roots *)

(** [seen] lists the roots inserted so far. *)
Record inv (seen : list Z) (st : state) : Prop := mkInv {
  inv_lengths : length (batches st) = length (batchRoots st);
  inv_bounded : forall i roots,
    batchRoots st !! i = Some roots -> length roots <= MAX_POLY_DEGREE;
  inv_full : all_but_last_full st;
  inv_mapped : mapped_are_listed st;
  inv_listed : listed_are_mapped st;
  inv_seen : forall i roots secret,
    batchRoots st !! i = Some roots -> secret ∈ roots -> secret ∈ seen;
}.

Lemma inv_empty : inv [] empty.
Proof.
  split; try reflexivity; unfold all_but_last_full, mapped_are_listed,
    listed_are_mapped; simpl; intros *; try rewrite lookup_nil;
    try rewrite lookup_empty; discriminate.
Qed.

(** The scan found room in batch [k]. *)
Lemma inv_place_fit (seen : list Z) (st : state) (secret : Z)
    (k : nat) (roots poly' : list Z) :
  inv seen st -> secret ∉ seen ->
  batchRoots st !! k = Some roots -> length roots < MAX_POLY_DEGREE ->
  inv (seen ++ [secret])
      (mkState (<[k := poly']> (batches st))
               (<[k := roots ++ [secret]]> (batchRoots st))
               (<[pretty secret := k]> (userMap st))).
Proof.
  intros [Hlen Hbnd Hfull Hmap Hlist Hseen] Hfresh Hk Hroom.
  assert (Hklt : k < length (batchRoots st)) by (eapply lookup_lt_Some; eassumption).
  assert (Hlast : S k = length (batchRoots st)).
  { destruct (Nat.lt_ge_cases (S k) (length (batchRoots st))) as [Hlt | Hge]; [| lia].
    specialize (Hfull k roots Hk Hlt). lia. }
  split; cbn [batches batchRoots userMap].
  - rewrite !length_insert. exact Hlen.
  - intros i roots' Hi. apply list_lookup_insert_Some in Hi.
    destruct Hi as [(<- & <- & _) | (Hne & Hi)].
    + rewrite length_app. simpl. lia.
    + eapply Hbnd; eassumption.
  - intros i roots' Hi Hlt. cbn [batchRoots] in *. rewrite length_insert in Hlt.
    apply list_lookup_insert_Some in Hi.
    destruct Hi as [(<- & <- & _) | (Hne & Hi)]; [lia |].
    apply (Hfull i roots' Hi Hlt).
  - intros key i Hkey. cbn [batchRoots userMap] in *.
    apply lookup_insert_Some in Hkey.
    destruct Hkey as [(<- & <-) | (Hne & Hkey)].
    + exists (roots ++ [secret]), secret. split; [| split; [| reflexivity]].
      * apply list_lookup_insert_eq. exact Hklt.
      * apply elem_of_app. right. apply list_elem_of_singleton. reflexivity.
    + destruct (Hmap key i Hkey) as (roots' & s & Hi & Hs & ->).
      destruct (decide (i = k)) as [-> | Hik].
      * exists (roots ++ [secret]), s. split; [| split; [| reflexivity]].
        -- apply list_lookup_insert_eq. exact Hklt.
        -- rewrite Hk in Hi. injection Hi as <-. apply elem_of_app. left. exact Hs.
      * exists roots', s. split; [| split; [exact Hs | reflexivity]].
        rewrite list_lookup_insert_ne by congruence. exact Hi.
  - intros i roots' s Hi Hs. cbn [batchRoots userMap] in *.
    apply list_lookup_insert_Some in Hi.
    destruct Hi as [(<- & <- & _) | (Hne & Hi)].
    + apply elem_of_app in Hs. destruct Hs as [Hs | Hs].
      * rewrite lookup_insert_ne; [apply (Hlist k roots s Hk Hs) |].
        intros Heq. apply (inj pretty) in Heq. subst s.
        apply Hfresh. eapply Hseen; eassumption.
      * apply list_elem_of_singleton in Hs. subst s. apply lookup_insert_eq.
    + rewrite lookup_insert_ne; [apply (Hlist i roots' s Hi Hs) |].
      intros Heq. apply (inj pretty) in Heq. subst s.
      apply Hfresh. eapply Hseen; eassumption.
  - intros i roots' s Hi Hs. cbn [batchRoots] in *.
    apply elem_of_app.
    apply list_lookup_insert_Some in Hi.
    destruct Hi as [(<- & <- & _) | (Hne & Hi)].
    + apply elem_of_app in Hs. destruct Hs as [Hs | Hs].
      * left. eapply Hseen; eassumption.
      * right. exact Hs.
    + left. eapply Hseen; eassumption.
Qed.

(** Every batch is full: a new batch is opened. *)
Lemma inv_place_new (seen : list Z) (st : state) (secret : Z) (poly' : list Z) :
  inv seen st -> secret ∉ seen ->
  Forall full (batchRoots st) ->
  inv (seen ++ [secret])
      (mkState (batches st ++ [poly'])
               (batchRoots st ++ [[secret]])
               (<[pretty secret := length (batchRoots st ++ [[secret]]) - 1]> (userMap st))).
Proof.
  intros [Hlen Hbnd Hfull Hmap Hlist Hseen] Hfresh Hall.
  assert (Hidx : length (batchRoots st ++ [[secret]]) - 1 = length (batchRoots st)).
  { rewrite length_app. simpl. lia. }
  rewrite Hidx.
  split; cbn [batches batchRoots userMap].
  - rewrite !length_app. simpl. lia.
  - intros i roots Hi. apply lookup_app_Some in Hi.
    destruct Hi as [Hi | [_ Hi]].
    + eapply Hbnd; eassumption.
    + apply list_lookup_singleton_Some in Hi. destruct Hi as [_ <-].
      unfold MAX_POLY_DEGREE. simpl. lia.
  - intros i roots Hi Hlt. cbn [batchRoots] in *.
    rewrite length_app in Hlt. simpl in Hlt.
    rewrite lookup_app_l in Hi by lia.
    assert (Hfl : full roots).
    { rewrite Forall_forall in Hall. apply Hall.
      eapply list_elem_of_lookup_2; eassumption. }
    specialize (Hbnd i roots Hi). unfold full in Hfl. lia.
  - intros key i Hkey. cbn [batchRoots userMap] in *.
    apply lookup_insert_Some in Hkey.
    destruct Hkey as [(<- & <-) | (Hne & Hkey)].
    + exists [secret], secret. split; [| split; [| reflexivity]].
      * rewrite lookup_app_r by lia. rewrite Nat.sub_diag. reflexivity.
      * apply list_elem_of_singleton. reflexivity.
    + destruct (Hmap key i Hkey) as (roots' & s & Hi & Hs & ->).
      exists roots', s. split; [| split; [exact Hs | reflexivity]].
      rewrite lookup_app_l; [exact Hi | eapply lookup_lt_Some; eassumption].
  - intros i roots s Hi Hs. cbn [batchRoots userMap] in *.
    apply lookup_app_Some in Hi.
    destruct Hi as [Hi | [Hge Hi]].
    + rewrite lookup_insert_ne; [apply (Hlist i roots s Hi Hs) |].
      intros Heq. apply (inj pretty) in Heq. subst s.
      apply Hfresh. eapply Hseen; eassumption.
    + apply list_lookup_singleton_Some in Hi. destruct Hi as [Hi0 <-].
      apply list_elem_of_singleton in Hs. subst s.
      replace i with (length (batchRoots st)) by lia. apply lookup_insert_eq.
  - intros i roots s Hi Hs. cbn [batchRoots] in *.
    apply elem_of_app.
    apply lookup_app_Some in Hi.
    destruct Hi as [Hi | [Hge Hi]].
    + left. eapply Hseen; eassumption.
    + apply list_lookup_singleton_Some in Hi. destruct Hi as [_ <-].
      right. exact Hs.
Qed.

Lemma inv_place (seen : list Z) (st : state) (secret : Z) :
  inv seen st -> secret ∉ seen ->
  exists st', place st secret = Some st' /\ inv (seen ++ [secret]) st'.
Proof.
  intros Hinv Hfresh. unfold place.
  pose proof (scan_spec st secret (batchRoots st) 0) as Hscan.
  destruct (scan st secret (batchRoots st) 0) as [[[|] st'] |].
  - destruct Hscan as (k & roots & poly & Hk & Hroom & _ & _ & ->).
    eexists. split; [reflexivity |]. simpl.
    apply inv_place_fit; assumption.
  - destruct Hscan as [-> Hall]. eexists. split; [reflexivity |].
    cbv zeta. apply inv_place_new; assumption.
  - destruct Hscan as (k & Hk & Hnone). exfalso.
    apply lookup_ge_None in Hnone. simpl in Hnone.
    rewrite (inv_lengths _ _ Hinv) in Hnone. lia.
Qed.

Lemma inv_place_all (newSecrets : list Z) :
  forall (seen : list Z) (st : state),
    inv seen st -> NoDup newSecrets ->
    (forall secret, secret ∈ newSecrets -> secret ∉ seen) ->
    exists st', place_all st newSecrets = Some st' /\ inv (seen ++ newSecrets) st'.
Proof.
  induction newSecrets as [| secret rest IH]; intros seen st Hinv Hnd Hdisj.
  - exists st. rewrite app_nil_r. split; [reflexivity | exact Hinv].
  - apply NoDup_cons in Hnd. destruct Hnd as [Hnotin Hnd].
    destruct (inv_place seen st secret Hinv) as (st1 & Hplace & Hinv1).
    { apply Hdisj. left. }
    cbn [place_all]. rewrite Hplace.
    destruct (IH (seen ++ [secret]) st1 Hinv1 Hnd) as (st' & Hall & Hinv').
    { intros s Hs Hin. apply elem_of_app in Hin. destruct Hin as [Hin | Hin].
      - apply (Hdisj s); [right; exact Hs | exact Hin].
      - apply list_elem_of_singleton in Hin. subst s. contradiction. }
    exists st'. split; [exact Hall |].
    rewrite <- app_assoc in Hinv'. exact Hinv'.
Qed.

Lemma inv_calls (rounds : list (list Z)) :
  forall (seen : list Z) (st : state),
    inv seen st -> NoDup (concat rounds) ->
    (forall secret, secret ∈ concat rounds -> secret ∉ seen) ->
    exists st', calls st rounds = Some st' /\ inv (seen ++ concat rounds) st'.
Proof.
  induction rounds as [| newSecrets rounds IH]; intros seen st Hinv Hnd Hdisj.
  - exists st. simpl. rewrite app_nil_r. split; [reflexivity | exact Hinv].
  - cbn [concat] in *. apply NoDup_app in Hnd. destruct Hnd as (Hnd1 & Hcross & Hnd2).
    destruct (inv_place_all newSecrets seen st Hinv Hnd1) as (st1 & Hall & Hinv1).
    { intros s Hs. apply Hdisj, elem_of_app. left. exact Hs. }
    cbn [calls]. unfold addSecretsToBatches.
    destruct st as [bs rs um]. cbn [batches batchRoots userMap]. rewrite Hall.
    destruct (IH (seen ++ newSecrets) st1 Hinv1 Hnd2) as (st' & Hcalls & Hinv').
    { intros s Hs Hin. apply elem_of_app in Hin. destruct Hin as [Hin | Hin].
      - apply (Hdisj s); [apply elem_of_app; right; exact Hs | exact Hin].
      - apply (Hcross s Hin Hs). }
    exists st'. split; [exact Hcalls |].
    rewrite <- app_assoc in Hinv'. exact Hinv'.
Qed.

(** The capacity half of the invariant needs no distinctness. *)
Record shape (st : state) : Prop := mkShape {
  shape_lengths : length (batches st) = length (batchRoots st);
  shape_bounded : forall i roots,
    batchRoots st !! i = Some roots -> length roots <= MAX_POLY_DEGREE;
  shape_full : all_but_last_full st;
}.

(** ** C6 *)

(** C6, as stated, fails when a root is inserted again after its batch
    has filled up: 129 insertions of the root 5 leave it listed in batch 0
    and mapped to batch 1. *)
Lemma batch_invariant_fails_on_repeated_root :
  exists st : state,
    calls empty [replicate 129 5%Z] = Some st /\
    all_but_last_full st /\ mapped_are_listed st /\
    batchRoots st !! 0 = Some (replicate 128 5%Z) /\
    userMap st !! pretty 5%Z = Some 1 /\
    ~ batch_invariant st.
Proof.
  assert (Hrun : (fun s => (batchRoots s, userMap s !! pretty 5%Z, dom (userMap s)))
                   <$> calls empty [replicate 129 5%Z]
                 = Some ([replicate 128 5%Z; [5%Z]], Some 1, {[ pretty 5%Z ]}))
    by (vm_compute; reflexivity).
  destruct (calls empty [replicate 129 5%Z]) as [st |]; [| discriminate].
  cbn [fmap option_fmap option_map] in Hrun.
  injection Hrun as Hroots Hmap Hdom.
  exists st. split; [reflexivity |].
  assert (Hkeys : forall key i, userMap st !! key = Some i -> key = pretty 5%Z).
  { intros key i Hkey.
    assert (Hin : key ∈ dom (userMap st)) by (apply elem_of_dom; eauto).
    rewrite Hdom in Hin. apply elem_of_singleton in Hin. exact Hin. }
  split; [| split; [| split; [| split; [exact Hmap |]]]].
  - intros i roots Hi Hlt. rewrite Hroots in Hi, Hlt. simpl in Hlt.
    destruct i as [| i]; [| lia]. injection Hi as <-. reflexivity.
  - intros key i Hkey. pose proof (Hkeys key i Hkey) as ->.
    rewrite Hmap in Hkey. injection Hkey as <-.
    exists [5%Z], 5%Z. rewrite Hroots. split; [reflexivity |].
    split; [apply list_elem_of_singleton; reflexivity | reflexivity].
  - rewrite Hroots. reflexivity.
  - intros (_ & _ & Hlisted).
    specialize (Hlisted 0 (replicate 128 5%Z) 5%Z).
    rewrite Hroots, Hmap in Hlisted.
    assert (H : Some 1 = Some 0); [| discriminate].
    apply Hlisted; [reflexivity |]. left.
Qed.

(** C6 (amended): after any sequence of [addSecretsToBatches] calls from
    the empty batch state in which no root is inserted twice, every batch
    except at most the last holds exactly [MAX_POLY_DEGREE] roots, each
    mapped root is listed in its mapped batch, and every listed root is
    mapped to the batch that lists it. *)
Theorem batch_invariant_for_distinct_roots (rounds : list (list Z)) :
  NoDup (concat rounds) ->
  exists st : state, calls empty rounds = Some st /\ batch_invariant st.
Proof.
  intros Hnd.
  destruct (inv_calls rounds [] empty inv_empty Hnd) as (st & Hcalls & Hinv).
  { intros s _ Hin. apply elem_of_nil in Hin. exact Hin. }
  exists st. split; [exact Hcalls |].
  split; [apply (inv_full _ _ Hinv) |].
  split; [apply (inv_mapped _ _ Hinv) | apply (inv_listed _ _ Hinv)].
Qed.

Lemma batch_invariant_for_distinct_roots_witness :
  exists st : state,
    calls empty [[3%Z; 1%Z]; [4%Z]; [5%Z; 9%Z; 2%Z]] = Some st /\ batch_invariant st.
Proof.
  apply (batch_invariant_for_distinct_roots [[3%Z; 1%Z]; [4%Z]; [5%Z; 9%Z; 2%Z]]).
  simpl. repeat constructor; rewrite ?elem_of_cons, ?elem_of_nil; intuition discriminate.
Defined.

End BatchFacts.

(* ===================================================================== *)
(** * Incremental Merkle tree (merkle_tree.ts)                            *)
(* ===================================================================== *)

Module IMT.
Import Field.

(** How a method ends when it throws. *)
Inductive error : Type :=
  | TreeFull         (** [Tree is full: max ... leaves] *)
  | InvalidIndex     (** [Invalid index: ...] *)
  | TypeError.       (** arithmetic on [undefined] *)

Inductive result (A : Type) : Type :=
  | Ok (a : A)
  | Err (e : error).
Arguments Ok {A} a.
Arguments Err {A} e.

Section WithHash.

(** [poseidon2Hash] of @zkpassport/poseidon2: outside the repository, and
    used only as a function from the list of its inputs to a bigint. *)
Variable poseidon2Hash : list Z -> Z.

Definition TREE_DEPTH : nat := 20.

(** [2n ** BigInt(TREE_DEPTH)] *)
Definition MAX_LEAVES : Z := 2 ^ Z.of_nat TREE_DEPTH.

(** [poseidon2(inputs)], on the branch where the library returns a
    bigint. *)
Definition poseidon2 (inputs : list Z) : Z :=
  let normalized := map fmod inputs in
  fmod (poseidon2Hash normalized).

Definition hashLeaf (secret : Z) : Z := poseidon2 [secret].

Definition hashPair (left_ right_ : Z) : Z := poseidon2 [left_; right_].

Definition getZeroValue : Z := poseidon2 [0].

(** [a[i]] for an index that the code keeps inside the array. *)
Definition arr_get (a : list Z) (i : nat) : Z := default 0 (a !! i).

(** The [for] of [computeZeroHashes], from index [i] on.  The array has
    its [TREE_DEPTH + 1] slots from the start; each one is written before
    it is read, so what stands in an unwritten slot does not matter. *)
Fixpoint computeZeroHashes_loop (fuel i : nat) (zeroHashes : list Z) : list Z :=
  match fuel with
  | O => zeroHashes
  | S fuel' =>
      computeZeroHashes_loop fuel' (S i)
        (<[i := hashPair (arr_get zeroHashes (i - 1)) (arr_get zeroHashes (i - 1))]> zeroHashes)
  end.

Definition computeZeroHashes : list Z :=
  let zeroHashes := replicate (TREE_DEPTH + 1) 0 in
  let zeroHashes := <[0%nat := getZeroValue]> zeroHashes in
  computeZeroHashes_loop TREE_DEPTH 1 zeroHashes.

Definition ZERO_HASHES : list Z := computeZeroHashes.

(** The fields of [IncrementalMerkleTree].  [leaves] is the array seen as
    the map from the indices that hold an element to the elements (a read
    elsewhere is [undefined]); [nodes] is the [Map] whose key
    [`${level}:${index}`] stands for the pair [(level, index)]. *)
Record tree : Type := mkTree {
  leaves : gmap Z Z;
  nodes : gmap (nat * Z) Z;
  nextIndex : Z;
}.

(** [constructor()] *)
Definition new_tree : tree := mkTree ∅ ∅ 0.

Definition getNode (t : tree) (level : nat) (index : Z) : option Z :=
  nodes t !! (level, index).

Definition setNode (t : tree) (level : nat) (index : Z) (value : Z) : tree :=
  mkTree (leaves t) (<[(level, index) := value]> (nodes t)) (nextIndex t).

(** [this.leaves[index] = leaf] *)
Definition setLeaf (t : tree) (index : Z) (leaf : Z) : tree :=
  mkTree (<[index := leaf]> (leaves t)) (nodes t) (nextIndex t).

(** The [for] of [updatePath], from [level] on, for [fuel] more levels.
    [%] on numbers truncates ([Z.rem]); [Math.floor(x / 2)] is [x / 2]. *)
Fixpoint updatePath_loop (fuel level : nat) (currentIndex currentHash : Z)
    (t : tree) : tree :=
  match fuel with
  | O => t
  | S fuel' =>
      let isRight := Z.rem currentIndex 2 =? 1 in
      let siblingIndex := if isRight then currentIndex - 1 else currentIndex + 1 in
      let parentIndex := currentIndex / 2 in
      let siblingHash :=
        if (level =? 0)%nat
        then default getZeroValue (leaves t !! siblingIndex)
        else default (arr_get ZERO_HASHES level) (getNode t level siblingIndex) in
      let '(left_, right_) :=
        if isRight then (siblingHash, currentHash) else (currentHash, siblingHash) in
      let parentHash := hashPair left_ right_ in
      let t := setNode t (level + 1) parentIndex parentHash in
      updatePath_loop fuel' (S level) parentIndex parentHash t
  end.

(** [updatePath(index)]; [None] when [this.leaves[index]] is [undefined]
    (the hash wrapper then throws on [undefined % f]).  Both callers store
    the leaf first. *)
Definition updatePath (index : Z) (t : tree) : option tree :=
  match leaves t !! index with
  | Some currentHash => Some (updatePath_loop TREE_DEPTH 0 index currentHash t)
  | None => None
  end.

(** [insert(leaf)]: what it returns or throws, and the tree afterwards. *)
Definition insert (leaf : Z) (t : tree) : result Z * tree :=
  if MAX_LEAVES <=? nextIndex t then (Err TreeFull, t)
  else
    let index := nextIndex t in
    let t := setLeaf t index leaf in
    match updatePath index t with
    | None => (Err TypeError, t)
    | Some t => (Ok index, mkTree (leaves t) (nodes t) (nextIndex t + 1))
    end.

Definition insertMember (secret : Z) (t : tree) : result Z * tree :=
  insert (hashLeaf secret) t.

Definition update (index : Z) (newLeaf : Z) (t : tree) : result unit * tree :=
  if (index <? 0) || (nextIndex t <=? index) then (Err InvalidIndex, t)
  else
    let t := setLeaf t index newLeaf in
    match updatePath index t with
    | None => (Err TypeError, t)
    | Some t => (Ok tt, t)
    end.

Definition delete (index : Z) (t : tree) : result unit * tree :=
  update index getZeroValue t.

Definition getRoot (t : tree) : Z :=
  if nextIndex t =? 0 then arr_get ZERO_HASHES TREE_DEPTH
  else default (arr_get ZERO_HASHES TREE_DEPTH) (getNode t TREE_DEPTH 0).

(** The [for] of [getMerklePath]; [push] appends. *)
Fixpoint getMerklePath_loop (fuel level : nat) (currentIndex : Z) (t : tree)
    (path pathIndices : list Z) : list Z * list Z :=
  match fuel with
  | O => (path, pathIndices)
  | S fuel' =>
      let isRight := Z.rem currentIndex 2 =? 1 in
      let siblingIndex := if isRight then currentIndex - 1 else currentIndex + 1 in
      let siblingHash :=
        if (level =? 0)%nat
        then default getZeroValue (leaves t !! siblingIndex)
        else default (arr_get ZERO_HASHES level) (getNode t level siblingIndex) in
      getMerklePath_loop fuel' (S level) (currentIndex / 2) t
        (path ++ [siblingHash]) (pathIndices ++ [if isRight then 1 else 0])
  end.

Definition getMerklePath (index : Z) (t : tree) : result (list Z * list Z) :=
  if (index <? 0) || (nextIndex t <=? index) then Err InvalidIndex
  else Ok (getMerklePath_loop TREE_DEPTH 0 index t [] []).

Definition getLeaf (index : Z) (t : tree) : option Z := leaves t !! index.

(** First [for] of [verifyMerkleProof]: the index that [pathIndices]
    spells. *)
Fixpoint reconstruct_loop (fuel i : nat) (pathIndices : list Z)
    (reconstructedIndex powerOfTwo : Z) : Z :=
  match fuel with
  | O => reconstructedIndex
  | S fuel' =>
      reconstruct_loop fuel' (S i) pathIndices
        (reconstructedIndex + arr_get pathIndices i * powerOfTwo) (powerOfTwo * 2)
  end.

(** Second [for] of [verifyMerkleProof]: the local [currentHash] at the
    end, and the number of calls of [hashPair] made. *)
Fixpoint climb_loop (fuel i : nat) (path pathIndices : list Z)
    (currentHash : Z) (calls : nat) : Z * nat :=
  match fuel with
  | O => (currentHash, calls)
  | S fuel' =>
      let isRight := arr_get pathIndices i =? 1 in
      let '(left_, right_) :=
        if isRight then (arr_get path i, currentHash) else (currentHash, arr_get path i) in
      climb_loop fuel' (S i) path pathIndices (hashPair left_ right_) (S calls)
  end.

(** [verifyMerkleProof], with the count of the hashes it evaluated. *)
Definition verifyMerkleProof_counted (leaf index : Z) (path pathIndices : list Z)
    (root : Z) : bool * nat :=
  if negb (length path =? TREE_DEPTH)%nat || negb (length pathIndices =? TREE_DEPTH)%nat
  then (false, 0%nat)
  else
    let reconstructedIndex := reconstruct_loop TREE_DEPTH 0 pathIndices 0 1 in
    if negb (reconstructedIndex =? index) then (false, 0%nat)
    else
      let '(currentHash, calls) := climb_loop TREE_DEPTH 0 path pathIndices leaf 0 in
      (currentHash =? root, calls).

Definition verifyMerkleProof (leaf index : Z) (path pathIndices : list Z)
    (root : Z) : bool :=
  fst (verifyMerkleProof_counted leaf index path pathIndices root).

(** A run of [insert]s, one per leaf, in order. *)
Definition insert_all (ls : list Z) (t : tree) : tree :=
  foldl (fun t leaf => snd (insert leaf t)) t ls.

(** The trees that calls of [insert], [update] and [delete] lead to from
    a new tree (a call that throws leaves the tree it found). *)
Inductive reachable : tree -> Prop :=
  | reachable_new : reachable new_tree
  | reachable_insert (t : tree) (leaf : Z) :
      reachable t -> reachable (snd (insert leaf t))
  | reachable_update (t : tree) (index newLeaf : Z) :
      reachable t -> reachable (snd (update index newLeaf t))
  | reachable_delete (t : tree) (index : Z) :
      reachable t -> reachable (snd (delete index t)).

(** ** Facts: the zero hashes *)

Arguments TREE_DEPTH : simpl never.

Lemma TREE_DEPTH_pos : (0 < TREE_DEPTH)%nat.
Proof. unfold TREE_DEPTH. lia. Qed.

(** The hash of an empty subtree of height [l]. *)
Fixpoint zero_hash (l : nat) : Z :=
  match l with
  | O => getZeroValue
  | S l' => hashPair (zero_hash l') (zero_hash l')
  end.

Lemma computeZeroHashes_loop_lookup (fuel : nat) :
  forall (i : nat) (zs : list Z),
    (1 <= i)%nat -> (i + fuel <= length zs)%nat ->
    (forall k, (k < i)%nat -> zs !! k = Some (zero_hash k)) ->
    forall k, (k < i + fuel)%nat ->
      computeZeroHashes_loop fuel i zs !! k = Some (zero_hash k).
Proof.
  induction fuel as [| fuel IH]; intros i zs Hi Hlen Hzs k Hk.
  - simpl. apply Hzs. lia.
  - cbn [computeZeroHashes_loop]. apply IH; try lia.
    + rewrite length_insert. lia.
    + intros k' Hk'. destruct (decide (k' = i)) as [-> | Hne].
      * rewrite list_lookup_insert_eq by lia. f_equal.
        unfold arr_get. rewrite (Hzs (i - 1)%nat) by lia. simpl.
        destruct i as [| i]; [lia |].
        replace (S i - 1)%nat with i by lia. reflexivity.
      * rewrite list_lookup_insert_ne by congruence. apply Hzs. lia.
Qed.

Lemma ZERO_HASHES_lookup (l : nat) :
  (l <= TREE_DEPTH)%nat -> arr_get ZERO_HASHES l = zero_hash l.
Proof.
  intros Hl. unfold arr_get, ZERO_HASHES, computeZeroHashes. cbv zeta.
  rewrite (computeZeroHashes_loop_lookup TREE_DEPTH 1); try lia.
  - reflexivity.
  - rewrite length_insert, length_replicate. lia.
  - intros k Hk. assert (k = 0%nat) as -> by lia.
    rewrite list_lookup_insert_eq by (rewrite length_replicate; lia). reflexivity.
Qed.

(** ** Facts: what a level holds, and when a tree is consistent *)

(** The value read for the node [(level, j)]: the stored one, or the
    zero hash of the level. *)
Definition node_at (t : tree) (level : nat) (j : Z) : Z :=
  match level with
  | O => default getZeroValue (leaves t !! j)
  | S _ => default (zero_hash level) (getNode t level j)
  end.

(** The index of the ancestor [k] levels up. *)
Fixpoint halve (k : nat) (ci : Z) : Z :=
  match k with
  | O => ci
  | S k' => halve k' (ci / 2)
  end.

Definition consistent_at (t : tree) (l : nat) (j : Z) : Prop :=
  node_at t (S l) j = hashPair (node_at t l (2 * j)) (node_at t l (2 * j + 1)).

(** Every node of the levels [1 .. TREE_DEPTH] is the hash of its two
    children. *)
Definition consistent (t : tree) : Prop :=
  forall (l : nat) (j : Z), (l < TREE_DEPTH)%nat -> 0 <= j -> consistent_at t l j.

(** [(l, j)] is a proper ancestor of [(level, ci)]. *)
Definition above (level : nat) (ci : Z) (l : nat) (j : Z) : Prop :=
  exists k : nat, l = (level + S k)%nat /\ j = halve (S k) ci.

(** Consistent except, possibly, at the proper ancestors of [(level, ci)]. *)
Definition consistent_off (level : nat) (ci : Z) (t : tree) : Prop :=
  forall (l : nat) (j : Z),
    (l < TREE_DEPTH)%nat -> 0 <= j -> ~ above level ci (S l) j -> consistent_at t l j.

Lemma sibling_read (t : tree) (level : nat) (j : Z) :
  (level <= TREE_DEPTH)%nat ->
  (if (level =? 0)%nat
   then default getZeroValue (leaves t !! j)
   else default (arr_get ZERO_HASHES level) (getNode t level j))
  = node_at t level j.
Proof.
  intros Hl. destruct level as [| level]; [reflexivity |].
  cbn [Nat.eqb node_at]. rewrite ZERO_HASHES_lookup by exact Hl. reflexivity.
Qed.

Lemma parity_right (ci : Z) :
  0 <= ci -> (Z.rem ci 2 =? 1) = true -> ci = 2 * (ci / 2) + 1.
Proof.
  intros Hci Hr. apply Z.eqb_eq in Hr. rewrite Z.rem_mod_nonneg in Hr by lia.
  pose proof (Z.div_mod ci 2 ltac:(lia)). lia.
Qed.

Lemma parity_left (ci : Z) :
  0 <= ci -> (Z.rem ci 2 =? 1) = false -> ci = 2 * (ci / 2).
Proof.
  intros Hci Hr. apply Z.eqb_neq in Hr. rewrite Z.rem_mod_nonneg in Hr by lia.
  pose proof (Z.div_mod ci 2 ltac:(lia)).
  pose proof (Z.mod_pos_bound ci 2 ltac:(lia)). lia.
Qed.

Lemma half_nonneg (ci : Z) : 0 <= ci -> 0 <= ci / 2.
Proof. intros. apply Z.div_pos; lia. Qed.

Lemma halve_nonneg (k : nat) : forall ci : Z, 0 <= ci -> 0 <= halve k ci.
Proof.
  induction k as [| k IH]; intros ci Hci; simpl; [exact Hci |].
  apply IH, half_nonneg, Hci.
Qed.

Lemma halve_S_r (k : nat) : forall ci : Z, halve (S k) ci = halve k ci / 2.
Proof.
  induction k as [| k IH]; intros ci; [reflexivity |].
  change (halve (S (S k)) ci) with (halve (S k) (ci / 2)). rewrite IH. reflexivity.
Qed.

Lemma halve_small (k : nat) :
  forall ci : Z, 0 <= ci < 2 ^ Z.of_nat k -> halve k ci = 0.
Proof.
  induction k as [| k IH]; intros ci Hci.
  - simpl in *. lia.
  - cbn [halve]. apply IH.
    rewrite Nat2Z.inj_succ, Z.pow_succ_r in Hci by lia.
    split; [apply half_nonneg; lia |].
    apply Z.div_lt_upper_bound; lia.
Qed.

Lemma node_at_setNode (t : tree) (l' : nat) (j' v : Z) (l : nat) (j : Z) :
  node_at (setNode t (S l') j' v) l j
  = if decide ((l, j) = (S l', j')) then v else node_at t l j.
Proof.
  destruct l as [| l]; cbn [node_at setNode leaves].
  - destruct (decide _) as [Heq | _]; [discriminate | reflexivity].
  - unfold getNode, setNode. cbn [nodes].
    destruct (decide ((S l, j) = (S l', j'))) as [Heq | Hne].
    + injection Heq as -> ->. rewrite (lookup_insert_eq (nodes t)). reflexivity.
    + rewrite (lookup_insert_ne (nodes t)) by congruence. reflexivity.
Qed.

Lemma above_step (level : nat) (ci : Z) (l : nat) (j : Z) :
  above level ci (S l) j ->
  (l = level /\ j = ci / 2) \/ above (S level) (ci / 2) (S l) j.
Proof.
  intros ([| k] & Hl & Hj).
  - left. simpl in Hj. split; [lia | exact Hj].
  - right. exists k. split; [lia | exact Hj].
Qed.

(** ** Facts: [updatePath] *)

Lemma updatePath_loop_leaves (fuel : nat) :
  forall (level : nat) (ci ch : Z) (t : tree),
    leaves (updatePath_loop fuel level ci ch t) = leaves t /\
    nextIndex (updatePath_loop fuel level ci ch t) = nextIndex t.
Proof.
  induction fuel as [| fuel IH]; intros level ci ch t; [split; reflexivity |].
  cbn [updatePath_loop]. cbv zeta.
  destruct (Z.rem ci 2 =? 1);
    match goal with
    | |- leaves (updatePath_loop _ ?l ?c ?h ?t') = _ /\ _ =>
        destruct (IH l c h t') as [-> ->]
    end; split; reflexivity.
Qed.

Lemma updatePath_loop_keeps_nodes (fuel : nat) :
  forall (level : nat) (ci ch : Z) (t : tree) (key : nat * Z),
    is_Some (nodes t !! key) ->
    is_Some (nodes (updatePath_loop fuel level ci ch t) !! key).
Proof.
  induction fuel as [| fuel IH]; intros level ci ch t key Hkey; [exact Hkey |].
  cbn [updatePath_loop]. cbv zeta.
  destruct (Z.rem ci 2 =? 1); apply IH; unfold setNode; cbn [nodes];
    rewrite lookup_insert_is_Some;
    destruct (decide (((level + 1)%nat, ci / 2) = key)); auto.
Qed.

(** The last iteration stores the node at the top of the path. *)
Lemma updatePath_loop_top (fuel : nat) :
  forall (level : nat) (ci ch : Z) (t : tree),
    is_Some (nodes (updatePath_loop (S fuel) level ci ch t)
               !! ((level + S fuel)%nat, halve (S fuel) ci)).
Proof.
  induction fuel as [| fuel IH]; intros level ci ch t.
  - cbn [updatePath_loop halve]. cbv zeta.
    destruct (Z.rem ci 2 =? 1); unfold setNode; cbn [nodes];
      rewrite lookup_insert_eq; eauto.
  - remember (S fuel) as n eqn:Hn.
    cbn [updatePath_loop]. cbv zeta.
    replace (level + S n)%nat with (S level + n)%nat by lia.
    change (halve (S n) ci) with (halve n (ci / 2)).
    subst n. destruct (Z.rem ci 2 =? 1); apply IH.
Qed.

Lemma updatePath_loop_consistent (fuel : nat) :
  forall (level : nat) (ci ch : Z) (t : tree),
    (level + fuel)%nat = TREE_DEPTH -> 0 <= ci ->
    consistent_off level ci t -> node_at t level ci = ch ->
    consistent (updatePath_loop fuel level ci ch t).
Proof.
  induction fuel as [| fuel IH]; intros level ci ch t Hd Hci Hoff Hch.
  - intros l j Hl Hj. apply Hoff; try assumption.
    intros (k & Hk & _). lia.
  - cbn [updatePath_loop]. cbv zeta.
    rewrite sibling_read by lia. rewrite Nat.add_1_r.
    set (parentHash :=
           let '(left_, right_) :=
             if Z.rem ci 2 =? 1
             then (node_at t level (if Z.rem ci 2 =? 1 then ci - 1 else ci + 1), ch)
             else (ch, node_at t level (if Z.rem ci 2 =? 1 then ci - 1 else ci + 1)) in
           hashPair left_ right_).
    assert (Hparent : parentHash
                      = hashPair (node_at t level (2 * (ci / 2)))
                                 (node_at t level (2 * (ci / 2) + 1))).
    { subst parentHash. destruct (Z.rem ci 2 =? 1) eqn:Hr.
      - pose proof (parity_right ci Hci Hr) as Heq.
        replace (ci - 1) with (2 * (ci / 2)) by lia.
        rewrite <- Heq, Hch. reflexivity.
      - pose proof (parity_left ci Hci Hr) as Heq.
        replace (ci + 1) with (2 * (ci / 2) + 1) by lia.
        rewrite <- Heq, Hch. reflexivity. }
    assert (Hgoal : consistent
              (updatePath_loop fuel (S level) (ci / 2) parentHash
                 (setNode t (S level) (ci / 2) parentHash))).
    { apply IH.
      - lia.
      - apply half_nonneg, Hci.
      - intros l j Hl Hj Hnot. unfold consistent_at.
        rewrite !node_at_setNode.
        destruct (decide ((S l, j) = (S level, ci / 2))) as [Heq | Hne].
        + injection Heq as -> ->.
          destruct (decide ((level, 2 * (ci / 2)) = (S level, ci / 2))) as [H1 | _];
            [injection H1; lia |].
          destruct (decide ((level, 2 * (ci / 2) + 1) = (S level, ci / 2))) as [H1 | _];
            [injection H1; lia |].
          exact Hparent.
        + destruct (decide ((l, 2 * j) = (S level, ci / 2))) as [H1 | _].
          { exfalso. injection H1 as -> H2. apply Hnot. exists 0%nat.
            split; [lia |]. cbn [halve]. rewrite <- H2.
            rewrite Z.mul_comm, Z.div_mul by lia. reflexivity. }
          destruct (decide ((l, 2 * j + 1) = (S level, ci / 2))) as [H1 | _].
          { exfalso. injection H1 as -> H2. apply Hnot. exists 0%nat.
            split; [lia |]. cbn [halve]. rewrite <- H2.
            rewrite Z.mul_comm, Z.div_add_l by lia.
            replace (1 / 2) with 0 by reflexivity. lia. }
          apply Hoff; try assumption.
          intros Habove. apply above_step in Habove.
          destruct Habove as [[-> ->] | Habove]; [congruence | contradiction].
      - rewrite node_at_setNode. destruct (decide _); [reflexivity | congruence]. }
    subst parentHash. destruct (Z.rem ci 2 =? 1); exact Hgoal.
Qed.

(** Storing a leaf breaks consistency at most along its path. *)
Lemma setLeaf_consistent_off (t : tree) (index leaf : Z) :
  consistent t -> consistent_off 0 index (setLeaf t index leaf).
Proof.
  intros Hcons l j Hl Hj Hnot. specialize (Hcons l j Hl Hj).
  unfold consistent_at in *.
  destruct l as [| l]; [| exact Hcons].
  cbn [node_at] in *. unfold getNode, setLeaf in *. cbn [nodes leaves] in *.
  assert (H1 : index <> 2 * j).
  { intros ->. apply Hnot. exists 0%nat. split; [reflexivity |].
    cbn [halve]. rewrite Z.mul_comm, Z.div_mul by lia. reflexivity. }
  assert (H2 : index <> 2 * j + 1).
  { intros ->. apply Hnot. exists 0%nat. split; [reflexivity |].
    cbn [halve]. rewrite Z.mul_comm, Z.div_add_l by lia.
    replace (1 / 2) with 0 by reflexivity. lia. }
  rewrite !lookup_insert_ne by assumption. exact Hcons.
Qed.

Lemma updatePath_setLeaf (t : tree) (index leaf : Z) :
  updatePath index (setLeaf t index leaf)
  = Some (updatePath_loop TREE_DEPTH 0 index leaf (setLeaf t index leaf)).
Proof.
  unfold updatePath, setLeaf. cbn [leaves]. rewrite lookup_insert_eq. reflexivity.
Qed.

Lemma updatePath_setLeaf_consistent (t : tree) (index leaf : Z) :
  consistent t -> 0 <= index ->
  consistent (updatePath_loop TREE_DEPTH 0 index leaf (setLeaf t index leaf)).
Proof.
  intros Hcons Hidx. apply updatePath_loop_consistent.
  - reflexivity.
  - exact Hidx.
  - apply setLeaf_consistent_off, Hcons.
  - unfold node_at, setLeaf. cbn [leaves]. rewrite lookup_insert_eq. reflexivity.
Qed.

Lemma consistent_ext (t t' : tree) :
  leaves t' = leaves t -> nodes t' = nodes t -> consistent t -> consistent t'.
Proof.
  intros Hl Hn Hcons l j Hlt Hj. specialize (Hcons l j Hlt Hj).
  unfold consistent_at, node_at, getNode in *. rewrite Hl, Hn. exact Hcons.
Qed.

Lemma consistent_new : consistent new_tree.
Proof.
  intros l j _ _. unfold consistent_at.
  destruct l; reflexivity.
Qed.

(** ** Facts: the trees that the methods build *)

Record wf (t : tree) : Prop := mkWf {
  wf_consistent : consistent t;
  wf_count : 0 <= nextIndex t <= MAX_LEAVES;
  wf_leaves : forall j, is_Some (leaves t !! j) <-> 0 <= j < nextIndex t;
  wf_top : 0 < nextIndex t -> is_Some (getNode t TREE_DEPTH 0);
}.

Lemma wf_new : wf new_tree.
Proof.
  split.
  - apply consistent_new.
  - unfold new_tree, MAX_LEAVES. cbn [nextIndex]. split; [lia |].
    apply Z.pow_nonneg. lia.
  - intros j. unfold new_tree. cbn [leaves nextIndex]. rewrite lookup_empty.
    split; [intros [x Hx]; discriminate | lia].
  - unfold new_tree. cbn [nextIndex]. lia.
Qed.

Lemma updatePath_loop_root (index ch : Z) (t : tree) :
  0 <= index < MAX_LEAVES ->
  is_Some (getNode (updatePath_loop TREE_DEPTH 0 index ch t) TREE_DEPTH 0).
Proof.
  intros Hidx. unfold getNode.
  pose proof TREE_DEPTH_pos as Hpos.
  destruct TREE_DEPTH as [| d] eqn:Hd; [lia |].
  pose proof (updatePath_loop_top d 0 index ch t) as Htop.
  rewrite halve_small in Htop; [exact Htop |].
  unfold MAX_LEAVES in Hidx. rewrite Hd in Hidx. exact Hidx.
Qed.

Lemma insert_full (leaf : Z) (t : tree) :
  MAX_LEAVES <= nextIndex t -> insert leaf t = (Err TreeFull, t).
Proof.
  intros H. unfold insert. destruct (Z.leb_spec MAX_LEAVES (nextIndex t)); [reflexivity | lia].
Qed.

Lemma insert_room (leaf : Z) (t : tree) :
  nextIndex t < MAX_LEAVES ->
  insert leaf t
  = (Ok (nextIndex t),
     let t' := updatePath_loop TREE_DEPTH 0 (nextIndex t) leaf (setLeaf t (nextIndex t) leaf) in
     mkTree (leaves t') (nodes t') (nextIndex t' + 1)).
Proof.
  intros H. unfold insert.
  destruct (Z.leb_spec MAX_LEAVES (nextIndex t)); [lia |].
  cbv zeta. replace (nextIndex (setLeaf t (nextIndex t) leaf)) with (nextIndex t) by reflexivity.
  rewrite updatePath_setLeaf. reflexivity.
Qed.

Lemma insert_room_fields (leaf : Z) (t : tree) :
  nextIndex t < MAX_LEAVES ->
  leaves (snd (insert leaf t)) = <[nextIndex t := leaf]> (leaves t) /\
  nextIndex (snd (insert leaf t)) = nextIndex t + 1.
Proof.
  intros H. rewrite insert_room by exact H. cbv zeta. cbn [snd leaves nextIndex].
  destruct (updatePath_loop_leaves TREE_DEPTH 0 (nextIndex t) leaf
              (setLeaf t (nextIndex t) leaf)) as [-> ->].
  split; reflexivity.
Qed.

Lemma update_invalid (index newLeaf : Z) (t : tree) :
  index < 0 \/ nextIndex t <= index -> update index newLeaf t = (Err InvalidIndex, t).
Proof.
  intros H. unfold update.
  destruct (Z.ltb_spec index 0), (Z.leb_spec (nextIndex t) index); cbn [orb];
    try reflexivity; lia.
Qed.

Lemma update_valid (index newLeaf : Z) (t : tree) :
  0 <= index < nextIndex t ->
  update index newLeaf t
  = (Ok tt, updatePath_loop TREE_DEPTH 0 index newLeaf (setLeaf t index newLeaf)).
Proof.
  intros H. unfold update.
  destruct (Z.ltb_spec index 0), (Z.leb_spec (nextIndex t) index); cbn [orb]; try lia.
  cbv zeta. rewrite updatePath_setLeaf. reflexivity.
Qed.

Lemma wf_insert (leaf : Z) (t : tree) : wf t -> wf (snd (insert leaf t)).
Proof.
  intros Hwf. pose proof (wf_count _ Hwf) as Hcount.
  destruct (Z.le_gt_cases MAX_LEAVES (nextIndex t)) as [Hfull | Hroom].
  - rewrite insert_full by exact Hfull. exact Hwf.
  - rewrite insert_room by lia. cbv zeta. cbn [snd].
    set (t' := updatePath_loop TREE_DEPTH 0 (nextIndex t) leaf
                 (setLeaf t (nextIndex t) leaf)).
    destruct (updatePath_loop_leaves TREE_DEPTH 0 (nextIndex t) leaf
                (setLeaf t (nextIndex t) leaf)) as [Hl Hn].
    fold t' in Hl, Hn.
    split; cbn [leaves nodes nextIndex].
    + apply (consistent_ext t'); try reflexivity.
      apply updatePath_setLeaf_consistent; [apply (wf_consistent _ Hwf) | lia].
    + rewrite Hn. cbn [setLeaf nextIndex]. lia.
    + intros j. rewrite Hl, Hn. cbn [setLeaf leaves nextIndex].
      rewrite lookup_insert_is_Some, (wf_leaves _ Hwf).
      destruct (decide (nextIndex t = j)); intuition lia.
    + intros _. unfold getNode. cbn [nodes].
      apply updatePath_loop_root. lia.
Qed.

Lemma wf_update (index newLeaf : Z) (t : tree) :
  wf t -> wf (snd (update index newLeaf t)).
Proof.
  intros Hwf. pose proof (wf_count _ Hwf) as Hcount.
  destruct (Z.lt_ge_cases index 0) as [Hneg | Hpos];
    [rewrite update_invalid by lia; exact Hwf |].
  destruct (Z.le_gt_cases (nextIndex t) index) as [Hbig | Hin];
    [rewrite update_invalid by lia; exact Hwf |].
  rewrite update_valid by lia. cbn [snd].
  destruct (updatePath_loop_leaves TREE_DEPTH 0 index newLeaf
              (setLeaf t index newLeaf)) as [Hl Hn].
  split.
  - apply updatePath_setLeaf_consistent; [apply (wf_consistent _ Hwf) | lia].
  - rewrite Hn. exact Hcount.
  - intros j. rewrite Hl, Hn. cbn [setLeaf leaves nextIndex].
    rewrite lookup_insert_is_Some, (wf_leaves _ Hwf).
    destruct (decide (index = j)); intuition lia.
  - intros _. apply updatePath_loop_root. lia.
Qed.

Lemma wf_reachable (t : tree) : reachable t -> wf t.
Proof.
  induction 1 as [| t leaf _ IH | t index newLeaf _ IH | t index _ IH].
  - apply wf_new.
  - apply wf_insert, IH.
  - apply wf_update, IH.
  - apply wf_update, IH.
Qed.

Lemma getRoot_node_at (t : tree) :
  nextIndex t <> 0 -> getRoot t = node_at t TREE_DEPTH 0.
Proof.
  intros Hn. unfold getRoot. destruct (Z.eqb_spec (nextIndex t) 0) as [H0 | _]; [lia |].
  rewrite <- (sibling_read t TREE_DEPTH 0) by lia.
  pose proof TREE_DEPTH_pos.
  destruct (Nat.eqb_spec TREE_DEPTH 0); [lia | reflexivity].
Qed.

(** ** Facts: [getMerklePath] and [verifyMerkleProof] *)

Definition sibling_of (ci : Z) : Z := if Z.rem ci 2 =? 1 then ci - 1 else ci + 1.

Definition bit_of (ci : Z) : Z := if Z.rem ci 2 =? 1 then 1 else 0.

Lemma getMerklePath_loop_spec (t : tree) (fuel : nat) :
  forall (level : nat) (ci : Z) (path pathIndices : list Z),
    (level + fuel <= TREE_DEPTH)%nat ->
    let r := getMerklePath_loop fuel level ci t path pathIndices in
    length (fst r) = (length path + fuel)%nat /\
    length (snd r) = (length pathIndices + fuel)%nat /\
    (forall k, (k < length path)%nat -> fst r !! k = path !! k) /\
    (forall k, (k < length pathIndices)%nat -> snd r !! k = pathIndices !! k) /\
    (forall k, (k < fuel)%nat ->
       fst r !! (length path + k)%nat
       = Some (node_at t (level + k) (sibling_of (halve k ci))) /\
       snd r !! (length pathIndices + k)%nat = Some (bit_of (halve k ci))).
Proof.
  induction fuel as [| fuel IH]; intros level ci path pathIndices Hd; cbv zeta.
  - cbn [getMerklePath_loop fst snd]. repeat split; try lia; intros; try reflexivity; lia.
  - cbn [getMerklePath_loop]. rewrite sibling_read by lia.
    fold (sibling_of ci). fold (bit_of ci).
    specialize (IH (S level) (ci / 2) (path ++ [node_at t level (sibling_of ci)])
                  (pathIndices ++ [bit_of ci]) ltac:(lia)).
    cbv zeta in IH. destruct IH as (Hl1 & Hl2 & Hp1 & Hp2 & Hk).
    rewrite !length_app in *. cbn [length] in *.
    split; [lia |]. split; [lia |].
    split; [| split].
    + intros k Hlt. rewrite Hp1 by lia. apply lookup_app_l. exact Hlt.
    + intros k Hlt. rewrite Hp2 by lia. apply lookup_app_l. exact Hlt.
    + intros [| k] Hlt.
      * rewrite !Nat.add_0_r. rewrite Hp1, Hp2 by lia.
        rewrite !list_lookup_middle by reflexivity. split; reflexivity.
      * destruct (Hk k ltac:(lia)) as [H1 H2].
        replace (length path + S k)%nat with (length path + 1 + k)%nat by lia.
        replace (length pathIndices + S k)%nat with (length pathIndices + 1 + k)%nat by lia.
        replace (level + S k)%nat with (S level + k)%nat by lia.
        split; [exact H1 | exact H2].
Qed.

(** The entries of a Merkle path, as the verifier reads them. *)
Definition is_path_of (t : tree) (index : Z) (path pathIndices : list Z) : Prop :=
  length path = TREE_DEPTH /\ length pathIndices = TREE_DEPTH /\
  forall k, (k < TREE_DEPTH)%nat ->
    arr_get path k = node_at t k (sibling_of (halve k index)) /\
    arr_get pathIndices k = bit_of (halve k index).

Lemma getMerklePath_is_path (t : tree) (index : Z) :
  is_path_of t index
    (fst (getMerklePath_loop TREE_DEPTH 0 index t [] []))
    (snd (getMerklePath_loop TREE_DEPTH 0 index t [] [])).
Proof.
  destruct (getMerklePath_loop_spec t TREE_DEPTH 0 index [] [] ltac:(lia))
    as (Hl1 & Hl2 & _ & _ & Hk).
  split; [exact Hl1 |]. split; [exact Hl2 |].
  intros k Hlt. destruct (Hk k Hlt) as [H1 H2]. cbn [length Nat.add] in H1, H2.
  unfold arr_get. rewrite H1, H2. split; reflexivity.
Qed.

Lemma bit_of_mod (ci : Z) : 0 <= ci -> bit_of ci = ci mod 2.
Proof.
  intros Hci. unfold bit_of. rewrite Z.rem_mod_nonneg by lia.
  pose proof (Z.mod_pos_bound ci 2 ltac:(lia)).
  destruct (Z.eqb_spec (ci mod 2) 1); lia.
Qed.

Lemma bit_of_eqb (ci : Z) : (bit_of ci =? 1) = (Z.rem ci 2 =? 1).
Proof. unfold bit_of. destruct (Z.rem ci 2 =? 1); reflexivity. Qed.

Lemma reconstruct_loop_spec (index : Z) (pathIndices : list Z) (fuel : nat) :
  0 <= index ->
  forall (i : nat) (acc pow : Z),
    (forall k, (i <= k < i + fuel)%nat -> arr_get pathIndices k = bit_of (halve k index)) ->
    reconstruct_loop fuel i pathIndices acc pow
    = acc + pow * (halve i index mod 2 ^ Z.of_nat fuel).
Proof.
  intros Hidx. induction fuel as [| fuel IH]; intros i acc pow Hbits.
  - cbn [reconstruct_loop]. rewrite Z.pow_0_r, Z.mod_1_r. lia.
  - cbn [reconstruct_loop]. rewrite IH by (intros k Hk; apply Hbits; lia).
    rewrite (Hbits i) by lia.
    rewrite bit_of_mod by (apply halve_nonneg; exact Hidx).
    rewrite halve_S_r.
    rewrite Nat2Z.inj_succ, Z.pow_succ_r by lia.
    rewrite (Z.rem_mul_r (halve i index) 2 (2 ^ Z.of_nat fuel)); [lia | lia |].
    apply Z.pow_pos_nonneg; lia.
Qed.

Lemma climb_loop_spec (t : tree) (index : Z) (path pathIndices : list Z) :
  consistent t -> 0 <= index -> is_path_of t index path pathIndices ->
  forall (fuel i : nat) (calls : nat),
    (i + fuel)%nat = TREE_DEPTH ->
    climb_loop fuel i path pathIndices (node_at t i (halve i index)) calls
    = (node_at t TREE_DEPTH (halve TREE_DEPTH index), (calls + fuel)%nat).
Proof.
  intros Hcons Hidx (_ & _ & Hpath).
  induction fuel as [| fuel IH]; intros i calls Hd.
  - cbn [climb_loop]. rewrite Nat.add_0_r in *. subst i. reflexivity.
  - cbn [climb_loop].
    destruct (Hpath i ltac:(lia)) as [Hsib Hbit]. rewrite Hsib, Hbit, bit_of_eqb.
    pose proof (halve_nonneg i index Hidx) as Hci.
    pose proof (Hcons i (halve (S i) index) ltac:(lia)
                  ltac:(apply halve_nonneg; exact Hidx)) as Hnode.
    unfold consistent_at in Hnode. rewrite halve_S_r in Hnode.
    unfold sibling_of.
    destruct (Z.rem (halve i index) 2 =? 1) eqn:Hr.
    + pose proof (parity_right _ Hci Hr) as Heq.
      replace (halve i index - 1) with (2 * (halve i index / 2)) by lia.
      rewrite Heq at 2. rewrite <- Hnode, <- halve_S_r.
      rewrite IH by lia. f_equal. lia.
    + pose proof (parity_left _ Hci Hr) as Heq.
      replace (halve i index + 1) with (2 * (halve i index / 2) + 1) by lia.
      rewrite Heq at 1. rewrite <- Hnode, <- halve_S_r.
      rewrite IH by lia. f_equal. lia.
Qed.

(** A path read off a consistent tree verifies against its root. *)
Lemma verify_path_of (t : tree) (index leaf : Z) (path pathIndices : list Z) :
  consistent t -> 0 <= index < MAX_LEAVES -> nextIndex t <> 0 ->
  leaves t !! index = Some leaf ->
  is_path_of t index path pathIndices ->
  verifyMerkleProof_counted leaf index path pathIndices (getRoot t)
  = (true, TREE_DEPTH).
Proof.
  intros Hcons Hidx Hn Hleaf Hpath.
  pose proof Hpath as (Hl1 & Hl2 & Hk).
  unfold verifyMerkleProof_counted.
  rewrite Hl1, Hl2, Nat.eqb_refl. cbn [negb orb].
  rewrite (reconstruct_loop_spec index) by (try lia; intros k Hlt; apply Hk; lia).
  cbn [halve]. fold MAX_LEAVES. rewrite Z.mod_small by lia.
  replace (0 + 1 * index) with index by lia. rewrite Z.eqb_refl. cbn [negb].
  assert (Hstart : leaf = node_at t 0 (halve 0 index)).
  { cbn [node_at halve]. rewrite Hleaf. reflexivity. }
  rewrite Hstart, (climb_loop_spec t index path pathIndices Hcons) by (assumption || lia).
  rewrite halve_small by (unfold MAX_LEAVES in Hidx; exact Hidx).
  rewrite getRoot_node_at by exact Hn. rewrite Z.eqb_refl. reflexivity.
Qed.

Lemma round_trip_wf (t : tree) (index leaf : Z) :
  wf t -> leaves t !! index = Some leaf ->
  exists path pathIndices : list Z,
    getMerklePath index t = Ok (path, pathIndices) /\
    verifyMerkleProof leaf index path pathIndices (getRoot t) = true.
Proof.
  intros Hwf Hleaf.
  assert (Hidx : 0 <= index < nextIndex t) by (apply (wf_leaves _ Hwf); eauto).
  pose proof (wf_count _ Hwf) as Hcount.
  exists (fst (getMerklePath_loop TREE_DEPTH 0 index t [] [])),
         (snd (getMerklePath_loop TREE_DEPTH 0 index t [] [])).
  split.
  - unfold getMerklePath.
    destruct (Z.ltb_spec index 0), (Z.leb_spec (nextIndex t) index); cbn [orb]; try lia.
    destruct (getMerklePath_loop TREE_DEPTH 0 index t [] []); reflexivity.
  - unfold verifyMerkleProof.
    rewrite (verify_path_of t index leaf); try reflexivity; try lia.
    + apply (wf_consistent _ Hwf).
    + exact Hleaf.
    + apply getMerklePath_is_path.
Qed.

(** ** Facts: runs of [insert] *)

Lemma insert_all_spec (ls : list Z) :
  forall t : tree,
    wf t -> nextIndex t + Z.of_nat (length ls) <= MAX_LEAVES ->
    wf (insert_all ls t) /\
    nextIndex (insert_all ls t) = nextIndex t + Z.of_nat (length ls) /\
    (forall (k : nat) (leaf : Z),
       ls !! k = Some leaf ->
       leaves (insert_all ls t) !! (nextIndex t + Z.of_nat k) = Some leaf) /\
    (forall j, j < nextIndex t -> leaves (insert_all ls t) !! j = leaves t !! j).
Proof.
  induction ls as [| leaf0 ls IH]; intros t Hwf Hroom.
  - cbn [insert_all foldl length]. split; [exact Hwf |]. split; [lia |].
    split; [intros k leaf Hk; rewrite lookup_nil in Hk; discriminate | reflexivity].
  - cbn [length] in Hroom. rewrite Nat2Z.inj_succ in Hroom.
    pose proof (wf_count _ Hwf) as Hcount.
    pose proof (wf_insert leaf0 t Hwf) as Hwf1.
    unfold insert_all. cbn [foldl]. fold (insert_all ls (snd (insert leaf0 t))).
    assert (Hn1 : nextIndex (snd (insert leaf0 t)) = nextIndex t + 1).
    { rewrite insert_room by lia. cbv zeta. cbn [snd nextIndex].
      rewrite (proj2 (updatePath_loop_leaves _ _ _ _ _)). reflexivity. }
    assert (Hl1 : leaves (snd (insert leaf0 t)) = <[nextIndex t := leaf0]> (leaves t)).
    { rewrite insert_room by lia. cbv zeta. cbn [snd leaves].
      rewrite (proj1 (updatePath_loop_leaves _ _ _ _ _)). reflexivity. }
    destruct (IH (snd (insert leaf0 t)) Hwf1) as (Hwf' & Hn' & Hnew & Hold); [lia |].
    split; [exact Hwf' |]. split; [cbn [length]; lia |].
    split.
    + intros [| k] leaf Hk.
      * cbn in Hk. injection Hk as <-.
        rewrite Hold by lia. rewrite Hl1, Z.add_0_r. apply lookup_insert_eq.
      * cbn in Hk. specialize (Hnew k leaf Hk). rewrite Hn1 in Hnew.
        replace (nextIndex t + Z.of_nat (S k)) with (nextIndex t + 1 + Z.of_nat k) by lia.
        exact Hnew.
    + intros j Hj. rewrite Hold by lia. rewrite Hl1.
      apply lookup_insert_ne. lia.
Qed.

(** ** The claims on the tree *)

(** C1: after any sequence of insertions within the capacity, the path
    that [getMerklePath] returns for a populated index verifies, with the
    leaf inserted there, against [getRoot]. *)
Theorem merkle_round_trip (ls : list Z) (i : nat) (leaf : Z) :
  Z.of_nat (length ls) <= MAX_LEAVES ->
  ls !! i = Some leaf ->
  exists path pathIndices : list Z,
    getMerklePath (Z.of_nat i) (insert_all ls new_tree) = Ok (path, pathIndices) /\
    verifyMerkleProof leaf (Z.of_nat i) path pathIndices
      (getRoot (insert_all ls new_tree)) = true.
Proof.
  intros Hcap Hi.
  destruct (insert_all_spec ls new_tree wf_new) as (Hwf & _ & Hnew & _).
  { cbn [new_tree nextIndex]. lia. }
  apply round_trip_wf; [exact Hwf |].
  specialize (Hnew i leaf Hi). cbn [new_tree nextIndex] in Hnew.
  rewrite Z.add_0_l in Hnew. exact Hnew.
Qed.


(** In a consistent tree whose leaves all hold the zero value, every node
    reads as the zero hash of its level. *)
Lemma all_zero_nodes (t : tree) :
  consistent t ->
  (forall j leaf, leaves t !! j = Some leaf -> leaf = getZeroValue) ->
  forall (l : nat) (j : Z), (l <= TREE_DEPTH)%nat -> 0 <= j -> node_at t l j = zero_hash l.
Proof.
  intros Hcons Hzero. induction l as [| l IH]; intros j Hl Hj.
  - cbn [node_at zero_hash]. destruct (leaves t !! j) as [leaf |] eqn:Hleaf; [| reflexivity].
    cbn [default]. apply (Hzero j leaf Hleaf).
  - rewrite (Hcons l j ltac:(lia) Hj). rewrite !IH by lia. reflexivity.
Qed.

(** A single member whose secret is [0] has the leaf [getZeroValue]: the
    tree then holds one leaf and still has the root of the empty tree. *)
Lemma root_with_zero_member :
  reachable (snd (insertMember 0 new_tree)) /\
  nextIndex (snd (insertMember 0 new_tree)) = 1 /\
  getRoot (snd (insertMember 0 new_tree)) = arr_get ZERO_HASHES TREE_DEPTH.
Proof.
  unfold insertMember.
  assert (Hcap : nextIndex new_tree < MAX_LEAVES).
  { unfold MAX_LEAVES. change (nextIndex new_tree) with 0.
    apply Z.pow_pos_nonneg; lia. }
  destruct (insert_room_fields (hashLeaf 0) new_tree Hcap) as [Hl Hn].
  assert (Hreach : reachable (snd (insert (hashLeaf 0) new_tree)))
    by (apply reachable_insert, reachable_new).
  generalize dependent (snd (insert (hashLeaf 0) new_tree)).
  intros t Hl Hn Hreach. pose proof (wf_reachable _ Hreach) as Hwf.
  change (nextIndex new_tree) with 0 in Hn, Hl.
  split; [exact Hreach |]. split; [exact Hn |].
  rewrite getRoot_node_at by lia.
  rewrite ZERO_HASHES_lookup by lia.
  apply all_zero_nodes; try lia; [apply (wf_consistent _ Hwf) |].
  intros j leaf Hj. rewrite Hl in Hj.
  apply lookup_insert_Some in Hj.
  destruct Hj as [[_ <-] | [_ Hj]]; [reflexivity |].
  change (leaves new_tree) with (∅ : gmap Z Z) in Hj.
  rewrite lookup_empty in Hj. discriminate.
Qed.

(** C5 (amended): in every reachable tree, [getRoot] is
    [ZERO_HASHES[TREE_DEPTH]] when the tree holds no leaf, and otherwise
    is the node stored at [(TREE_DEPTH, 0)], which is then present. *)
Theorem getRoot_of_reachable (t : tree) :
  reachable t ->
  (nextIndex t = 0 -> getRoot t = arr_get ZERO_HASHES TREE_DEPTH) /\
  (nextIndex t <> 0 ->
   exists v : Z, getNode t TREE_DEPTH 0 = Some v /\ getRoot t = v).
Proof.
  intros Hr. pose proof (wf_reachable t Hr) as Hwf. unfold getRoot. split.
  - intros ->. reflexivity.
  - intros Hn. pose proof (wf_count _ Hwf) as Hcount.
    destruct (wf_top _ Hwf ltac:(lia)) as [v Hv]. exists v.
    split; [exact Hv |].
    destruct (Z.eqb_spec (nextIndex t) 0); [lia |]. rewrite Hv. reflexivity.
Qed.

(** C7: [insert] throws [TreeFull] exactly when the tree holds
    [2^TREE_DEPTH] leaves, and then leaves the tree as it was; otherwise it
    stores the leaf at the next free index, which it returns, and counts
    one more leaf. *)
Theorem insert_full_or_appends (t : tree) (leaf : Z) :
  reachable t ->
  (fst (insert leaf t) = Err TreeFull <-> nextIndex t = 2 ^ Z.of_nat TREE_DEPTH) /\
  (fst (insert leaf t) = Err TreeFull -> snd (insert leaf t) = t) /\
  (fst (insert leaf t) <> Err TreeFull ->
   fst (insert leaf t) = Ok (nextIndex t) /\
   leaves t !! nextIndex t = None /\
   leaves (snd (insert leaf t)) = <[nextIndex t := leaf]> (leaves t) /\
   nextIndex (snd (insert leaf t)) = nextIndex t + 1).
Proof.
  intros Hr. pose proof (wf_reachable t Hr) as Hwf.
  pose proof (wf_count _ Hwf) as Hcount. fold MAX_LEAVES.
  destruct (Z.le_gt_cases MAX_LEAVES (nextIndex t)) as [Hfull | Hroom].
  - rewrite insert_full by exact Hfull. cbn [fst snd].
    split; [split; [lia | reflexivity] |]. split; [reflexivity | congruence].
  - rewrite insert_room by exact Hroom. cbv zeta. cbn [fst snd leaves nextIndex].
    destruct (updatePath_loop_leaves TREE_DEPTH 0 (nextIndex t) leaf
                (setLeaf t (nextIndex t) leaf)) as [-> ->].
    split; [split; [discriminate | lia] |]. split; [discriminate |].
    intros _. split; [reflexivity |]. split; [| split; reflexivity].
    apply eq_None_not_Some. rewrite (wf_leaves _ Hwf). lia.
Qed.

(** C9: when [path] or [pathIndices] does not have [TREE_DEPTH] (20)
    entries, [verifyMerkleProof] returns [false], whatever the leaf, the
    index and the root, and evaluates no hash. *)
Theorem verifyMerkleProof_wrong_length (leaf index : Z) (path pathIndices : list Z)
    (root : Z) :
  length path <> TREE_DEPTH \/ length pathIndices <> TREE_DEPTH ->
  TREE_DEPTH = 20%nat /\
  verifyMerkleProof leaf index path pathIndices root = false /\
  snd (verifyMerkleProof_counted leaf index path pathIndices root) = 0%nat.
Proof.
  intros Hlen. split; [reflexivity |].
  unfold verifyMerkleProof, verifyMerkleProof_counted.
  destruct (Nat.eqb_spec (length path) TREE_DEPTH) as [Hp | Hp];
    destruct (Nat.eqb_spec (length pathIndices) TREE_DEPTH) as [Hi | Hi];
    cbn [negb orb fst snd]; try (split; reflexivity).
  destruct Hlen; contradiction.
Qed.

(** ** More on the tree *)

(** The root of the complete tree of height [l] over the leaves
    [2^l * j .. 2^l * (j + 1) - 1] of the array, where a slot that holds
    nothing counts as [getZeroValue]. *)
Fixpoint subtree_hash (ls : gmap Z Z) (l : nat) (j : Z) : Z :=
  match l with
  | O => default getZeroValue (ls !! j)
  | S l' => hashPair (subtree_hash ls l' (2 * j)) (subtree_hash ls l' (2 * j + 1))
  end.

Lemma node_at_subtree_hash (t : tree) :
  consistent t ->
  forall (l : nat) (j : Z),
    (l <= TREE_DEPTH)%nat -> 0 <= j -> node_at t l j = subtree_hash (leaves t) l j.
Proof.
  intros Hcons. induction l as [| l IH]; intros j Hl Hj; [reflexivity |].
  rewrite (Hcons l j ltac:(lia) Hj). cbn [subtree_hash].
  rewrite !IH by lia. reflexivity.
Qed.

Lemma subtree_hash_no_leaves (ls : gmap Z Z) :
  (forall j, ls !! j = None) ->
  forall (l : nat) (j : Z), subtree_hash ls l j = zero_hash l.
Proof.
  intros Hnone. induction l as [| l IH]; intros j; cbn [subtree_hash zero_hash].
  - rewrite Hnone. reflexivity.
  - rewrite !IH. reflexivity.
Qed.

Lemma halve_div (k : nat) : forall ci : Z, halve k ci = ci / 2 ^ Z.of_nat k.
Proof.
  induction k as [| k IH]; intros ci.
  - cbn [halve]. rewrite Z.pow_0_r, Z.div_1_r. reflexivity.
  - cbn [halve]. rewrite IH, Nat2Z.inj_succ, Z.pow_succ_r by lia.
    rewrite Z.div_div; [reflexivity | lia |]. apply Z.pow_pos_nonneg; lia.
Qed.

(** [updatePath] stores at the proper ancestors of the leaf and nowhere
    else. *)
Lemma updatePath_loop_other_nodes (fuel : nat) :
  forall (level : nat) (ci ch : Z) (t : tree) (l : nat) (j : Z),
    ~ (exists k : nat, (k < fuel)%nat /\ l = (level + S k)%nat /\ j = halve (S k) ci) ->
    nodes (updatePath_loop fuel level ci ch t) !! (l, j) = nodes t !! (l, j).
Proof.
  induction fuel as [| fuel IH]; intros level ci ch t l j Hnot; [reflexivity |].
  cbn [updatePath_loop]. cbv zeta.
  assert (Hstep : forall v,
             nodes (updatePath_loop fuel (S level) (ci / 2) v
                      (setNode t (level + 1) (ci / 2) v)) !! (l, j)
             = nodes t !! (l, j)).
  { intros v. rewrite IH.
    - unfold setNode. cbn [nodes]. apply lookup_insert_ne.
      intros Heq. injection Heq as <- <-. apply Hnot. exists 0%nat.
      split; [lia |]. split; [lia | reflexivity].
    - intros (k & Hk & -> & ->). apply Hnot. exists (S k).
      split; [lia |]. split; [lia | reflexivity]. }
  destruct (Z.rem ci 2 =? 1); apply Hstep.
Qed.

Lemma reconstruct_loop_bits (pathIndices : list Z) (fuel : nat) :
  forall (i : nat) (acc pow : Z),
    (i + fuel <= length pathIndices)%nat ->
    reconstruct_loop fuel i pathIndices acc pow
    = acc + pow * foldr (fun b v => b + 2 * v) 0 (take fuel (drop i pathIndices)).
Proof.
  induction fuel as [| fuel IH]; intros i acc pow Hlen.
  - cbn [reconstruct_loop]. rewrite take_0. cbn [foldr]. ring.
  - cbn [reconstruct_loop]. rewrite IH by lia.
    destruct (lookup_lt_is_Some_2 pathIndices i ltac:(lia)) as [b Hb].
    rewrite (drop_S pathIndices b i Hb). rewrite firstn_cons. cbn [foldr].
    unfold arr_get. rewrite Hb. cbn [default]. unfold id. ring.
Qed.

Lemma bits_bound (bits : list Z) :
  Forall (fun b => b = 0 \/ b = 1) bits ->
  0 <= foldr (fun b v => b + 2 * v) 0 bits < 2 ^ Z.of_nat (length bits).
Proof.
  induction 1 as [| b bits Hb _ IH]; cbn [foldr length].
  - cbn. lia.
  - rewrite Nat2Z.inj_succ, Z.pow_succ_r by lia. lia.
Qed.

Lemma climb_loop_calls (path pathIndices : list Z) (fuel : nat) :
  forall (i : nat) (h : Z) (calls : nat),
    snd (climb_loop fuel i path pathIndices h calls) = (calls + fuel)%nat.
Proof.
  induction fuel as [| fuel IH]; intros i h calls; cbn [climb_loop]; [cbn; lia |].
  destruct (arr_get pathIndices i =? 1); rewrite IH; lia.
Qed.

Lemma computeZeroHashes_loop_length (fuel : nat) :
  forall (i : nat) (zs : list Z),
    length (computeZeroHashes_loop fuel i zs) = length zs.
Proof.
  induction fuel as [| fuel IH]; intros i zs; cbn [computeZeroHashes_loop];
    [reflexivity | rewrite IH, length_insert; reflexivity].
Qed.

Lemma poseidon2_field (inputs : list Z) : is_field_element (poseidon2 inputs).
Proof. apply FieldFacts.fmod_range. Qed.

Lemma zero_hash_field (l : nat) : is_field_element (zero_hash l).
Proof. destruct l; apply poseidon2_field. Qed.

Lemma getRoot_subtree_hash (t : tree) :
  wf t -> getRoot t = subtree_hash (leaves t) TREE_DEPTH 0.
Proof.
  intros Hwf.
  destruct (Z.eq_dec (nextIndex t) 0) as [H0 | Hn].
  - unfold getRoot. rewrite H0. cbn [Z.eqb].
    rewrite ZERO_HASHES_lookup by lia. symmetry. apply subtree_hash_no_leaves.
    intros j. apply eq_None_not_Some. rewrite (wf_leaves _ Hwf). lia.
  - rewrite getRoot_node_at by exact Hn.
    apply node_at_subtree_hash; [apply (wf_consistent _ Hwf) | lia | lia].
Qed.


(** X17: [update] throws "Invalid index" exactly for a negative index or
    one at or beyond the leaf count, and then leaves the tree as it was;
    otherwise it replaces that one leaf, keeps every other leaf and the
    count; [delete] is [update] with [getZeroValue]. *)
Theorem update_spec (index newLeaf : Z) (t : tree) :
  (fst (update index newLeaf t) = Err InvalidIndex
   <-> index < 0 \/ nextIndex t <= index) /\
  (fst (update index newLeaf t) = Err InvalidIndex -> snd (update index newLeaf t) = t) /\
  (fst (update index newLeaf t) <> Err InvalidIndex ->
   fst (update index newLeaf t) = Ok tt /\
   leaves (snd (update index newLeaf t)) = <[index := newLeaf]> (leaves t) /\
   nextIndex (snd (update index newLeaf t)) = nextIndex t) /\
  delete index t = update index getZeroValue t.
Proof.
  destruct (Z.lt_ge_cases index 0) as [Hneg | Hpos];
    [| destruct (Z.le_gt_cases (nextIndex t) index) as [Hbig | Hin]].
  - rewrite update_invalid by lia. cbn [fst snd].
    split; [split; [lia | reflexivity] |]. split; [reflexivity |].
    split; [congruence | reflexivity].
  - rewrite update_invalid by lia. cbn [fst snd].
    split; [split; [lia | reflexivity] |]. split; [reflexivity |].
    split; [congruence | reflexivity].
  - rewrite update_valid by lia. cbn [fst snd].
    destruct (updatePath_loop_leaves TREE_DEPTH 0 index newLeaf
                (setLeaf t index newLeaf)) as [-> ->].
    split; [split; [discriminate | lia] |]. split; [discriminate |].
    split; [| reflexivity]. intros _. repeat split.
Qed.

(** X18: [getMerklePath] throws "Invalid index" exactly for a negative
    index or one at or beyond the leaf count; otherwise it returns
    [TREE_DEPTH] siblings and [TREE_DEPTH] direction bits, each bit 0 or
    1, and for an index below [2^TREE_DEPTH] the bits spell the index,
    lowest bit first. *)
Theorem getMerklePath_shape (index : Z) (t : tree) :
  (getMerklePath index t = Err InvalidIndex <-> index < 0 \/ nextIndex t <= index) /\
  (forall path pathIndices,
     getMerklePath index t = Ok (path, pathIndices) ->
     length path = TREE_DEPTH /\ length pathIndices = TREE_DEPTH /\
     Forall (fun b => b = 0 \/ b = 1) pathIndices /\
     (index < MAX_LEAVES ->
      foldr (fun b v => b + 2 * v) 0 pathIndices = index)).
Proof.
  unfold getMerklePath.
  destruct (Z.ltb_spec index 0) as [Hneg | Hpos];
    [| destruct (Z.leb_spec (nextIndex t) index) as [Hbig | Hin]]; cbn [orb].
  - split; [split; [lia | reflexivity] | discriminate].
  - split; [split; [lia | reflexivity] | discriminate].
  - split; [split; [discriminate | lia] |].
    intros path pathIndices Hok.
    pose proof (getMerklePath_is_path t index) as Hpath.
    generalize dependent (getMerklePath_loop TREE_DEPTH 0 index t [] []).
    intros r Hok Hpath. assert (r = (path, pathIndices)) as -> by congruence.
    cbn [fst snd] in Hpath. destruct Hpath as (Hl1 & Hl2 & Hk).
    split; [exact Hl1 |]. split; [exact Hl2 |]. split.
    + apply Forall_lookup_2. intros k b Hb.
      assert (Hlt : (k < TREE_DEPTH)%nat) by (rewrite <- Hl2; eapply lookup_lt_Some; eassumption).
      destruct (Hk k Hlt) as [_ Hbit]. unfold arr_get in Hbit. rewrite Hb in Hbit.
      cbn [default] in Hbit. unfold id in Hbit. rewrite Hbit. unfold bit_of.
      destruct (Z.rem (halve k index) 2 =? 1); auto.
    + intros Hcap.
      pose proof (reconstruct_loop_bits pathIndices TREE_DEPTH 0 0 1 ltac:(lia)) as Hbits.
      rewrite drop_0, take_ge in Hbits by lia.
      rewrite (reconstruct_loop_spec index) in Hbits
        by (try lia; intros k Hlt; apply Hk; lia).
      cbn [halve] in Hbits. fold MAX_LEAVES in Hbits.
      rewrite Z.mod_small in Hbits by lia. lia.
Qed.

(** X19: an [insert] below the capacity stores, among the internal
    nodes, only the [TREE_DEPTH] ancestors of the new leaf (the nodes
    [(l, index / 2^l)] for [l] from 1 to [TREE_DEPTH]); every other node,
    stored or not, is as before. *)
Theorem insert_touches_only_ancestors (leaf : Z) (t : tree) (l : nat) (j : Z) :
  nextIndex t < MAX_LEAVES ->
  ~ ((1 <= l <= TREE_DEPTH)%nat /\ j = nextIndex t / 2 ^ Z.of_nat l) ->
  getNode (snd (insert leaf t)) l j = getNode t l j.
Proof.
  intros Hroom Hnot. rewrite insert_room by exact Hroom. cbv zeta.
  unfold getNode. cbn [snd nodes].
  rewrite updatePath_loop_other_nodes; [reflexivity |].
  intros (k & Hk & -> & ->). apply Hnot. split; [lia |].
  rewrite halve_div. reflexivity.
Qed.

(** X20: [verifyMerkleProof] evaluates either no hash or exactly
    [TREE_DEPTH] of them; when it accepts, both lists have [TREE_DEPTH]
    entries, it evaluated [TREE_DEPTH] hashes, and [index] is the number
    that [pathIndices] spells, lowest entry first; if moreover every entry
    is 0 or 1, [index] lies in [[0, 2^TREE_DEPTH)]. *)
Theorem verifyMerkleProof_accepts_only (leaf index : Z) (path pathIndices : list Z)
    (root : Z) :
  (snd (verifyMerkleProof_counted leaf index path pathIndices root) = 0%nat \/
   snd (verifyMerkleProof_counted leaf index path pathIndices root) = TREE_DEPTH) /\
  (verifyMerkleProof leaf index path pathIndices root = true ->
   length path = TREE_DEPTH /\ length pathIndices = TREE_DEPTH /\
   snd (verifyMerkleProof_counted leaf index path pathIndices root) = TREE_DEPTH /\
   index = foldr (fun b v => b + 2 * v) 0 pathIndices /\
   (Forall (fun b => b = 0 \/ b = 1) pathIndices -> 0 <= index < MAX_LEAVES)).
Proof.
  unfold verifyMerkleProof, verifyMerkleProof_counted.
  destruct (Nat.eqb_spec (length path) TREE_DEPTH) as [Hp | Hp];
    [| cbn; split; [left; reflexivity | discriminate]].
  destruct (Nat.eqb_spec (length pathIndices) TREE_DEPTH) as [Hi | Hi];
    [| cbn; split; [left; reflexivity | discriminate]].
  cbn [negb orb].
  rewrite (reconstruct_loop_bits pathIndices TREE_DEPTH 0 0 1) by lia.
  rewrite drop_0, take_ge by lia.
  destruct (Z.eqb_spec (0 + 1 * foldr (fun b v => b + 2 * v) 0 pathIndices) index)
    as [Hidx | Hidx]; [| cbn; split; [left; reflexivity | discriminate]].
  cbn [negb].
  pose proof (climb_loop_calls path pathIndices TREE_DEPTH 0 leaf 0) as Hcalls.
  destruct (climb_loop TREE_DEPTH 0 path pathIndices leaf 0) as [h calls].
  cbn [fst snd] in *. split; [right; lia |].
  intros _. split; [exact Hp |]. split; [exact Hi |]. split; [lia |].
  split; [lia |]. intros Hbits.
  pose proof (bits_bound pathIndices Hbits) as Hb. rewrite Hi in Hb.
  fold MAX_LEAVES in Hb. lia.
Qed.

Lemma ZERO_HASHES_length : length ZERO_HASHES = S TREE_DEPTH.
Proof.
  unfold ZERO_HASHES, computeZeroHashes. cbv zeta.
  rewrite computeZeroHashes_loop_length, length_insert, length_replicate. lia.
Qed.

Lemma ZERO_HASHES_field : Forall is_field_element ZERO_HASHES.
Proof.
  apply Forall_lookup_2. intros k x Hk.
  assert (Hlt : (k <= TREE_DEPTH)%nat).
  { apply lookup_lt_Some in Hk. rewrite ZERO_HASHES_length in Hk. lia. }
  pose proof (ZERO_HASHES_lookup k Hlt) as Hz. clear Hlt.
  revert Hk Hz. generalize ZERO_HASHES. intros zs Hk Hz.
  unfold arr_get in Hz. rewrite Hk in Hz. cbn [default] in Hz. unfold id in Hz.
  rewrite Hz. apply zero_hash_field.
Qed.

Lemma getRoot_new_tree : getRoot new_tree = arr_get ZERO_HASHES TREE_DEPTH.
Proof. unfold getRoot, new_tree. cbn [nextIndex]. rewrite Z.eqb_refl. reflexivity. Qed.

(** X21: the table [ZERO_HASHES] has [TREE_DEPTH + 1] entries; entry 0 is
    [getZeroValue()], each further entry is [hashPair] of the one before
    with itself, every entry is canonical, and the root of a new tree is
    the last entry. *)
Theorem ZERO_HASHES_spec :
  length ZERO_HASHES = S TREE_DEPTH /\
  arr_get ZERO_HASHES 0 = getZeroValue /\
  (forall i, (i < TREE_DEPTH)%nat ->
     arr_get ZERO_HASHES (S i) = hashPair (arr_get ZERO_HASHES i) (arr_get ZERO_HASHES i)) /\
  Forall is_field_element ZERO_HASHES /\
  getRoot new_tree = arr_get ZERO_HASHES TREE_DEPTH.
Proof.
  split; [apply ZERO_HASHES_length |].
  split; [apply (ZERO_HASHES_lookup 0); lia |].
  split; [intros i Hi; rewrite !ZERO_HASHES_lookup by lia; reflexivity |].
  split; [apply ZERO_HASHES_field | apply getRoot_new_tree].
Qed.

(** ** How the operations compose *)


Lemma update_valid_fields (index newLeaf : Z) (t : tree) :
  0 <= index < nextIndex t ->
  leaves (snd (update index newLeaf t)) = <[index := newLeaf]> (leaves t) /\
  nextIndex (snd (update index newLeaf t)) = nextIndex t.
Proof.
  intros H. rewrite update_valid by exact H. cbn [snd].
  destruct (updatePath_loop_leaves TREE_DEPTH 0 index newLeaf
              (setLeaf t index newLeaf)) as [-> ->].
  split; reflexivity.
Qed.


(** X23: two updates at different populated indices commute: in either
    order they leave the same leaves, the same count and the same root. *)
Theorem updates_commute (i j a b : Z) (t : tree) :
  reachable t -> 0 <= i < nextIndex t -> 0 <= j < nextIndex t -> i <> j ->
  leaves (snd (update j b (snd (update i a t))))
  = leaves (snd (update i a (snd (update j b t)))) /\
  nextIndex (snd (update j b (snd (update i a t))))
  = nextIndex (snd (update i a (snd (update j b t)))) /\
  getRoot (snd (update j b (snd (update i a t))))
  = getRoot (snd (update i a (snd (update j b t)))).
Proof.
  intros Hr Hi Hj Hne. pose proof (wf_reachable t Hr) as Hwf.
  destruct (update_valid_fields i a t Hi) as [Hli Hni].
  destruct (update_valid_fields j b t Hj) as [Hlj Hnj].
  destruct (update_valid_fields j b (snd (update i a t))) as [Hlji Hnji]; [lia |].
  destruct (update_valid_fields i a (snd (update j b t))) as [Hlij Hnij]; [lia |].
  assert (Hleaves : leaves (snd (update j b (snd (update i a t))))
                    = leaves (snd (update i a (snd (update j b t))))).
  { rewrite Hlji, Hli, Hlij, Hlj. apply insert_insert_ne. congruence. }
  split; [exact Hleaves |]. split; [lia |].
  rewrite !getRoot_subtree_hash by (repeat apply wf_update; exact Hwf).
  rewrite Hleaves. reflexivity.
Qed.

Lemma map_fmod_Forall2_congr (inputs inputs' : list Z) :
  Forall2 FieldFacts.congr inputs inputs' -> map fmod inputs = map fmod inputs'.
Proof.
  induction 1 as [| x y l l' Hxy _ IH]; [reflexivity |].
  cbn [map]. f_equal; [apply FieldFacts.fmod_eq_iff, Hxy | exact IH].
Qed.

(** X24: the hash wrapper returns a canonical field element and looks at
    its inputs only modulo the field prime: inputs that are congruent
    entry by entry hash alike, so a secret and the same secret plus the
    prime have the same leaf. *)
Theorem poseidon2_normalises (inputs inputs' : list Z) (secret : Z) :
  is_field_element (poseidon2 inputs) /\
  (Forall2 FieldFacts.congr inputs inputs' -> poseidon2 inputs = poseidon2 inputs') /\
  hashLeaf (secret + bn_254_fp) = hashLeaf secret.
Proof.
  split; [apply poseidon2_field |]. split.
  - intros Hc. unfold poseidon2. cbv zeta.
    rewrite (map_fmod_Forall2_congr _ _ Hc). reflexivity.
  - unfold hashLeaf, poseidon2. cbv zeta. cbn [map].
    replace (fmod (secret + bn_254_fp)) with (fmod secret); [reflexivity |].
    apply FieldFacts.fmod_eq_iff. unfold eqm.
    rewrite <- (Z.mul_1_l bn_254_fp) at 2. symmetry. apply Z_mod_plus_full.
Qed.

End WithHash.

End IMT.

Module IMTTests.
Import Field IMT.

(** A stand-in for the hash, to run the tree on. *)
Definition toy_hash (inputs : list Z) : Z :=
  foldl (fun acc x => acc * 1000003 + x + 17) 7919 inputs.

Definition three_leaves : tree :=
  insert_all toy_hash (map (hashLeaf toy_hash) [123; 456; 789]) (new_tree).

Example three_leaves_verify :
  forallb (fun '(i, secret) =>
    match getMerklePath toy_hash i three_leaves with
    | Ok (path, pathIndices) =>
        verifyMerkleProof toy_hash (hashLeaf toy_hash secret) i path pathIndices
          (getRoot toy_hash three_leaves)
    | Err _ => false
    end) [(0, 123); (1, 456); (2, 789)] = true.
Proof. vm_compute. reflexivity. Qed.

Example fake_leaf_rejected :
  match getMerklePath toy_hash 0 three_leaves with
  | Ok (path, pathIndices) =>
      verifyMerkleProof toy_hash (hashLeaf toy_hash 999) 0 path pathIndices
        (getRoot toy_hash three_leaves)
  | Err _ => true
  end = false.
Proof. vm_compute. reflexivity. Qed.

Example path_of_leaf_2 :
  (fun '(path, pathIndices) => (take 2 path, take 3 pathIndices))
    <$> match getMerklePath toy_hash 2 three_leaves with Ok r => Some r | Err _ => None end
  = Some ([getZeroValue toy_hash;
           hashPair toy_hash (hashLeaf toy_hash 123) (hashLeaf toy_hash 456)],
          [0; 1; 0]).
Proof. vm_compute. reflexivity. Qed.

(** ** The claims at concrete inputs *)

Lemma merkle_round_trip_witness :
  exists path pathIndices : list Z,
    getMerklePath toy_hash (Z.of_nat 2) (insert_all toy_hash [11; 22; 33] new_tree)
    = Ok (path, pathIndices) /\
    verifyMerkleProof toy_hash 33 (Z.of_nat 2) path pathIndices
      (getRoot toy_hash (insert_all toy_hash [11; 22; 33] new_tree)) = true.
Proof.
  apply (merkle_round_trip toy_hash [11; 22; 33] 2 33).
  - vm_compute. discriminate.
  - reflexivity.
Defined.

(** C5, as stated, fails for a tree whose single member has the secret
    [0]: it holds one leaf, and its root is [ZERO_HASHES[TREE_DEPTH]]. *)
Lemma root_iff_fails_with_zero_member :
  reachable toy_hash (snd (insertMember toy_hash 0 new_tree)) /\
  nextIndex (snd (insertMember toy_hash 0 new_tree)) = 1 /\
  getRoot toy_hash (snd (insertMember toy_hash 0 new_tree))
  = arr_get (ZERO_HASHES toy_hash) TREE_DEPTH /\
  ~ (getRoot toy_hash (snd (insertMember toy_hash 0 new_tree))
     = arr_get (ZERO_HASHES toy_hash) TREE_DEPTH
     <-> nextIndex (snd (insertMember toy_hash 0 new_tree)) = 0).
Proof.
  split; [apply reachable_insert, reachable_new |].
  split; [vm_compute; reflexivity |].
  split; [vm_compute; reflexivity |].
  intros [Hiff _].
  assert (H : nextIndex (snd (insertMember toy_hash 0 new_tree)) = 0)
    by (apply Hiff; vm_compute; reflexivity).
  vm_compute in H. discriminate.
Qed.

(** The same after an insertion followed by the deletion of the leaf. *)
Example root_after_insert_delete :
  let t := snd (delete toy_hash 0 (snd (insert toy_hash 42 new_tree))) in
  nextIndex t = 1 /\ getRoot toy_hash t = arr_get (ZERO_HASHES toy_hash) TREE_DEPTH.
Proof. vm_compute. split; reflexivity. Qed.

Lemma getRoot_of_reachable_witness :
  (nextIndex (snd (insert toy_hash 42 new_tree)) = 0 ->
   getRoot toy_hash (snd (insert toy_hash 42 new_tree))
   = arr_get (ZERO_HASHES toy_hash) TREE_DEPTH) /\
  (nextIndex (snd (insert toy_hash 42 new_tree)) <> 0 ->
   exists v : Z,
     getNode (snd (insert toy_hash 42 new_tree)) TREE_DEPTH 0 = Some v /\
     getRoot toy_hash (snd (insert toy_hash 42 new_tree)) = v).
Proof.
  apply (getRoot_of_reachable toy_hash (snd (insert toy_hash 42 new_tree))).
  apply reachable_insert, reachable_new.
Defined.

Lemma insert_full_or_appends_witness :
  (fst (insert toy_hash 42 new_tree) = Err TreeFull
   <-> nextIndex new_tree = 2 ^ Z.of_nat TREE_DEPTH) /\
  (fst (insert toy_hash 42 new_tree) = Err TreeFull ->
   snd (insert toy_hash 42 new_tree) = new_tree) /\
  (fst (insert toy_hash 42 new_tree) <> Err TreeFull ->
   fst (insert toy_hash 42 new_tree) = Ok (nextIndex new_tree) /\
   leaves new_tree !! nextIndex new_tree = None /\
   leaves (snd (insert toy_hash 42 new_tree)) = <[nextIndex new_tree := 42]> (leaves new_tree) /\
   nextIndex (snd (insert toy_hash 42 new_tree)) = nextIndex new_tree + 1).
Proof.
  apply (insert_full_or_appends toy_hash new_tree 42).
  apply reachable_new.
Defined.

(** A full tree is too large to build here; on a tree whose count has
    reached the capacity, [insert] throws and changes nothing. *)
Example insert_into_full :
  let t := mkTree ∅ ∅ (2 ^ 20) in
  insert toy_hash 42 t = (Err TreeFull, t).
Proof. vm_compute. reflexivity. Qed.

Lemma verifyMerkleProof_wrong_length_witness :
  TREE_DEPTH = 20%nat /\
  verifyMerkleProof toy_hash 1 0 [5; 6] [0; 0] 7 = false /\
  snd (verifyMerkleProof_counted toy_hash 1 0 [5; 6] [0; 0] 7) = 0%nat.
Proof.
  apply (verifyMerkleProof_wrong_length toy_hash 1 0 [5; 6] [0; 0] 7).
  left. vm_compute. discriminate.
Defined.

End IMTTests.

(* ===================================================================== *)
(** * Batch manager, on the store                                         *)
(* ===================================================================== *)

Module BatchStore.
Import Field Poly Store Batch.

(** The object that [addSecretsToBatches] returns: three references. *)
Record handles : Type := mkHandles {
  h_batches : loc;
  h_batchRoots : loc;
  h_userMap : loc;
}.

(** [arr.push(x)] on a [bigint[]]. *)
Definition push_big (arr : loc) (x : Z) : M unit :=
  xs ← read_big arr; write arr (BigArr (xs ++ [x])).

(** [arr.push(l)] on an array of arrays. *)
Definition push_ref (arr : loc) (l : loc) : M unit :=
  rs ← read_refs arr; write arr (RefArr (rs ++ [l])).

(** [arr[i]], handed to a callee that reads its [length]: [undefined]
    makes that callee throw. *)
Definition get_ref (arr : loc) (i : nat) : M loc :=
  rs ← read_refs arr;
  match rs !! i with
  | Some l => mret l
  | None => throw
  end.

(** [arr[i] = l], for a slot that a read has just found inside [arr]. *)
Definition set_ref (arr : loc) (i : nat) (l : loc) : M unit :=
  rs ← read_refs arr; write arr (RefArr (<[i := l]> rs)).

(** [map.set(key, value)] *)
Definition map_set (map : loc) (key : string) (value : nat) : M unit :=
  m ← read_map map; write map (StrMap (<[key := value]> m)).

(** [[...r]]: a new array with the elements of [r]. *)
Definition copy_big (r : loc) : M loc :=
  xs ← read_big r; alloc (BigArr xs).

(** [batchRoots.map((r) => [...r])], element by element. *)
Fixpoint copy_each (rs : list loc) : M (list loc) :=
  match rs with
  | [] => mret []
  | r :: rs' =>
      c ← copy_big r;
      cs ← copy_each rs';
      mret (c :: cs)
  end.

(** The first-fit [for], from index [i] on; [rest] holds the references
    [currentRoots[i]], [currentRoots[i + 1]], ...  The result is
    [inserted]. *)
Fixpoint scan_st (currentBatches userMap : loc) (secret : Z)
    (rest : list loc) (i : nat) : M bool :=
  match rest with
  | [] => mret false
  | r :: rest' =>
      roots ← read_big r;
      if (length roots <? MAX_POLY_DEGREE)%nat then
        push_big r secret;;
        b ← get_ref currentBatches i;
        b' ← addRoot_st b secret;
        set_ref currentBatches i b';;
        map_set userMap (pretty secret) i;;
        mret true
      else scan_st currentBatches userMap secret rest' (S i)
  end.

(** Body of [for (const secret of newSecrets)]. *)
Definition place_st (currentBatches currentRoots userMap : loc) (secret : Z)
    : M unit :=
  rs ← read_refs currentRoots;
  inserted ← scan_st currentBatches userMap secret rs 0;
  if inserted : bool then mret tt
  else
    newBatchRoots ← alloc (BigArr [secret]);
    one ← alloc (BigArr [1]);
    newBatchPoly ← addRoot_st one secret;
    push_ref currentRoots newBatchRoots;;
    push_ref currentBatches newBatchPoly;;
    rs ← read_refs currentRoots;
    map_set userMap (pretty secret) (length rs - 1)%nat.

Fixpoint place_all_st (currentBatches currentRoots userMap : loc)
    (newSecrets : list Z) : M unit :=
  match newSecrets with
  | [] => mret tt
  | secret :: newSecrets' =>
      place_st currentBatches currentRoots userMap secret;;
      place_all_st currentBatches currentRoots userMap newSecrets'
  end.

(** [addSecretsToBatches(batches, batchRoots, userMap, newSecrets)], all
    four arguments given.  [newSecrets] is only iterated, so it is taken
    by its elements. *)
Definition addSecretsToBatches_st (batches batchRoots userMap : loc)
    (newSecrets : list Z) : M handles :=
  bs ← read_refs batches;
  currentBatches ← alloc (RefArr bs);
  rs ← read_refs batchRoots;
  copies ← copy_each rs;
  currentRoots ← alloc (RefArr copies);
  place_all_st currentBatches currentRoots userMap newSecrets;;
  mret (mkHandles currentBatches currentRoots userMap).

(** The entries that a run of [set] calls leaves in a map. *)
Definition sets (m : gmap string nat) (entries : list (Z * nat)) : gmap string nat :=
  foldl (fun m e => <[pretty (fst e) := snd e]> m) m entries.

End BatchStore.

Module BatchStoreTests.
Import Field Poly Store Batch BatchStore.

(** One batch [(x - 7)] with the root list [[7]], and an empty [Map]. *)
Definition one_batch : store :=
  <[5%positive := StrMap ∅]>
  (<[4%positive := RefArr [3%positive]]>
  (<[3%positive := BigArr [7]]>
  (<[2%positive := RefArr [1%positive]]>
  (<[1%positive := BigArr (addRoot [1] 7)]> ∅)))).

Example add_9_to_one_batch :
  let '(out, σ') := addSecretsToBatches_st 2%positive 4%positive 5%positive [9] one_batch in
  (* the arguments *)
  σ' !! 2%positive = Some (RefArr [1%positive]) /\
  σ' !! 1%positive = Some (BigArr (addRoot [1] 7)) /\
  σ' !! 4%positive = Some (RefArr [3%positive]) /\
  σ' !! 3%positive = Some (BigArr [7]) /\
  σ' !! 5%positive = Some (StrMap {[ "9" := 0%nat ]}) /\
  (* the result *)
  match out with
  | Done h =>
      h_userMap h = 5%positive /\
      one_batch !! h_batches h = None /\ one_batch !! h_batchRoots h = None /\
      (exists b c, σ' !! h_batches h = Some (RefArr [b]) /\
                   σ' !! b = Some (BigArr (addRoot (addRoot [1] 7) 9)) /\
                   σ' !! h_batchRoots h = Some (RefArr [c]) /\
                   σ' !! c = Some (BigArr [7; 9]) /\ one_batch !! c = None)
  | Thrown => False
  end.
Proof.
  vm_compute. repeat split. eexists _, _. repeat split.
Qed.

End BatchStoreTests.

(* ===================================================================== *)
(** * More on the polynomial operations                                   *)
(* ===================================================================== *)

Module PolyExtras.
Import Field Poly FieldFacts PolyFacts.

(** ** Shape of the results *)

Lemma zero_field_element : is_field_element 0.
Proof. split; [lia | apply bn_254_fp_pos]. Qed.

Lemma one_field_element : is_field_element 1.
Proof. split; [lia | reflexivity]. Qed.

Lemma shift_scale_field (r : Z) (P : list Z) :
  forall prev : Z,
    is_field_element prev -> Forall is_field_element (shift_scale r prev P).
Proof.
  induction P as [| c P IH]; intros prev Hprev; cbn [shift_scale].
  - constructor; [exact Hprev | constructor].
  - constructor; [apply fmod_range | apply IH, fmod_range].
Qed.

Lemma addRoot_field (P : list Z) (r : Z) : Forall is_field_element (addRoot P r).
Proof. rewrite addRoot_closed. apply shift_scale_field, zero_field_element. Qed.

Lemma last_shift_scale (r : Z) (P : list Z) :
  forall prev : Z,
    last (shift_scale r prev P)
    = Some (match last P with Some c => fmod (0 + c) | None => prev end).
Proof.
  induction P as [| c P IH]; intros prev; [reflexivity |].
  cbn [shift_scale]. rewrite last_cons, IH, last_cons.
  destruct (last P); reflexivity.
Qed.

Lemma addRoots_snoc (roots : list Z) (r : Z) :
  addRoots (roots ++ [r]) = addRoot (addRoots roots) r.
Proof. unfold addRoots. rewrite foldl_app. reflexivity. Qed.

Lemma interpolatePolynomial_addRoots (roots : list Z) :
  interpolatePolynomial roots = addRoots roots.
Proof. unfold interpolatePolynomial, addRoots. apply interpolatePolynomial_foldl. Qed.

Lemma addRoots_shape (roots : list Z) :
  length (addRoots roots) = S (length roots) /\
  last (addRoots roots) = Some 1 /\
  Forall is_field_element (addRoots roots).
Proof.
  induction roots as [| r roots IH] using rev_ind.
  - split; [reflexivity |]. split; [reflexivity |].
    constructor; [apply one_field_element | constructor].
  - destruct IH as (Hlen & Hlast & _). rewrite addRoots_snoc.
    split; [rewrite length_addRoot, Hlen, length_app; simpl; lia |].
    split; [| apply addRoot_field].
    rewrite addRoot_closed, last_shift_scale, Hlast. reflexivity.
Qed.

(** ** Values *)

Lemma evaluate_addRoot_mul (P : list Z) (r x : Z) :
  evaluate (addRoot P r) x = fmod ((x - r) * evaluate P x).
Proof.
  rewrite !evaluate_peval. apply fmod_eq_iff.
  rewrite peval_addRoot, fmod_congr. reflexivity.
Qed.

Lemma peval_map_fmod (P : list Z) (x : Z) : congr (peval (map fmod P) x) (peval P x).
Proof.
  induction P as [| c P IH]; [reflexivity |].
  cbn [map peval]. rewrite IH, fmod_congr. reflexivity.
Qed.

Lemma evaluate_map_fmod (P : list Z) (x : Z) : evaluate (map fmod P) x = evaluate P x.
Proof. rewrite !evaluate_peval. apply fmod_eq_iff, peval_map_fmod. Qed.

(** ** [removeRoot], read backwards *)

Lemma synth_field (r : Z) (l : list Z) : Forall is_field_element (synth r l).
Proof.
  induction l as [| q l IH]; cbn [synth]; constructor; [apply fmod_range | exact IH].
Qed.

(** Multiplying the quotient back gives the dividend, with the remainder in
    front. *)
Lemma shift_scale_synth (r : Z) (l : list Z) :
  forall q : Z,
    shift_scale r (fmod (q + carry_in r l)) (synth r l) = map fmod (q :: l).
Proof.
  induction l as [| q' l IH]; intros q.
  - cbn. rewrite Z.add_0_r. reflexivity.
  - cbn [synth shift_scale map]. f_equal.
    + apply fmod_eq_iff. cbn [carry_in]. rewrite !fmod_congr.
      apply congr_of_eq. ring.
    + change (0 + fmod (q' + carry_in r l)) with (fmod (q' + carry_in r l)).
      rewrite fmod_idem. apply (IH q').
Qed.

Lemma removeRoot_Quotient_inv (P Q : list Z) (r : Z) :
  removeRoot P r = Quotient Q ->
  (2 <= length P)%nat /\ Q = tail (synth r P) /\ hd 0 (synth r P) = 0.
Proof.
  intros Hrm.
  destruct (Nat.le_gt_cases 2 (length P)) as [Hlen | Hlen].
  - split; [exact Hlen |]. rewrite removeRoot_closed in Hrm by exact Hlen.
    destruct (Z.eqb_spec (hd 0 (synth r P)) 0) as [H0 | H0]; [| discriminate].
    injection Hrm as <-. split; [reflexivity | exact H0].
  - rewrite removeRoot_too_short in Hrm by lia. discriminate.
Qed.

Lemma addRoot_quotient (P Q : list Z) (r : Z) :
  removeRoot P r = Quotient Q -> addRoot Q r = map fmod P.
Proof.
  intros Hrm. destruct (removeRoot_Quotient_inv P Q r Hrm) as (Hlen & -> & H0).
  destruct P as [| q l]; [simpl in Hlen; lia |].
  cbn [synth hd tail] in *. rewrite addRoot_closed, <- H0.
  apply shift_scale_synth.
Qed.

(** ** The order of the roots does not matter *)

(** Multiplication by [(x - r)] over the integers, shaped as the loop of
    [addRoot]. *)
Fixpoint mul_lin (r prev : Z) (P : list Z) : list Z :=
  match P with
  | [] => [prev]
  | c :: P' => (prev - c * r) :: mul_lin r c P'
  end.

Lemma shift_scale_mul_lin (r : Z) (P P' : list Z) :
  Forall2 congr P P' ->
  forall a a' : Z, congr a a' ->
    Forall2 congr (shift_scale r a P) (mul_lin r a' P').
Proof.
  induction 1 as [| c c' P P' Hc _ IH]; intros a a' Ha.
  - constructor; [exact Ha | constructor].
  - cbn [shift_scale mul_lin]. constructor.
    + rewrite !fmod_congr, Ha, Hc. reflexivity.
    + apply IH. rewrite fmod_congr. exact Hc.
Qed.

Lemma mul_lin_swap (a b : Z) (P : list Z) :
  forall u c : Z,
    mul_lin a (u - c * b) (mul_lin b c P) = mul_lin b (u - c * a) (mul_lin a c P).
Proof.
  induction P as [| c' P IH]; intros u c.
  - cbn. f_equal. ring.
  - cbn [mul_lin]. f_equal; [ring | apply IH].
Qed.

Lemma mul_lin_comm (a b : Z) (P : list Z) :
  mul_lin a 0 (mul_lin b 0 P) = mul_lin b 0 (mul_lin a 0 P).
Proof.
  destruct P as [| c P]; [reflexivity |].
  cbn [mul_lin]. f_equal; [ring |]. apply (mul_lin_swap a b P 0 c).
Qed.

Lemma Forall2_congr_refl (P : list Z) : Forall2 congr P P.
Proof. induction P; constructor; [reflexivity | assumption]. Qed.

Lemma Forall2_congr_eq (l1 l2 : list Z) :
  Forall2 congr l1 l2 ->
  Forall is_field_element l1 -> Forall is_field_element l2 -> l1 = l2.
Proof.
  induction 1 as [| x y l1 l2 Hxy _ IH]; intros H1 H2; [reflexivity |].
  apply Forall_cons in H1. destruct H1 as [Hx H1].
  apply Forall_cons in H2. destruct H2 as [Hy H2].
  f_equal; [| apply IH; assumption].
  rewrite <- (fmod_field_element x Hx), <- (fmod_field_element y Hy).
  apply fmod_eq_iff, Hxy.
Qed.

Lemma addRoot_mul_lin2 (P : list Z) (a b : Z) :
  Forall2 congr (addRoot (addRoot P b) a) (mul_lin a 0 (mul_lin b 0 P)).
Proof.
  rewrite !addRoot_closed.
  apply shift_scale_mul_lin; [| reflexivity].
  apply shift_scale_mul_lin; [apply Forall2_congr_refl | reflexivity].
Qed.

Lemma addRoot_comm (P : list Z) (a b : Z) :
  addRoot (addRoot P b) a = addRoot (addRoot P a) b.
Proof.
  apply Forall2_congr_eq; try apply addRoot_field.
  pose proof (addRoot_mul_lin2 P a b) as H1.
  pose proof (addRoot_mul_lin2 P b a) as H2.
  rewrite mul_lin_comm in H2.
  revert H1 H2.
  generalize (addRoot (addRoot P b) a), (addRoot (addRoot P a) b),
             (mul_lin a 0 (mul_lin b 0 P)).
  intros l1 l2 l3 H1. revert l2.
  induction H1 as [| x z l1 l3 Hxz _ IH]; intros l2 H2; inversion H2; subst.
  - constructor.
  - constructor; [| apply IH; assumption].
    etransitivity; [exact Hxz | symmetry; assumption].
Qed.

Lemma foldl_addRoot_Permutation (roots roots' : list Z) :
  Permutation roots roots' ->
  forall Q : list Z, foldl addRoot Q roots = foldl addRoot Q roots'.
Proof.
  induction 1 as [| r roots roots' _ IH | r1 r2 roots | roots1 roots2 roots3 _ IH1 _ IH2];
    intros Q; cbn [foldl].
  - reflexivity.
  - apply IH.
  - rewrite addRoot_comm. reflexivity.
  - rewrite IH1. apply IH2.
Qed.

(** ** The properties *)

(** X1: [addRoot] never fails, returns one coefficient more than it was
    given, and every coefficient it returns is canonical, whatever the
    inputs. *)
Theorem addRoot_shape (P : list Z) (r : Z) :
  length (addRoot P r) = S (length P) /\ Forall is_field_element (addRoot P r).
Proof. split; [apply length_addRoot | apply addRoot_field]. Qed.

(** X2: [addRoot(P, r)] multiplies the value at every point [x] by
    [(x - r)] in the field: [r] becomes a root and every root of [P] stays
    one. *)
Theorem addRoot_values (P : list Z) (r x : Z) :
  evaluate (addRoot P r) x = fmod ((x - r) * evaluate P x) /\
  verifyPolynomial (addRoot P r) r = true /\
  (verifyPolynomial P x = true -> verifyPolynomial (addRoot P r) x = true).
Proof.
  split; [apply evaluate_addRoot_mul |]. unfold verifyPolynomial. split.
  - rewrite evaluate_addRoot_mul, Z.sub_diag. reflexivity.
  - rewrite !Z.eqb_eq, evaluate_addRoot_mul. intros ->.
    rewrite Z.mul_0_r. reflexivity.
Qed.

(** X3: [interpolatePolynomial(roots)] has one coefficient more than
    there are roots, is monic (its last coefficient is 1), and is
    canonical. *)
Theorem interpolatePolynomial_monic (roots : list Z) :
  length (interpolatePolynomial roots) = S (length roots) /\
  last (interpolatePolynomial roots) = Some 1 /\
  Forall is_field_element (interpolatePolynomial roots).
Proof. rewrite interpolatePolynomial_addRoots. apply addRoots_shape. Qed.


(** X5: when [removeRoot(P, r)] returns a quotient [Q], [Q] has one
    coefficient less than [P], is canonical, [addRoot(Q, r)] gives back
    [P] reduced coefficient by coefficient, and the value of [P] at any
    [x] is [(x - r)] times the value of [Q] in the field. *)
Theorem removeRoot_divides (P Q : list Z) (r : Z) :
  removeRoot P r = Quotient Q ->
  S (length Q) = length P /\
  Forall is_field_element Q /\
  addRoot Q r = map fmod P /\
  forall x : Z, evaluate P x = fmod ((x - r) * evaluate Q x).
Proof.
  intros Hrm. pose proof (addRoot_quotient P Q r Hrm) as Hback.
  destruct (removeRoot_Quotient_inv P Q r Hrm) as (Hlen & HQ & _).
  split; [| split; [| split; [exact Hback |]]].
  - rewrite HQ, length_tl, length_synth. lia.
  - rewrite HQ. pose proof (synth_field r P) as Hf.
    destruct (synth r P); [constructor |].
    apply Forall_cons in Hf. apply Hf.
  - intros x. rewrite <- evaluate_addRoot_mul, Hback. symmetry.
    apply evaluate_map_fmod.
Qed.

Lemma removeRoot_divides_witness :
  S (length [bn_254_fp - 1; 1]) = length [2; bn_254_fp - 3; 1] /\
  Forall is_field_element [bn_254_fp - 1; 1] /\
  addRoot [bn_254_fp - 1; 1] 2 = map fmod [2; bn_254_fp - 3; 1] /\
  forall x : Z, evaluate [2; bn_254_fp - 3; 1] x = fmod ((x - 2) * evaluate [bn_254_fp - 1; 1] x).
Proof.
  apply (removeRoot_divides [2; bn_254_fp - 3; 1] [bn_254_fp - 1; 1] 2).
  vm_compute. reflexivity.
Defined.

(** X6: the polynomial does not depend on the order in which the roots
    are given: permuted root lists interpolate to the same coefficients. *)
Theorem interpolatePolynomial_Permutation (roots roots' : list Z) :
  Permutation roots roots' ->
  interpolatePolynomial roots = interpolatePolynomial roots'.
Proof.
  intros Hperm. rewrite !interpolatePolynomial_addRoots.
  apply foldl_addRoot_Permutation, Hperm.
Qed.

Lemma interpolatePolynomial_Permutation_witness :
  interpolatePolynomial [1; 2; 3] = interpolatePolynomial [3; 1; 2].
Proof.
  apply (interpolatePolynomial_Permutation [1; 2; 3] [3; 1; 2]).
  symmetry. apply (Permutation_cons_append [1; 2] 3).
Defined.

End PolyExtras.

(* ===================================================================== *)
(** * Test data generator (polynomial/utils/test_data_generator.js)       *)
(* ===================================================================== *)

(** The generator has its own interpolation and evaluation, written with
    the truncating [%] and canonicalised only at the end.  The padding
    loop is also the one of [generateProverToml] in
    benchmark_poly_helper.js. *)

Module PolyGenerator.
Import Field Poly.

Definition FIELD_PRIME : Z := bn_254_fp.

(** [toPositiveField(value)] *)
Definition toPositiveField (value : Z) : Z :=
  let r := Z.rem value FIELD_PRIME in
  if 0 <=? r then r else r + FIELD_PRIME.

(** Body of the inner [for] of the generator's [interpolatePolynomial]:
    the constant term first, then the shifted one. *)
Definition interpolate_inner (polynomial : list Z) (root : Z)
    (newPoly : list Z) (i : nat) : list Z :=
  let newPoly :=
    <[i := Z.rem (arr_get newPoly i - arr_get polynomial i * root) FIELD_PRIME]> newPoly in
  <[S i := Z.rem (arr_get newPoly (S i) + arr_get polynomial i) FIELD_PRIME]> newPoly.

Definition interpolate_outer (polynomial : list Z) (root : Z) : list Z :=
  let newPoly := replicate (length polynomial + 1) 0 in
  foldl (interpolate_inner polynomial root) newPoly (seq 0 (length polynomial)).

Definition interpolatePolynomial (roots : list Z) : list Z :=
  let polynomial := foldl interpolate_outer [1] roots in
  map toPositiveField polynomial.

(** Body of the [for] of [testPolynomialEvaluation], on the locals
    [(result, xPower)]. *)
Definition testPolynomialEvaluation_body (polynomial : list Z) (secret : Z)
    (st : Z * Z) (i : nat) : Z * Z :=
  let '(result, xPower) := st in
  (Z.rem (result + arr_get polynomial i * xPower) FIELD_PRIME,
   Z.rem (xPower * secret) FIELD_PRIME).

Definition testPolynomialEvaluation (polynomial : list Z) (secret : Z) : Z :=
  fst (foldl (testPolynomialEvaluation_body polynomial secret) (0, 1)
         (seq 0 (length polynomial))).

(** [while (paddedPolynomial.length <= MAX_POLY_DEGREE)
       paddedPolynomial.push(0n)], for at most [fuel] iterations. *)
Fixpoint pad_loop (fuel : nat) (paddedPolynomial : list Z) : list Z :=
  match fuel with
  | O => paddedPolynomial
  | S fuel' =>
      if (length paddedPolynomial <=? MAX_POLY_DEGREE)%nat
      then pad_loop fuel' (paddedPolynomial ++ [0])
      else paddedPolynomial
  end.

(** [const paddedPolynomial = [...polynomial]; while ...]: the loop runs
    at most [MAX_POLY_DEGREE + 1] times. *)
Definition pad (polynomial : list Z) : list Z :=
  pad_loop (S MAX_POLY_DEGREE) polynomial.

(** Steps 2 and 3 of [generateTestData]: the polynomial handed to the
    circuit. *)
Definition validatedPolynomial (testRoots : list Z) : list Z :=
  let polynomial := interpolatePolynomial testRoots in
  let paddedPolynomial := pad polynomial in
  map toPositiveField paddedPolynomial.

(** [testData.polynomial.every((coeff) => coeff < FIELD_PRIME && coeff >= 0n)] *)
Definition allInField (polynomial : list Z) : bool :=
  forallb (fun coeff => (coeff <? FIELD_PRIME) && (0 <=? coeff)) polynomial.

End PolyGenerator.

Module PolyGeneratorTests.
Import Field Poly PolyGenerator.

Example generator_interpolate_1_2_3 :
  PolyGenerator.interpolatePolynomial [1; 2; 3]
  = [bn_254_fp - 6; 11; bn_254_fp - 6; 1].
Proof. vm_compute. reflexivity. Qed.

(** Before the final [map], the coefficients carry the sign of the
    truncated remainders. *)
Example generator_raw_1_2_3 :
  foldl interpolate_outer [1] [1; 2; 3] = [-6; 11; -6; 1].
Proof. vm_compute. reflexivity. Qed.

Example generator_evaluation :
  testPolynomialEvaluation [-6; 11; -6; 1] 2 = 0 /\
  testPolynomialEvaluation [-6; 11; -6; 1] 4 = 6 /\
  testPolynomialEvaluation [6; -11; 6; -1] 4 = -6.
Proof. vm_compute. repeat split. Qed.

Example pad_lengths :
  map (fun n => length (pad (replicate n 1))) [0; 4; 128; 129; 130]%nat
  = [129; 129; 129; 129; 130]%nat.
Proof. vm_compute. reflexivity. Qed.

End PolyGeneratorTests.

Module PolyGeneratorFacts.
Import Field Poly FieldFacts PolyFacts PolyExtras PolyGenerator.

Lemma toPositiveField_fmod (value : Z) : toPositiveField value = fmod value.
Proof. reflexivity. Qed.

(** The truncating remainder stays in the class of its argument, strictly
    between [-p] and [p]. *)
Lemma rem_congr (x : Z) : congr (Z.rem x FIELD_PRIME) x.
Proof.
  unfold eqm, FIELD_PRIME. pose proof (Z.quot_rem' x bn_254_fp) as Hqr.
  rewrite Hqr at 2. rewrite Z.add_comm, Z.mul_comm. symmetry. apply Z_mod_plus_full.
Qed.

Lemma rem_abs (x : Z) : Z.abs (Z.rem x FIELD_PRIME) < FIELD_PRIME.
Proof.
  pose proof (Z.rem_bound_abs x FIELD_PRIME) as H. pose proof bn_254_fp_pos.
  unfold FIELD_PRIME in *. rewrite (Z.abs_eq bn_254_fp) in H by lia. apply H. lia.
Qed.

Lemma small_congr_zero (y : Z) : Z.abs y < FIELD_PRIME -> congr y 0 -> y = 0.
Proof.
  unfold FIELD_PRIME. intros Habs Hc. unfold eqm in Hc. rewrite Z.mod_0_l in Hc by (pose proof bn_254_fp_pos; lia).
  apply Z.mod_divide in Hc; [| pose proof bn_254_fp_pos; lia].
  destruct Hc as [k Hk]. pose proof bn_254_fp_pos. apply Z.abs_lt in Habs.
  assert (k = 0) by nia. subst k. lia.
Qed.

(** ** The generator's interpolation *)

Fixpoint shift_scale_rem (r prev : Z) (P : list Z) : list Z :=
  match P with
  | [] => [prev]
  | c :: P' => Z.rem (prev - c * r) FIELD_PRIME :: shift_scale_rem r (Z.rem (0 + c) FIELD_PRIME) P'
  end.

Lemma interpolate_inner_step (pre P done : list Z) (c prev r : Z) :
  length done = length pre ->
  interpolate_inner (pre ++ c :: P) r
    (done ++ prev :: replicate (S (length P)) 0) (length pre)
  = (done ++ [Z.rem (prev - c * r) FIELD_PRIME])
      ++ Z.rem (0 + c) FIELD_PRIME :: replicate (length P) 0.
Proof.
  intros Hlen. unfold interpolate_inner. cbv zeta. simpl replicate.
  rewrite (arr_get_middle pre). rewrite <- Hlen.
  rewrite arr_get_middle, insert_middle, arr_get_middle_S, insert_middle_S.
  rewrite <- app_assoc. reflexivity.
Qed.

Lemma interpolate_loop_closed (r : Z) (P : list Z) :
  forall (pre done : list Z) (prev : Z),
    length done = length pre ->
    foldl (interpolate_inner (pre ++ P) r)
      (done ++ prev :: replicate (length P) 0) (seq (length pre) (length P))
    = done ++ shift_scale_rem r prev P.
Proof.
  induction P as [| c P IH]; intros pre done prev Hlen.
  - reflexivity.
  - cbn [length seq foldl]. rewrite interpolate_inner_step by exact Hlen.
    replace (pre ++ c :: P) with ((pre ++ [c]) ++ P)
      by (rewrite <- app_assoc; reflexivity).
    replace (S (length pre)) with (length (pre ++ [c]))
      by (rewrite length_app; simpl; lia).
    rewrite IH by (rewrite !length_app; simpl; lia).
    rewrite <- app_assoc. reflexivity.
Qed.

Lemma interpolate_outer_closed (P : list Z) (r : Z) :
  interpolate_outer P r = shift_scale_rem r 0 P.
Proof.
  unfold interpolate_outer. cbv zeta. rewrite Nat.add_1_r.
  exact (interpolate_loop_closed r P [] [] 0 eq_refl).
Qed.

Lemma shift_scale_rem_mul_lin (r : Z) (P P' : list Z) :
  Forall2 congr P P' ->
  forall a a' : Z, congr a a' ->
    Forall2 congr (shift_scale_rem r a P) (mul_lin r a' P').
Proof.
  induction 1 as [| c c' P P' Hc _ IH]; intros a a' Ha.
  - constructor; [exact Ha | constructor].
  - cbn [shift_scale_rem mul_lin]. constructor.
    + rewrite rem_congr, Ha, Hc. reflexivity.
    + apply IH. rewrite rem_congr. exact Hc.
Qed.

Lemma Forall2_congr_sym (l1 l2 : list Z) : Forall2 congr l1 l2 -> Forall2 congr l2 l1.
Proof. induction 1; constructor; [symmetry |]; assumption. Qed.

Lemma Forall2_congr_trans (l1 l2 l3 : list Z) :
  Forall2 congr l1 l2 -> Forall2 congr l2 l3 -> Forall2 congr l1 l3.
Proof.
  intros H. revert l3. induction H as [| x y l1 l2 Hxy _ IH]; intros l3 H23;
    inversion H23; subst; constructor; [etransitivity; eassumption | apply IH; assumption].
Qed.

Lemma interpolate_both (roots : list Z) :
  forall Q Q' : list Z,
    Forall2 congr Q Q' ->
    Forall2 congr (foldl interpolate_outer Q roots) (foldl addRoot Q' roots).
Proof.
  induction roots as [| r roots IH]; intros Q Q' HQ; cbn [foldl]; [exact HQ |].
  apply IH. rewrite interpolate_outer_closed, addRoot_closed.
  apply Forall2_congr_trans with (l2 := mul_lin r 0 Q').
  - apply shift_scale_rem_mul_lin; [exact HQ | reflexivity].
  - apply Forall2_congr_sym.
    apply shift_scale_mul_lin; [apply Forall2_congr_refl | reflexivity].
Qed.

Lemma map_fmod_congr (l1 l2 : list Z) :
  Forall2 congr l1 l2 -> map fmod l1 = map fmod l2.
Proof.
  induction 1 as [| x y l1 l2 Hxy _ IH]; [reflexivity |].
  cbn [map]. f_equal; [apply fmod_eq_iff, Hxy | exact IH].
Qed.

(** ** The generator's evaluation *)

Definition eval_rem_body (secret : Z) (st : Z * Z) (coeff : Z) : Z * Z :=
  (Z.rem (fst st + coeff * snd st) FIELD_PRIME, Z.rem (snd st * secret) FIELD_PRIME).

Lemma testPolynomialEvaluation_loop (secret : Z) (l : list Z) :
  forall (pre : list Z) (st : Z * Z),
    foldl (testPolynomialEvaluation_body (pre ++ l) secret) st
      (seq (length pre) (length l))
    = foldl (eval_rem_body secret) st l.
Proof.
  induction l as [| c l IH]; intros pre [result xPower]; [reflexivity |].
  cbn [length seq foldl]. unfold testPolynomialEvaluation_body at 2.
  rewrite arr_get_middle.
  replace (pre ++ c :: l) with ((pre ++ [c]) ++ l) by (rewrite <- app_assoc; reflexivity).
  replace (S (length pre)) with (length (pre ++ [c]))
    by (rewrite length_app; simpl; lia).
  rewrite IH. reflexivity.
Qed.

Lemma testPolynomialEvaluation_foldl (polynomial : list Z) (secret : Z) :
  testPolynomialEvaluation polynomial secret
  = fst (foldl (eval_rem_body secret) (0, 1) polynomial).
Proof.
  unfold testPolynomialEvaluation.
  f_equal. exact (testPolynomialEvaluation_loop secret polynomial [] (0, 1)).
Qed.

Lemma eval_rem_congr (x : Z) (l : list Z) :
  forall st : Z * Z,
    congr (fst (foldl (eval_rem_body x) st l)) (fst st + snd st * peval l x).
Proof.
  induction l as [| c l IH]; intros [res pw].
  - cbn. apply congr_of_eq. ring.
  - cbn [foldl]. rewrite IH. unfold eval_rem_body. cbn [fst snd peval].
    rewrite !rem_congr. apply congr_of_eq. ring.
Qed.

Lemma eval_rem_abs (x : Z) (l : list Z) :
  forall st : Z * Z,
    Z.abs (fst st) < FIELD_PRIME ->
    Z.abs (fst (foldl (eval_rem_body x) st l)) < FIELD_PRIME.
Proof.
  induction l as [| c l IH]; intros st Hst; [exact Hst |].
  cbn [foldl]. apply IH. unfold eval_rem_body. cbn [fst]. apply rem_abs.
Qed.

Lemma testPolynomialEvaluation_zero_iff (polynomial : list Z) (secret : Z) :
  testPolynomialEvaluation polynomial secret = 0 <-> congr (peval polynomial secret) 0.
Proof.
  rewrite testPolynomialEvaluation_foldl.
  pose proof (eval_rem_congr secret polynomial (0, 1)) as Hc. cbn [fst snd] in Hc.
  assert (Hc' : congr (fst (foldl (eval_rem_body secret) (0, 1) polynomial))
                      (peval polynomial secret)).
  { rewrite Hc. apply congr_of_eq. ring. }
  split.
  - intros H0. rewrite <- Hc', H0. reflexivity.
  - intros Hp. apply small_congr_zero.
    + apply eval_rem_abs. cbn. reflexivity.
    + rewrite Hc'. exact Hp.
Qed.

(** ** Padding *)

Lemma pad_loop_closed (fuel : nat) :
  forall paddedPolynomial : list Z,
    (S MAX_POLY_DEGREE - length paddedPolynomial <= fuel)%nat ->
    pad_loop fuel paddedPolynomial
    = paddedPolynomial ++ replicate (S MAX_POLY_DEGREE - length paddedPolynomial) 0.
Proof.
  induction fuel as [| fuel IH]; intros l Hfuel.
  - cbn [pad_loop]. replace (S MAX_POLY_DEGREE - length l)%nat with 0%nat by lia.
    rewrite app_nil_r. reflexivity.
  - cbn [pad_loop].
    destruct (Nat.leb_spec (length l) MAX_POLY_DEGREE) as [Hle | Hgt].
    + rewrite IH by (rewrite length_app; simpl; lia).
      rewrite length_app. cbn [length].
      replace (S MAX_POLY_DEGREE - length l)%nat
        with (S (S MAX_POLY_DEGREE - (length l + 1)))%nat by lia.
      cbn [replicate]. rewrite <- app_assoc. reflexivity.
    + replace (S MAX_POLY_DEGREE - length l)%nat with 0%nat by lia.
      rewrite app_nil_r. reflexivity.
Qed.

Lemma pad_closed (polynomial : list Z) :
  pad polynomial = polynomial ++ replicate (S MAX_POLY_DEGREE - length polynomial) 0.
Proof. apply pad_loop_closed. lia. Qed.

Lemma peval_app_zeros (P : list Z) (k : nat) (x : Z) :
  peval (P ++ replicate k 0) x = peval P x.
Proof.
  induction P as [| c P IH]; cbn [app peval].
  - induction k as [| k IHk]; cbn [replicate peval]; [reflexivity | rewrite IHk; ring].
  - rewrite IH. reflexivity.
Qed.

(** ** The properties *)

Lemma generator_interpolate_eq (roots : list Z) :
  PolyGenerator.interpolatePolynomial roots = addRoots roots.
Proof.
  unfold PolyGenerator.interpolatePolynomial. cbv zeta.
  change (map toPositiveField) with (map fmod).
  transitivity (map fmod (addRoots roots)).
  - apply map_fmod_congr. unfold addRoots. apply interpolate_both, Forall2_congr_refl.
  - apply map_fmod_field. apply (addRoots_shape roots).
Qed.

(** X7: the generator's [interpolatePolynomial], which works with
    truncated remainders and canonicalises at the end, returns the same
    coefficient list as the one of polynomial_equation.ts. *)
Theorem generator_interpolatePolynomial_agrees (roots : list Z) :
  PolyGenerator.interpolatePolynomial roots = Poly.interpolatePolynomial roots.
Proof. rewrite generator_interpolate_eq. symmetry. apply interpolatePolynomial_addRoots. Qed.

(** X8: [testPolynomialEvaluation] may return a negative value, but it is
    the field value up to canonicalisation, and it is [0n] exactly when
    [verifyPolynomial] accepts. *)
Theorem testPolynomialEvaluation_agrees (polynomial : list Z) (secret : Z) :
  toPositiveField (testPolynomialEvaluation polynomial secret)
  = evaluate polynomial secret /\
  (testPolynomialEvaluation polynomial secret =? 0) = verifyPolynomial polynomial secret.
Proof.
  split.
  - rewrite toPositiveField_fmod, evaluate_peval. apply fmod_eq_iff.
    rewrite testPolynomialEvaluation_foldl.
    rewrite (eval_rem_congr secret polynomial (0, 1)). cbn [fst snd].
    apply congr_of_eq. ring.
  - destruct (verifyPolynomial polynomial secret) eqn:Hv.
    + apply Z.eqb_eq, testPolynomialEvaluation_zero_iff, verifyPolynomial_true_iff, Hv.
    + apply Z.eqb_neq. intros H0.
      apply testPolynomialEvaluation_zero_iff, verifyPolynomial_true_iff in H0.
      congruence.
Qed.

(** X9: the padding loop appends zeros until the list has
    [MAX_POLY_DEGREE + 1] entries, leaves a list that is already that long
    (or longer) alone, and does not change the value at any point. *)
Theorem pad_spec (polynomial : list Z) :
  pad polynomial
  = polynomial ++ replicate (S MAX_POLY_DEGREE - length polynomial) 0 /\
  length (pad polynomial) = Nat.max (length polynomial) (S MAX_POLY_DEGREE) /\
  forall x : Z, evaluate (pad polynomial) x = evaluate polynomial x.
Proof.
  rewrite pad_closed. split; [reflexivity |]. split.
  - rewrite length_app, length_replicate. lia.
  - intros x. rewrite !evaluate_peval, peval_app_zeros. reflexivity.
Qed.

(** X10: the polynomial that [generateTestData] hands to the circuit
    passes the checks of [validateCircuitInputs] that concern it: it
    evaluates to [0n] at every root it was built from, all its
    coefficients are in the field, and with at most [MAX_POLY_DEGREE]
    roots it has exactly [MAX_POLY_DEGREE + 1] coefficients. *)
Theorem validatedPolynomial_passes (testRoots : list Z) (secret : Z) :
  In secret testRoots ->
  testPolynomialEvaluation (validatedPolynomial testRoots) secret = 0 /\
  allInField (validatedPolynomial testRoots) = true /\
  ((length testRoots <= MAX_POLY_DEGREE)%nat ->
   length (validatedPolynomial testRoots) = S MAX_POLY_DEGREE).
Proof.
  intros Hin. unfold validatedPolynomial. cbv zeta.
  change (map toPositiveField) with (map fmod).
  rewrite generator_interpolate_eq, pad_closed.
  split; [| split].
  - apply testPolynomialEvaluation_zero_iff.
    rewrite peval_map_fmod, peval_app_zeros.
    apply peval_foldl_addRoot. right. exact Hin.
  - unfold allInField. apply forallb_forall. intros c Hc.
    apply in_map_iff in Hc. destruct Hc as (c0 & <- & _).
    pose proof (fmod_range c0) as [H0 Hp]. unfold FIELD_PRIME.
    apply andb_true_iff. split; [apply Z.ltb_lt | apply Z.leb_le]; assumption.
  - intros Hlen. rewrite length_map, length_app, length_replicate.
    rewrite (proj1 (addRoots_shape testRoots)). lia.
Qed.

Lemma validatedPolynomial_passes_witness :
  testPolynomialEvaluation (validatedPolynomial [123; 456; 789]) 456 = 0 /\
  allInField (validatedPolynomial [123; 456; 789]) = true /\
  ((length [123; 456; 789] <= MAX_POLY_DEGREE)%nat ->
   length (validatedPolynomial [123; 456; 789]) = S MAX_POLY_DEGREE).
Proof.
  apply (validatedPolynomial_passes [123; 456; 789] 456). simpl. tauto.
Defined.

End PolyGeneratorFacts.

(* ===================================================================== *)
(** * More on the batch manager                                           *)
(* ===================================================================== *)

Module BatchExtras.
Import Field Poly FieldFacts PolyFacts PolyExtras Batch BatchFacts.

Local Open Scope nat_scope.

(** What every run from the empty state keeps, whether or not a root
    comes twice.  [seen] lists the roots inserted so far, in order. *)
Record layout (seen : list Z) (st : state) : Prop := mkLayout {
  layout_lengths : length (batches st) = length (batchRoots st);
  layout_sizes : forall i roots,
    batchRoots st !! i = Some roots -> 1 <= length roots <= MAX_POLY_DEGREE;
  layout_full : all_but_last_full st;
  layout_order : concat (batchRoots st) = seen;
  layout_polys : Forall2 (fun poly roots => poly = addRoots roots)
                   (batches st) (batchRoots st);
  layout_map : forall secret, secret ∈ seen ->
    exists i roots,
      userMap st !! pretty secret = Some i /\
      batchRoots st !! i = Some roots /\ secret ∈ roots;
  layout_keys : forall key i,
    userMap st !! key = Some i -> exists secret, secret ∈ seen /\ key = pretty secret;
}.

Lemma layout_empty : layout [] empty.
Proof.
  split; cbn [empty batches batchRoots userMap]; try reflexivity.
  - intros i roots Hi. destruct i; discriminate.
  - intros i roots Hi. destruct i; discriminate.
  - constructor.
  - intros s Hs. apply elem_of_nil in Hs. contradiction.
  - intros key i Hk. rewrite lookup_empty in Hk. discriminate.
Qed.

Lemma last_split {A : Type} (l : list A) (k : nat) (x : A) :
  l !! k = Some x -> S k = length l -> l = take k l ++ [x].
Proof.
  intros Hk Hlen. rewrite <- (take_drop k l) at 1. f_equal.
  rewrite (drop_S l x k Hk). rewrite drop_ge by lia. reflexivity.
Qed.

Lemma insert_last {A : Type} (l : list A) (k : nat) (x y : A) :
  l !! k = Some x -> S k = length l -> <[k := y]> l = take k l ++ [y].
Proof.
  intros Hk Hlen. rewrite (last_split l k x Hk Hlen) at 1.
  replace k with (length (take k l) + 0) at 1 by (rewrite length_take; lia).
  rewrite insert_app_r. reflexivity.
Qed.

(** The scan found room in batch [k]. *)
Lemma layout_place_fit (seen : list Z) (st : state) (secret : Z)
    (k : nat) (roots poly : list Z) :
  layout seen st ->
  batchRoots st !! k = Some roots -> length roots < MAX_POLY_DEGREE ->
  batches st !! k = Some poly ->
  layout (seen ++ [secret])
      (mkState (<[k := addRoot poly secret]> (batches st))
               (<[k := roots ++ [secret]]> (batchRoots st))
               (<[pretty secret := k]> (userMap st))).
Proof.
  intros [Hlen Hsz Hfull Hord Hpoly Hmap Hkeys] Hk Hroom Hp.
  assert (Hklt : k < length (batchRoots st)) by (eapply lookup_lt_Some; eassumption).
  assert (Hlast : S k = length (batchRoots st)).
  { destruct (Nat.lt_ge_cases (S k) (length (batchRoots st))) as [Hlt | Hge]; [| lia].
    specialize (Hfull k roots Hk Hlt). lia. }
  split; cbn [batches batchRoots userMap].
  - rewrite !length_insert. exact Hlen.
  - intros i roots' Hi. apply list_lookup_insert_Some in Hi.
    destruct Hi as [(<- & <- & _) | (Hne & Hi)].
    + rewrite length_app. simpl. lia.
    + eapply Hsz; eassumption.
  - intros i roots' Hi Hlt. cbn [batchRoots] in *. rewrite length_insert in Hlt.
    apply list_lookup_insert_Some in Hi.
    destruct Hi as [(<- & <- & _) | (Hne & Hi)]; [lia |].
    apply (Hfull i roots' Hi Hlt).
  - rewrite (insert_last _ k roots _ Hk Hlast).
    rewrite (last_split _ k roots Hk Hlast) in Hord.
    rewrite concat_app in *. cbn [concat] in *. rewrite app_nil_r in *.
    rewrite <- Hord, <- !app_assoc. reflexivity.
  - apply Forall2_insert; [exact Hpoly |].
    pose proof (Forall2_lookup_lr _ _ _ k _ _ Hpoly Hp Hk) as ->.
    symmetry. apply addRoots_snoc.
  - intros s Hs. apply elem_of_app in Hs.
    destruct (decide (s = secret)) as [-> | Hne].
    + exists k, (roots ++ [secret]). rewrite lookup_insert_eq.
      split; [reflexivity |]. split; [apply list_lookup_insert_eq; exact Hklt |].
      apply elem_of_app. right. apply list_elem_of_singleton. reflexivity.
    + destruct Hs as [Hs | Hs]; [| apply list_elem_of_singleton in Hs; contradiction].
      destruct (Hmap s Hs) as (i & roots' & Hi & Hr & Hin).
      rewrite lookup_insert_ne by (intros Heq; apply (inj pretty) in Heq; congruence).
      destruct (decide (i = k)) as [-> | Hik].
      * exists k, (roots ++ [secret]). split; [exact Hi |].
        split; [apply list_lookup_insert_eq; exact Hklt |].
        rewrite Hk in Hr. injection Hr as <-. apply elem_of_app. left. exact Hin.
      * exists i, roots'. split; [exact Hi |]. split; [| exact Hin].
        rewrite list_lookup_insert_ne by congruence. exact Hr.
  - intros key i Hkey. apply lookup_insert_Some in Hkey.
    destruct Hkey as [(<- & _) | (_ & Hkey)].
    + exists secret. split; [| reflexivity].
      apply elem_of_app. right. apply list_elem_of_singleton. reflexivity.
    + destruct (Hkeys key i Hkey) as (s & Hs & ->).
      exists s. split; [apply elem_of_app; left; exact Hs | reflexivity].
Qed.

(** Every batch is full: a new batch is opened. *)
Lemma layout_place_new (seen : list Z) (st : state) (secret : Z) :
  layout seen st ->
  Forall full (batchRoots st) ->
  layout (seen ++ [secret])
      (mkState (batches st ++ [addRoot [1%Z] secret])
               (batchRoots st ++ [[secret]])
               (<[pretty secret := length (batchRoots st ++ [[secret]]) - 1]> (userMap st))).
Proof.
  intros [Hlen Hsz Hfull Hord Hpoly Hmap Hkeys] Hall.
  assert (Hidx : length (batchRoots st ++ [[secret]]) - 1 = length (batchRoots st)).
  { rewrite length_app. simpl. lia. }
  rewrite Hidx.
  split; cbn [batches batchRoots userMap].
  - rewrite !length_app. simpl. lia.
  - intros i roots Hi. apply lookup_app_Some in Hi.
    destruct Hi as [Hi | [_ Hi]].
    + eapply Hsz; eassumption.
    + apply list_lookup_singleton_Some in Hi. destruct Hi as [_ <-].
      unfold MAX_POLY_DEGREE. simpl. lia.
  - intros i roots Hi Hlt. cbn [batchRoots] in *.
    rewrite length_app in Hlt. simpl in Hlt.
    rewrite lookup_app_l in Hi by lia.
    assert (Hfl : full roots).
    { rewrite Forall_forall in Hall. apply Hall.
      eapply list_elem_of_lookup_2; eassumption. }
    pose proof (Hsz i roots Hi). unfold full in Hfl. lia.
  - rewrite concat_app, Hord. cbn [concat]. rewrite app_nil_r. reflexivity.
  - apply Forall2_app; [exact Hpoly |]. constructor; [reflexivity | constructor].
  - intros s Hs. apply elem_of_app in Hs.
    destruct (decide (s = secret)) as [-> | Hne].
    + exists (length (batchRoots st)), [secret]. rewrite lookup_insert_eq.
      split; [reflexivity |]. split.
      * rewrite lookup_app_r by lia. rewrite Nat.sub_diag. reflexivity.
      * apply list_elem_of_singleton. reflexivity.
    + destruct Hs as [Hs | Hs]; [| apply list_elem_of_singleton in Hs; contradiction].
      destruct (Hmap s Hs) as (i & roots' & Hi & Hr & Hin).
      rewrite lookup_insert_ne by (intros Heq; apply (inj pretty) in Heq; congruence).
      exists i, roots'. split; [exact Hi |]. split; [| exact Hin].
      rewrite lookup_app_l; [exact Hr | eapply lookup_lt_Some; eassumption].
  - intros key i Hkey. apply lookup_insert_Some in Hkey.
    destruct Hkey as [(<- & _) | (_ & Hkey)].
    + exists secret. split; [| reflexivity].
      apply elem_of_app. right. apply list_elem_of_singleton. reflexivity.
    + destruct (Hkeys key i Hkey) as (s & Hs & ->).
      exists s. split; [apply elem_of_app; left; exact Hs | reflexivity].
Qed.

Lemma layout_place (seen : list Z) (st : state) (secret : Z) :
  layout seen st ->
  exists st', place st secret = Some st' /\ layout (seen ++ [secret]) st'.
Proof.
  intros Hlay. unfold place.
  pose proof (scan_spec st secret (batchRoots st) 0) as Hscan.
  destruct (scan st secret (batchRoots st) 0) as [[[|] st'] |].
  - destruct Hscan as (k & roots & poly & Hk & Hroom & _ & Hp & ->).
    eexists. split; [reflexivity |]. simpl in *.
    apply layout_place_fit; assumption.
  - destruct Hscan as [-> Hall]. eexists. split; [reflexivity |].
    cbv zeta. apply layout_place_new; assumption.
  - destruct Hscan as (k & Hk & Hnone). exfalso.
    apply lookup_ge_None in Hnone. simpl in Hnone.
    rewrite (layout_lengths _ _ Hlay) in Hnone. lia.
Qed.

Lemma layout_place_all (newSecrets : list Z) :
  forall (seen : list Z) (st : state),
    layout seen st ->
    exists st', place_all st newSecrets = Some st' /\ layout (seen ++ newSecrets) st'.
Proof.
  induction newSecrets as [| secret rest IH]; intros seen st Hlay.
  - exists st. rewrite app_nil_r. split; [reflexivity | exact Hlay].
  - destruct (layout_place seen st secret Hlay) as (st1 & Hplace & Hlay1).
    cbn [place_all]. rewrite Hplace.
    destruct (IH (seen ++ [secret]) st1 Hlay1) as (st' & Hall & Hlay').
    exists st'. split; [exact Hall |].
    rewrite <- app_assoc in Hlay'. exact Hlay'.
Qed.

Lemma layout_calls (rounds : list (list Z)) :
  forall (seen : list Z) (st : state),
    layout seen st ->
    exists st', calls st rounds = Some st' /\ layout (seen ++ concat rounds) st'.
Proof.
  induction rounds as [| newSecrets rounds IH]; intros seen st Hlay.
  - exists st. simpl. rewrite app_nil_r. split; [reflexivity | exact Hlay].
  - destruct (layout_place_all newSecrets seen st Hlay) as (st1 & Hall & Hlay1).
    cbn [calls concat]. unfold addSecretsToBatches.
    destruct st as [bs rs um]. cbn [batches batchRoots userMap]. rewrite Hall.
    destruct (IH (seen ++ newSecrets) st1 Hlay1) as (st' & Hcalls & Hlay').
    exists st'. split; [exact Hcalls |].
    rewrite <- app_assoc in Hlay'. exact Hlay'.
Qed.

Lemma verify_addRoots (roots : list Z) (secret : Z) :
  secret ∈ roots -> verifyPolynomial (addRoots roots) secret = true.
Proof.
  intros Hin. apply verifyPolynomial_true_iff, peval_foldl_addRoot.
  right. apply list_elem_of_In, Hin.
Qed.

(** ** The properties *)

(** X11: from the empty state, no sequence of calls throws, whatever the
    roots (repeated or not); afterwards there are as many polynomials as
    root lists, every root list holds between 1 and [MAX_POLY_DEGREE]
    roots, all but the last exactly [MAX_POLY_DEGREE], and the root lists,
    put end to end, are the inserted roots in insertion order. *)
Theorem calls_layout (rounds : list (list Z)) :
  exists st : state,
    calls empty rounds = Some st /\
    length (batches st) = length (batchRoots st) /\
    (forall i roots, batchRoots st !! i = Some roots ->
       1 <= length roots <= MAX_POLY_DEGREE) /\
    all_but_last_full st /\
    concat (batchRoots st) = concat rounds.
Proof.
  destruct (layout_calls rounds [] empty layout_empty) as (st & Hcalls & Hlay).
  exists st. split; [exact Hcalls |].
  split; [apply (layout_lengths _ _ Hlay) |].
  split; [apply (layout_sizes _ _ Hlay) |].
  split; [apply (layout_full _ _ Hlay) | apply (layout_order _ _ Hlay)].
Qed.

(** X12: after any sequence of calls from the empty state, the polynomial
    of each batch is the interpolation of the batch's root list: it has
    one coefficient more than the batch has roots, and it vanishes at
    every root the batch lists. *)
Theorem calls_polynomials (rounds : list (list Z)) :
  exists st : state,
    calls empty rounds = Some st /\
    forall i poly roots,
      batches st !! i = Some poly -> batchRoots st !! i = Some roots ->
      poly = interpolatePolynomial roots /\
      length poly = S (length roots) /\
      forall secret, secret ∈ roots -> verifyPolynomial poly secret = true.
Proof.
  destruct (layout_calls rounds [] empty layout_empty) as (st & Hcalls & Hlay).
  exists st. split; [exact Hcalls |]. intros i poly roots Hp Hr.
  pose proof (Forall2_lookup_lr _ _ _ i _ _ (layout_polys _ _ Hlay) Hp Hr) as ->.
  split; [symmetry; apply interpolatePolynomial_addRoots |].
  split; [apply (addRoots_shape roots) |].
  intros secret Hin. apply verify_addRoots, Hin.
Qed.

(** X13: after any sequence of calls from the empty state, every inserted
    secret has an entry in [userMap], under the key [secret.toString()],
    and the polynomial of the batch the entry names vanishes at the
    secret (also when a secret was inserted more than once); [userMap]
    has no other keys. *)
Theorem calls_membership (rounds : list (list Z)) :
  exists st : state,
    calls empty rounds = Some st /\
    (forall secret, secret ∈ concat rounds ->
       exists i poly,
         userMap st !! pretty secret = Some i /\
         batches st !! i = Some poly /\
         verifyPolynomial poly secret = true) /\
    (forall key i, userMap st !! key = Some i ->
       exists secret, secret ∈ concat rounds /\ key = pretty secret).
Proof.
  destruct (layout_calls rounds [] empty layout_empty) as (st & Hcalls & Hlay).
  exists st. split; [exact Hcalls |]. cbn [app] in Hlay. split.
  - intros secret Hin.
    destruct (layout_map _ _ Hlay secret Hin) as (i & roots & Hi & Hr & Hs).
    assert (Hlt : i < length (batches st)).
    { rewrite (layout_lengths _ _ Hlay). eapply lookup_lt_Some; eassumption. }
    destruct (lookup_lt_is_Some_2 _ _ Hlt) as [poly Hp].
    exists i, poly. split; [exact Hi |]. split; [exact Hp |].
    pose proof (Forall2_lookup_lr _ _ _ i _ _ (layout_polys _ _ Hlay) Hp Hr) as ->.
    apply verify_addRoots, Hs.
  - apply (layout_keys _ _ Hlay).
Qed.

End BatchExtras.

(* ===================================================================== *)
(** * What [addSecretsToBatches] writes                                   *)
(* ===================================================================== *)

Module BatchStoreFacts.
Import Field Poly Store Batch BatchStore StoreFacts.

Local Open Scope nat_scope.

Section Frame.

(** The store [σ0] at the call, the [Map] passed as [userMap] and what it
    holds. *)
Variables (σ0 : store) (um : loc) (m0 : gmap string nat).
Hypothesis Hum0 : σ0 !! um = Some (StrMap m0).

(** Objects created during the call. *)
Definition owned (l : loc) : Prop := σ0 !! l = None.

(** No object of [σ0] other than [userMap] has changed. *)
Definition framed (σ : store) : Prop :=
  forall l, is_Some (σ0 !! l) -> l <> um -> σ !! l = σ0 !! l.

(** ... and [userMap] holds [m0] updated by [entries]. *)
Record kept (entries : list (Z * nat)) (σ : store) : Prop := mkKept {
  kept_frame : framed σ;
  kept_map : σ !! um = Some (StrMap (sets m0 entries));
}.

(** What holds after a computation: [Q] if it returns; if it throws, the
    frame. *)
Definition post {A : Type} (Q : A -> store -> Prop) (r : outcome A * store) : Prop :=
  match r with
  | (Done a, σ') => Q a σ'
  | (Thrown, σ') => framed σ'
  end.

Lemma post_bind {A B : Type} (c : M A) (k : A -> M B) (σ : store)
    (Q1 : A -> store -> Prop) (Q2 : B -> store -> Prop) :
  post Q1 (c σ) ->
  (forall a σ1, Q1 a σ1 -> post Q2 (k a σ1)) ->
  post Q2 ((c ≫= k) σ).
Proof.
  intros H1 H2. unfold mbind, M_bind.
  destruct (c σ) as [[a |] σ1]; cbn [post] in *; [apply H2, H1 | exact H1].
Qed.

Lemma post_mono {A : Type} (Q Q' : A -> store -> Prop) (r : outcome A * store) :
  post Q r -> (forall a σ', Q a σ' -> Q' a σ') -> post Q' r.
Proof. destruct r as [[a |] σ']; cbn [post]; auto. Qed.

Lemma um_not_owned (l : loc) : owned l -> l <> um.
Proof. unfold owned. intros Hl ->. rewrite Hum0 in Hl. discriminate. Qed.

Lemma fresh_owned (es : list (Z * nat)) (σ : store) :
  kept es σ -> owned (fresh (dom σ)).
Proof.
  intros [Hfr Hmap]. unfold owned.
  destruct (σ0 !! fresh (dom σ)) as [o |] eqn:Ho; [| reflexivity].
  exfalso. pose proof (fresh_not_in_store σ) as Hnone.
  destruct (decide (fresh (dom σ) = um)) as [Heq | Hne].
  - rewrite Heq, Hmap in Hnone. discriminate.
  - rewrite (Hfr _ ltac:(eauto) Hne), Ho in Hnone. discriminate.
Qed.

Lemma kept_write_owned (es : list (Z * nat)) (σ : store) (l : loc) (o : obj) :
  kept es σ -> owned l -> kept es (<[l := o]> σ).
Proof.
  intros [Hfr Hmap] Hl. split.
  - intros l' Hl' Hne. rewrite lookup_insert_ne; [apply Hfr; assumption |].
    intros ->. unfold owned in Hl. rewrite Hl in Hl'. destruct Hl'; discriminate.
  - rewrite lookup_insert_ne; [exact Hmap | apply um_not_owned, Hl].
Qed.

Lemma kept_alloc (es : list (Z * nat)) (σ : store) (o : obj) :
  kept es σ -> kept es (<[fresh (dom σ) := o]> σ).
Proof. intros H. apply kept_write_owned; [exact H | eapply fresh_owned, H]. Qed.

Lemma sets_snoc (m : gmap string nat) (es : list (Z * nat)) (s : Z) (i : nat) :
  sets m (es ++ [(s, i)]) = <[pretty s := i]> (sets m es).
Proof. unfold sets. rewrite foldl_app. reflexivity. Qed.

Lemma kept_write_um (es : list (Z * nat)) (σ : store) (s : Z) (i : nat) :
  kept es σ ->
  kept (es ++ [(s, i)]) (<[um := StrMap (<[pretty s := i]> (sets m0 es))]> σ).
Proof.
  intros [Hfr Hmap]. split.
  - intros l Hl Hne. rewrite lookup_insert_ne by congruence. apply Hfr; assumption.
  - rewrite lookup_insert_eq, sets_snoc. reflexivity.
Qed.

(** ** The primitives *)

Lemma read_big_post (l : loc) (σ : store) :
  framed σ ->
  post (fun xs σ' => σ' = σ /\ σ !! l = Some (BigArr xs)) (read_big l σ).
Proof.
  intros Hfr. unfold read_big.
  destruct (σ !! l) as [[xs | rs | m] |]; cbn [post]; auto.
Qed.

Lemma read_refs_post (l : loc) (σ : store) :
  framed σ ->
  post (fun rs σ' => σ' = σ /\ σ !! l = Some (RefArr rs)) (read_refs l σ).
Proof.
  intros Hfr. unfold read_refs.
  destruct (σ !! l) as [[xs | rs | m] |]; cbn [post]; auto.
Qed.

Lemma read_map_post (l : loc) (σ : store) :
  framed σ ->
  post (fun m σ' => σ' = σ /\ σ !! l = Some (StrMap m)) (read_map l σ).
Proof.
  intros Hfr. unfold read_map.
  destruct (σ !! l) as [[xs | rs | m] |]; cbn [post]; auto.
Qed.

Lemma copy_each_post (rs : list loc) :
  forall σ : store,
    kept [] σ ->
    post (fun copies σ' =>
            kept [] σ' /\ Forall owned copies /\
            forall l, is_Some (σ !! l) -> is_Some (σ' !! l))
         (copy_each rs σ).
Proof.
  induction rs as [| r rs IH]; intros σ Hk.
  - cbn. split; [exact Hk |]. split; [constructor | auto].
  - cbn [copy_each].
    apply post_bind with
      (Q1 := fun c σ1 => kept [] σ1 /\ owned c /\
                         forall l, is_Some (σ !! l) -> is_Some (σ1 !! l)).
    { unfold copy_big.
      apply post_bind with (Q1 := fun xs σ1 => σ1 = σ /\ σ !! r = Some (BigArr xs)).
      - apply read_big_post, (kept_frame _ _ Hk).
      - intros xs σ1 [-> _]. cbn.
        split; [apply kept_alloc, Hk |]. split; [eapply fresh_owned, Hk |].
        intros l Hl. rewrite lookup_alloc_old; assumption. }
    intros c σ1 (Hk1 & Hc & Hmono1).
    apply post_bind with
      (Q1 := fun cs σ2 => kept [] σ2 /\ Forall owned cs /\
                          forall l, is_Some (σ1 !! l) -> is_Some (σ2 !! l)).
    { apply IH, Hk1. }
    intros cs σ2 (Hk2 & Hcs & Hmono2). cbn.
    split; [exact Hk2 |]. split; [constructor; assumption | auto].
Qed.

(** ** The loop, once [currentBatches] and [currentRoots] exist *)

Variables (cb cr : loc).
Hypothesis Hcb : owned cb.
Hypothesis Hcr : owned cr.
Hypothesis Hcbcr : cb <> cr.

(** [currentRoots] is an array of arrays created during the call. *)
Definition roots_owned (σ : store) : Prop :=
  exists copies, σ !! cr = Some (RefArr copies) /\ Forall owned copies.

Record running (entries : list (Z * nat)) (σ : store) : Prop := mkRunning {
  running_kept : kept entries σ;
  running_roots : roots_owned σ;
}.

Lemma running_framed (es : list (Z * nat)) (σ : store) : running es σ -> framed σ.
Proof. intros [[Hfr _] _]. exact Hfr. Qed.

Lemma running_write_owned (es : list (Z * nat)) (σ : store) (l : loc) (o : obj) :
  running es σ -> owned l -> l <> cr -> running es (<[l := o]> σ).
Proof.
  intros [Hk (copies & Hcopies & Hown)] Hl Hne. split.
  - apply kept_write_owned; assumption.
  - exists copies. rewrite lookup_insert_ne by exact Hne. split; assumption.
Qed.

Lemma running_alloc (es : list (Z * nat)) (σ : store) (o : obj) :
  running es σ ->
  running es (<[fresh (dom σ) := o]> σ) /\ owned (fresh (dom σ)).
Proof.
  intros Hr. pose proof (fresh_owned es σ (running_kept _ _ Hr)) as Hfresh.
  split; [| exact Hfresh].
  apply running_write_owned; [exact Hr | exact Hfresh |].
  intros Heq. destruct Hr as [_ (copies & Hcopies & _)].
  pose proof (fresh_not_in_store σ) as Hnone. rewrite Heq, Hcopies in Hnone. discriminate.
Qed.

Lemma running_write_cr (es : list (Z * nat)) (σ : store) (copies : list loc) :
  running es σ -> Forall owned copies -> running es (<[cr := RefArr copies]> σ).
Proof.
  intros [Hk _] Hown. split.
  - apply kept_write_owned; assumption.
  - exists copies. rewrite lookup_insert_eq. split; [reflexivity | exact Hown].
Qed.

Lemma running_write_um (es : list (Z * nat)) (σ : store) (s : Z) (i : nat) :
  running es σ ->
  running (es ++ [(s, i)]) (<[um := StrMap (<[pretty s := i]> (sets m0 es))]> σ).
Proof.
  intros [Hk (copies & Hcopies & Hown)]. split.
  - apply kept_write_um, Hk.
  - exists copies. split; [| exact Hown].
    rewrite lookup_insert_ne; [exact Hcopies |].
    intros Heq. apply (um_not_owned cr Hcr). congruence.
Qed.

Lemma push_big_post (es : list (Z * nat)) (σ : store) (arr : loc) (x : Z) :
  running es σ -> owned arr ->
  post (fun _ σ' => running es σ') (push_big arr x σ).
Proof.
  intros Hr Harr. unfold push_big.
  apply post_bind with (Q1 := fun xs σ1 => σ1 = σ /\ σ !! arr = Some (BigArr xs)).
  - apply read_big_post, (running_framed _ _ Hr).
  - intros xs σ1 [-> Hxs]. cbn. apply running_write_owned; try assumption.
    intros ->. destruct Hr as [_ (copies & Hcopies & _)]. congruence.
Qed.

Lemma get_ref_post (es : list (Z * nat)) (σ : store) (arr : loc) (i : nat) :
  running es σ ->
  post (fun _ σ' => σ' = σ) (get_ref arr i σ).
Proof.
  intros Hr. unfold get_ref.
  apply post_bind with (Q1 := fun rs σ1 => σ1 = σ /\ σ !! arr = Some (RefArr rs)).
  - apply read_refs_post, (running_framed _ _ Hr).
  - intros rs σ1 [-> _]. destruct (rs !! i); cbn; [reflexivity |].
    apply (running_framed _ _ Hr).
Qed.

Lemma addRoot_st_post (es : list (Z * nat)) (σ : store) (b : loc) (s : Z) :
  running es σ ->
  post (fun _ σ' => running es σ') (addRoot_st b s σ).
Proof.
  intros Hr. unfold addRoot_st.
  apply post_bind with (Q1 := fun xs σ1 => σ1 = σ /\ σ !! b = Some (BigArr xs)).
  - apply read_big_post, (running_framed _ _ Hr).
  - intros xs σ1 [-> _]. cbn. apply running_alloc, Hr.
Qed.

Lemma set_ref_cb_post (es : list (Z * nat)) (σ : store) (i : nat) (l : loc) :
  running es σ ->
  post (fun _ σ' => running es σ') (set_ref cb i l σ).
Proof.
  intros Hr. unfold set_ref.
  apply post_bind with (Q1 := fun rs σ1 => σ1 = σ /\ σ !! cb = Some (RefArr rs)).
  - apply read_refs_post, (running_framed _ _ Hr).
  - intros rs σ1 [-> _]. cbn. apply running_write_owned; assumption.
Qed.

Lemma push_ref_cb_post (es : list (Z * nat)) (σ : store) (l : loc) :
  running es σ ->
  post (fun _ σ' => running es σ') (push_ref cb l σ).
Proof.
  intros Hr. unfold push_ref.
  apply post_bind with (Q1 := fun rs σ1 => σ1 = σ /\ σ !! cb = Some (RefArr rs)).
  - apply read_refs_post, (running_framed _ _ Hr).
  - intros rs σ1 [-> _]. cbn. apply running_write_owned; assumption.
Qed.

Lemma push_ref_cr_post (es : list (Z * nat)) (σ : store) (l : loc) :
  running es σ -> owned l ->
  post (fun _ σ' => running es σ') (push_ref cr l σ).
Proof.
  intros Hr Hl. unfold push_ref.
  apply post_bind with (Q1 := fun rs σ1 => σ1 = σ /\ σ !! cr = Some (RefArr rs)).
  - apply read_refs_post, (running_framed _ _ Hr).
  - intros rs σ1 [-> Hrs]. cbn. apply running_write_cr; [exact Hr |].
    destruct Hr as [_ (copies & Hcopies & Hown)].
    rewrite Hrs in Hcopies. injection Hcopies as <-.
    apply Forall_app. split; [exact Hown | constructor; [exact Hl | constructor]].
Qed.

Lemma map_set_post (es : list (Z * nat)) (σ : store) (s : Z) (i : nat) :
  running es σ ->
  post (fun _ σ' => running (es ++ [(s, i)]) σ') (map_set um (pretty s) i σ).
Proof.
  intros Hr. unfold map_set.
  apply post_bind with (Q1 := fun m σ1 => σ1 = σ /\ σ !! um = Some (StrMap m)).
  - apply read_map_post, (running_framed _ _ Hr).
  - intros m σ1 [-> Hm]. cbn.
    rewrite (kept_map _ _ (running_kept _ _ Hr)) in Hm. injection Hm as <-.
    apply running_write_um, Hr.
Qed.

Lemma scan_st_post (secret : Z) (rest : list loc) :
  forall (i : nat) (es : list (Z * nat)) (σ : store),
    running es σ -> Forall owned rest ->
    post (fun inserted σ' =>
            if inserted : bool
            then exists k, running (es ++ [(secret, k)]) σ'
            else running es σ')
         (scan_st cb um secret rest i σ).
Proof.
  induction rest as [| r rest IH]; intros i es σ Hr Hown.
  - cbn. exact Hr.
  - apply Forall_cons in Hown. destruct Hown as [Hr_own Hrest].
    cbn [scan_st].
    apply post_bind with (Q1 := fun xs σ1 => σ1 = σ /\ σ !! r = Some (BigArr xs)).
    { apply read_big_post, (running_framed _ _ Hr). }
    intros roots σ1 [-> _].
    destruct (length roots <? MAX_POLY_DEGREE); [| apply IH; assumption].
    apply post_bind with (Q1 := fun _ σ1 => running es σ1).
    { apply push_big_post; assumption. }
    intros _ σ1 Hr1.
    apply post_bind with (Q1 := fun _ σ2 => σ2 = σ1).
    { eapply get_ref_post, Hr1. }
    intros b σ2 ->.
    apply post_bind with (Q1 := fun _ σ2 => running es σ2).
    { apply addRoot_st_post, Hr1. }
    intros b' σ2 Hr2.
    apply post_bind with (Q1 := fun _ σ3 => running es σ3).
    { apply set_ref_cb_post, Hr2. }
    intros _ σ3 Hr3.
    apply post_bind with (Q1 := fun _ σ4 => running (es ++ [(secret, i)]) σ4).
    { apply map_set_post, Hr3. }
    intros _ σ4 Hr4. cbn. exists i. exact Hr4.
Qed.

Lemma place_st_post (secret : Z) (es : list (Z * nat)) (σ : store) :
  running es σ ->
  post (fun _ σ' => exists k, running (es ++ [(secret, k)]) σ')
       (place_st cb cr um secret σ).
Proof.
  intros Hr. unfold place_st.
  apply post_bind with (Q1 := fun rs σ1 => σ1 = σ /\ σ !! cr = Some (RefArr rs)).
  { apply read_refs_post, (running_framed _ _ Hr). }
  intros rs σ1 [-> Hrs].
  apply post_bind with
    (Q1 := fun inserted σ1 =>
             if inserted : bool
             then exists k, running (es ++ [(secret, k)]) σ1
             else running es σ1).
  { apply scan_st_post; [exact Hr |].
    destruct Hr as [_ (copies & Hcopies & Hown)]. rewrite Hrs in Hcopies.
    injection Hcopies as <-. exact Hown. }
  intros [|] σ1 H1; [cbn; exact H1 |].
  apply post_bind with (Q1 := fun l σ2 => running es σ2 /\ owned l).
  { cbn. apply running_alloc, H1. }
  intros newBatchRoots σ2 [H2 Hnew].
  apply post_bind with (Q1 := fun l σ3 => running es σ3).
  { cbn. apply running_alloc, H2. }
  intros one σ3 H3.
  apply post_bind with (Q1 := fun _ σ4 => running es σ4).
  { apply addRoot_st_post, H3. }
  intros newBatchPoly σ4 H4.
  apply post_bind with (Q1 := fun _ σ5 => running es σ5).
  { apply push_ref_cr_post; assumption. }
  intros _ σ5 H5.
  apply post_bind with (Q1 := fun _ σ6 => running es σ6).
  { apply push_ref_cb_post, H5. }
  intros _ σ6 H6.
  apply post_bind with (Q1 := fun rs σ7 => σ7 = σ6 /\ σ6 !! cr = Some (RefArr rs)).
  { apply read_refs_post, (running_framed _ _ H6). }
  intros rs' σ7 [-> _].
  eapply post_mono; [apply map_set_post, H6 |].
  intros a σ8 H8. eexists. exact H8.
Qed.

Lemma place_all_st_post (newSecrets : list Z) :
  forall (es : list (Z * nat)) (σ : store),
    running es σ ->
    post (fun _ σ' =>
            exists idxs, length idxs = length newSecrets /\
                         running (es ++ zip newSecrets idxs) σ')
         (place_all_st cb cr um newSecrets σ).
Proof.
  induction newSecrets as [| secret rest IH]; intros es σ Hr.
  - cbn. exists []. rewrite app_nil_r. split; [reflexivity | exact Hr].
  - cbn [place_all_st].
    apply post_bind with (Q1 := fun _ σ1 => exists k, running (es ++ [(secret, k)]) σ1).
    { apply place_st_post, Hr. }
    intros _ σ1 [k Hr1].
    eapply post_mono; [apply IH, Hr1 |].
    intros a σ2 (idxs & Hlen & Hr2). exists (k :: idxs).
    split; [cbn; lia |]. cbn [zip zip_with]. rewrite <- app_assoc in Hr2. exact Hr2.
Qed.

End Frame.

Lemma kept_start (σ : store) (um : loc) (m : gmap string nat) :
  σ !! um = Some (StrMap m) -> kept σ um m [] σ.
Proof. intros Hum. split; [intros l _ _; reflexivity | exact Hum]. Qed.

(** The whole call, against the store [σ] it starts in. *)
Lemma addSecretsToBatches_st_post
    (σ : store) (batches batchRoots userMap : loc) (m : gmap string nat)
    (newSecrets : list Z) :
  σ !! userMap = Some (StrMap m) ->
  post σ userMap
    (fun h σ' =>
       framed σ userMap σ' /\
       h_userMap h = userMap /\
       σ !! h_batches h = None /\ σ !! h_batchRoots h = None /\
       (exists copies, σ' !! h_batchRoots h = Some (RefArr copies) /\
                       Forall (fun c => σ !! c = None) copies) /\
       exists idxs, length idxs = length newSecrets /\
                    σ' !! userMap = Some (StrMap (sets m (zip newSecrets idxs))))
    (addSecretsToBatches_st batches batchRoots userMap newSecrets σ).
Proof.
  intros Hum. pose proof (kept_start σ userMap m Hum) as Hk0.
  unfold addSecretsToBatches_st.
  apply post_bind with (Q1 := fun bs σ1 => σ1 = σ /\ σ !! batches = Some (RefArr bs)).
  { apply read_refs_post, (kept_frame _ _ _ _ _ Hk0). }
  intros bs σ1 [-> _].
  apply post_bind with
    (Q1 := fun cb σ1 => kept σ userMap m [] σ1 /\ owned σ cb /\ is_Some (σ1 !! cb)).
  { cbn. split; [apply (kept_alloc σ userMap m Hum), Hk0 |].
    split; [apply (fresh_owned σ userMap m [] σ), Hk0 |].
    rewrite lookup_insert_eq. eauto. }
  intros cb σ1 (Hk1 & Hcb & Hcb1).
  apply post_bind with (Q1 := fun rs σ2 => σ2 = σ1 /\ σ1 !! batchRoots = Some (RefArr rs)).
  { apply read_refs_post, (kept_frame _ _ _ _ _ Hk1). }
  intros rs σ2 [-> _].
  apply post_bind with
    (Q1 := fun copies σ2 =>
             kept σ userMap m [] σ2 /\ Forall (owned σ) copies /\
             forall l, is_Some (σ1 !! l) -> is_Some (σ2 !! l)).
  { apply (copy_each_post σ userMap m Hum), Hk1. }
  intros copies σ2 (Hk2 & Hcopies & Hmono).
  apply post_bind with
    (Q1 := fun cr σ3 => running σ userMap m cr [] σ3 /\ owned σ cr /\ cb <> cr).
  { cbn. pose proof (fresh_owned σ userMap m [] σ2 Hk2) as Hcr.
    split; [| split; [exact Hcr |]].
    - split; [apply (kept_alloc σ userMap m Hum), Hk2 |].
      exists copies. rewrite lookup_insert_eq. split; [reflexivity | exact Hcopies].
    - intros Heq. specialize (Hmono cb Hcb1). rewrite Heq in Hmono.
      rewrite fresh_not_in_store in Hmono. destruct Hmono; discriminate. }
  intros cr σ3 (Hr3 & Hcr & Hne).
  apply post_bind with
    (Q1 := fun _ σ4 =>
             exists idxs, length idxs = length newSecrets /\
                          running σ userMap m cr ([] ++ zip newSecrets idxs) σ4).
  { apply (place_all_st_post σ userMap m Hum cb cr Hcb Hcr Hne), Hr3. }
  intros _ σ4 (idxs & Hlen & Hr4). cbn [app] in Hr4. cbn.
  destruct Hr4 as [[Hfr Hmap] (copies' & Hcopies' & Hown')].
  split; [exact Hfr |]. split; [reflexivity |].
  split; [exact Hcb |]. split; [exact Hcr |].
  split; [exists copies'; split; assumption |].
  exists idxs. split; assumption.
Qed.

(** X14: [addSecretsToBatches] writes no object that existed before the
    call other than the [Map] passed as [userMap], whether it returns or
    throws: the arrays [batches] and [batchRoots] and every polynomial and
    root list they hold are as they were.  When it returns, the two
    arrays of the result and every root list of the result are objects
    created by the call, the [userMap] of the result is the argument
    itself, and it holds what it held updated by one [set] per new
    secret, in order. *)
Theorem addSecretsToBatches_writes_only_userMap
    (σ : store) (batches batchRoots userMap : loc) (m : gmap string nat)
    (newSecrets : list Z) :
  σ !! userMap = Some (StrMap m) ->
  (forall l, is_Some (σ !! l) -> l <> userMap ->
     snd (addSecretsToBatches_st batches batchRoots userMap newSecrets σ) !! l = σ !! l) /\
  (forall h,
     fst (addSecretsToBatches_st batches batchRoots userMap newSecrets σ) = Done h ->
     h_userMap h = userMap /\
     σ !! h_batches h = None /\ σ !! h_batchRoots h = None /\
     (exists copies,
        snd (addSecretsToBatches_st batches batchRoots userMap newSecrets σ)
          !! h_batchRoots h = Some (RefArr copies) /\
        Forall (fun c => σ !! c = None) copies) /\
     exists idxs, length idxs = length newSecrets /\
       snd (addSecretsToBatches_st batches batchRoots userMap newSecrets σ) !! userMap
       = Some (StrMap (sets m (zip newSecrets idxs)))).
Proof.
  intros Hum.
  pose proof (addSecretsToBatches_st_post σ batches batchRoots userMap m newSecrets Hum)
    as Hpost.
  destruct (addSecretsToBatches_st batches batchRoots userMap newSecrets σ)
    as [[h |] σ']; cbn [post fst snd] in *.
  - destruct Hpost as (Hfr & Hrest). split; [exact Hfr |].
    intros h' Hh. injection Hh as <-. exact Hrest.
  - split; [exact Hpost | discriminate].
Qed.

Lemma addSecretsToBatches_writes_only_userMap_witness :
  (forall l, is_Some (BatchStoreTests.one_batch !! l) -> l <> 5%positive ->
     snd (addSecretsToBatches_st 2%positive 4%positive 5%positive [9%Z]
            BatchStoreTests.one_batch) !! l
     = BatchStoreTests.one_batch !! l) /\
  (forall h,
     fst (addSecretsToBatches_st 2%positive 4%positive 5%positive [9%Z]
            BatchStoreTests.one_batch) = Done h ->
     h_userMap h = 5%positive /\
     BatchStoreTests.one_batch !! h_batches h = None /\
     BatchStoreTests.one_batch !! h_batchRoots h = None /\
     (exists copies,
        snd (addSecretsToBatches_st 2%positive 4%positive 5%positive [9%Z]
               BatchStoreTests.one_batch) !! h_batchRoots h = Some (RefArr copies) /\
        Forall (fun c => BatchStoreTests.one_batch !! c = None) copies) /\
     exists idxs, length idxs = length [9%Z] /\
       snd (addSecretsToBatches_st 2%positive 4%positive 5%positive [9%Z]
              BatchStoreTests.one_batch) !! 5%positive
       = Some (StrMap (sets ∅ (zip [9%Z] idxs)))).
Proof.
  apply (addSecretsToBatches_writes_only_userMap BatchStoreTests.one_batch
           2%positive 4%positive 5%positive ∅ [9%Z]).
  reflexivity.
Defined.

End BatchStoreFacts.

Module IMTMoreTests.
Import Field IMT IMTTests.


(** Three insertions, then an update of the first leaf. *)
Definition updated_tree : tree :=
  snd (update toy_hash 0 77
         (snd (insert toy_hash 33 (snd (insert toy_hash 22 (snd (insert toy_hash 11 new_tree))))))).


Example updated_tree_root_changes :
  (getRoot toy_hash updated_tree
   =? getRoot toy_hash (snd (insert toy_hash 33 (snd (insert toy_hash 22 (snd (insert toy_hash 11 new_tree)))))))
  = false.
Proof. vm_compute. reflexivity. Qed.

Lemma insert_touches_only_ancestors_witness :
  getNode (snd (insert toy_hash 42 new_tree)) 3 5 = getNode new_tree 3 5.
Proof.
  apply (insert_touches_only_ancestors toy_hash 42 new_tree 3 5).
  - vm_compute. reflexivity.
  - intros [_ H]. vm_compute in H. discriminate.
Defined.


Lemma updates_commute_witness :
  leaves (snd (update toy_hash 2 9 (snd (update toy_hash 1 8 updated_tree))))
  = leaves (snd (update toy_hash 1 8 (snd (update toy_hash 2 9 updated_tree)))) /\
  nextIndex (snd (update toy_hash 2 9 (snd (update toy_hash 1 8 updated_tree))))
  = nextIndex (snd (update toy_hash 1 8 (snd (update toy_hash 2 9 updated_tree)))) /\
  getRoot toy_hash (snd (update toy_hash 2 9 (snd (update toy_hash 1 8 updated_tree))))
  = getRoot toy_hash (snd (update toy_hash 1 8 (snd (update toy_hash 2 9 updated_tree)))).
Proof.
  apply (updates_commute toy_hash 1 2 8 9 updated_tree).
  - unfold updated_tree. apply reachable_update.
    do 3 apply reachable_insert. apply reachable_new.
  - vm_compute. split; [discriminate | reflexivity].
  - vm_compute. split; [discriminate | reflexivity].
  - discriminate.
Defined.

End IMTMoreTests.

(** * The tree of the test-data generator

    IMT/utils/test_data_generator.js has a tree of its own, which
    IMT/utils/benchmark_imt_helper.js builds on.  It keeps the fields of
    the class of merkle_tree.ts, but its hash wrapper reduces the
    library's value with a bare [%], and [insert] and [getMerklePath]
    check nothing.  [nextIndex] and the indices are JS numbers; they are
    integers here, which is what they are below [2 ^ 53]. *)

Module IMTGenerator.
Import Field.
Import IMT (tree, mkTree, leaves, nodes, nextIndex, new_tree, getNode, setNode,
            setLeaf, arr_get, result, Ok, Err, error, TypeError).

Definition FIELD_PRIME : Z := bn_254_fp.

Definition TREE_DEPTH : nat := 20.

(** [Number.MAX_SAFE_INTEGER + 1] *)
Definition SAFE_LIMIT : Z := 2 ^ 53.

(** [toPositiveField(value)] *)
Definition toPositiveField (value : Z) : Z :=
  let r := Z.rem value FIELD_PRIME in
  if 0 <=? r then r else r + FIELD_PRIME.

Section WithHash.

Variable poseidon2Hash : list Z -> Z.

(** [realPoseidon2Hash(inputs)], on the branch where the library returns
    a bigint. *)
Definition realPoseidon2Hash (inputs : list Z) : Z :=
  let arr := map toPositiveField inputs in
  let raw := poseidon2Hash arr in
  Z.rem raw FIELD_PRIME.

Definition hashLeaf (secret : Z) : Z := realPoseidon2Hash [secret].

Definition hashPair (left_ right_ : Z) : Z := realPoseidon2Hash [left_; right_].

Definition getZeroValue : Z := realPoseidon2Hash [0].

Fixpoint computeZeroHashes_loop (fuel i : nat) (zeroHashes : list Z) : list Z :=
  match fuel with
  | O => zeroHashes
  | S fuel' =>
      computeZeroHashes_loop fuel' (S i)
        (<[i := hashPair (arr_get zeroHashes (i - 1)) (arr_get zeroHashes (i - 1))]> zeroHashes)
  end.

Definition computeZeroHashes : list Z :=
  let zeroHashes := replicate (TREE_DEPTH + 1) 0 in
  let zeroHashes := <[0%nat := getZeroValue]> zeroHashes in
  computeZeroHashes_loop TREE_DEPTH 1 zeroHashes.

Definition ZERO_HASHES : list Z := computeZeroHashes.

(** The [for] of [updatePath]. *)
Fixpoint updatePath_loop (fuel level : nat) (currentIndex currentHash : Z)
    (t : tree) : tree :=
  match fuel with
  | O => t
  | S fuel' =>
      let isRight := Z.rem currentIndex 2 =? 1 in
      let siblingIndex := if isRight then currentIndex - 1 else currentIndex + 1 in
      let parentIndex := currentIndex / 2 in
      let siblingHash :=
        if (level =? 0)%nat
        then default getZeroValue (leaves t !! siblingIndex)
        else default (arr_get ZERO_HASHES level) (getNode t level siblingIndex) in
      let '(left_, right_) :=
        if isRight then (siblingHash, currentHash) else (currentHash, siblingHash) in
      let parentHash := hashPair left_ right_ in
      let t := setNode t (level + 1) parentIndex parentHash in
      updatePath_loop fuel' (S level) parentIndex parentHash t
  end.

(** [updatePath(index)]; [None] when [this.leaves[index]] is [undefined],
    on which the hash wrapper throws. *)
Definition updatePath (index : Z) (t : tree) : option tree :=
  match leaves t !! index with
  | Some currentHash => Some (updatePath_loop TREE_DEPTH 0 index currentHash t)
  | None => None
  end.

(** [insert(leaf)]: no test of the capacity. *)
Definition insert (leaf : Z) (t : tree) : result Z * tree :=
  let index := nextIndex t in
  let t := setLeaf t index leaf in
  match updatePath index t with
  | None => (Err TypeError, t)
  | Some t => (Ok index, mkTree (leaves t) (nodes t) (nextIndex t + 1))
  end.

Definition getRoot (t : tree) : Z :=
  if nextIndex t =? 0 then arr_get ZERO_HASHES TREE_DEPTH
  else default (arr_get ZERO_HASHES TREE_DEPTH) (getNode t TREE_DEPTH 0).

Fixpoint getMerklePath_loop (fuel level : nat) (currentIndex : Z) (t : tree)
    (path pathIndices : list Z) : list Z * list Z :=
  match fuel with
  | O => (path, pathIndices)
  | S fuel' =>
      let isRight := Z.rem currentIndex 2 =? 1 in
      let siblingIndex := if isRight then currentIndex - 1 else currentIndex + 1 in
      let siblingHash :=
        if (level =? 0)%nat
        then default getZeroValue (leaves t !! siblingIndex)
        else default (arr_get ZERO_HASHES level) (getNode t level siblingIndex) in
      getMerklePath_loop fuel' (S level) (currentIndex / 2) t
        (path ++ [siblingHash]) (pathIndices ++ [if isRight then 1 else 0])
  end.

(** [getMerklePath(index)]: no test of the index. *)
Definition getMerklePath (index : Z) (t : tree) : list Z * list Z :=
  getMerklePath_loop TREE_DEPTH 0 index t [] [].

(** The [for] of [createIncrementalIMT]; a throw of [insert] ends it. *)
Fixpoint createIncrementalIMT_loop (newSecrets : list Z) (t : tree) : result tree :=
  match newSecrets with
  | [] => Ok t
  | secret :: newSecrets =>
      let leaf := realPoseidon2Hash [secret] in
      match insert leaf t with
      | (Ok _, t) => createIncrementalIMT_loop newSecrets t
      | (Err e, _) => Err e
      end
  end.

(** [createIncrementalIMT(existingTree, newSecrets)]; [None] is [null]. *)
Definition createIncrementalIMT (existingTree : option tree) (newSecrets : list Z)
    : result tree :=
  let t := default new_tree existingTree in
  createIncrementalIMT_loop newSecrets t.

(** What [generateTestData] returns, without the text of Prover.toml. *)
Record testData : Type := mkTestData {
  secret : Z;
  userIndex : Z;
  merkleRoot : Z;
  merklePath : list Z;
  pathIndices : list Z;
  nullifier : Z;
  verifierKey : Z;
}.

(** [TEST_CONFIG.testSecrets] *)
Definition testSecrets : list Z := [123; 456; 789].

(** The first [for] of [generateTestData]. *)
Fixpoint insert_testSecrets (secrets : list Z) (t : tree) : result tree :=
  match secrets with
  | [] => Ok t
  | testSecret :: secrets =>
      let leaf := hashLeaf testSecret in
      match insert leaf t with
      | (Ok _, t) => insert_testSecrets secrets t
      | (Err e, _) => Err e
      end
  end.

(** [generateTestData()], for given secrets in the configuration and
    given values of [hashToField] (SHA-256, outside the model) on the
    user's e-mail with the salt and on the verifier's key. *)
Definition generateTestData_from (secrets : list Z) (secret verifierKey : Z)
    : result testData :=
  match insert_testSecrets secrets new_tree with
  | Err e => Err e
  | Ok t =>
      let userLeaf := hashLeaf secret in
      match insert userLeaf t with
      | (Err e, _) => Err e
      | (Ok userIndex, t) =>
          let merkleRoot := getRoot t in
          let '(path, pathIndices) := getMerklePath userIndex t in
          let nullifier := realPoseidon2Hash [secret; verifierKey] in
          Ok (mkTestData secret userIndex merkleRoot path pathIndices nullifier
                verifierKey)
      end
  end.

Definition generateTestData (secret verifierKey : Z) : result testData :=
  generateTestData_from testSecrets secret verifierKey.

(** First [for] of [validateCircuitInputs].  A missing entry of the path
    reaches the hash wrapper as [undefined], which throws; a missing
    entry of [pathIndices] only fails the comparison with [1n]. *)
Fixpoint validate_climb (fuel i : nat) (path pathIndices : list Z)
    (currentHash : Z) : result Z :=
  match fuel with
  | O => Ok currentHash
  | S fuel' =>
      let isRight := bool_decide (pathIndices !! i = Some 1) in
      match path !! i with
      | None => Err TypeError
      | Some p =>
          let '(left_, right_) :=
            if isRight then (p, currentHash) else (currentHash, p) in
          validate_climb fuel' (S i) path pathIndices (hashPair left_ right_)
      end
  end.

(** Second [for]: [undefined * powerOfTwo] throws. *)
Fixpoint validate_index (fuel i : nat) (pathIndices : list Z)
    (reconstructedIndex powerOfTwo : Z) : result Z :=
  match fuel with
  | O => Ok reconstructedIndex
  | S fuel' =>
      match pathIndices !! i with
      | None => Err TypeError
      | Some b =>
          validate_index fuel' (S i) pathIndices
            (reconstructedIndex + b * powerOfTwo) (powerOfTwo * 2)
      end
  end.

(** [validateCircuitInputs(testData)] *)
Definition validateCircuitInputs (d : testData) : result bool :=
  let computedLeaf := hashLeaf (secret d) in
  match validate_climb TREE_DEPTH 0 (merklePath d) (pathIndices d) computedLeaf with
  | Err e => Err e
  | Ok currentHash =>
      let rootMatch := currentHash =? merkleRoot d in
      let recomputedNullifier := realPoseidon2Hash [secret d; verifierKey d] in
      let nullifierMatch := recomputedNullifier =? nullifier d in
      match validate_index TREE_DEPTH 0 (pathIndices d) 0 1 with
      | Err e => Err e
      | Ok reconstructedIndex =>
          let indexMatch := reconstructedIndex =? userIndex d in
          Ok (rootMatch && nullifierMatch && indexMatch)
      end
  end.

End WithHash.

End IMTGenerator.
Module IMTGeneratorFacts.
Import Field FieldFacts IMTGenerator.
Import IMT (tree, mkTree, leaves, nodes, nextIndex, new_tree, getNode, setNode,
            setLeaf, arr_get, result, Ok, Err, error, TypeError).

Lemma tree_toPositiveField_fmod (value : Z) : toPositiveField value = fmod value.
Proof. reflexivity. Qed.

Lemma TREE_DEPTH_same : TREE_DEPTH = IMT.TREE_DEPTH.
Proof. reflexivity. Qed.

Lemma tree_rem_congr (raw : Z) : congr (Z.rem raw bn_254_fp) raw.
Proof.
  unfold eqm. pose proof (Z.quot_rem' raw bn_254_fp) as Hqr.
  rewrite Hqr at 2. rewrite Z.add_comm, Z.mul_comm, Z_mod_plus_full. reflexivity.
Qed.

Lemma tree_rem_fmod (raw : Z) :
  0 <= Z.rem raw bn_254_fp -> Z.rem raw bn_254_fp = fmod raw.
Proof.
  intros Hr. unfold fmod, mod_. cbv zeta.
  destruct (Z.leb_spec 0 (Z.rem raw bn_254_fp)); [reflexivity | lia].
Qed.

Section Facts.

Variable poseidon2Hash : list Z -> Z.

Local Abbreviation H := poseidon2Hash.

(** X25: the generator's hash wrapper and the one of merkle_tree.ts
    always return congruent values, and the same value exactly when the
    library's value has a remainder that is not negative. *)
Theorem realPoseidon2Hash_vs_poseidon2 (inputs : list Z) :
  congr (realPoseidon2Hash H inputs) (IMT.poseidon2 H inputs) /\
  (realPoseidon2Hash H inputs = IMT.poseidon2 H inputs
   <-> 0 <= Z.rem (H (map fmod inputs)) bn_254_fp).
Proof.
  unfold realPoseidon2Hash, IMT.poseidon2, FIELD_PRIME. cbv zeta.
  change (map toPositiveField inputs) with (map fmod inputs).
  generalize (H (map fmod inputs)); intros raw. split.
  - rewrite tree_rem_congr, fmod_congr. reflexivity.
  - split.
    + intros ->. apply fmod_range.
    + apply tree_rem_fmod.
Qed.

(** ** The unguarded [insert] *)

Lemma tree_updatePath_loop_leaves (fuel : nat) :
  forall (level : nat) (ci ch : Z) (t : tree),
    leaves (updatePath_loop H fuel level ci ch t) = leaves t /\
    nextIndex (updatePath_loop H fuel level ci ch t) = nextIndex t.
Proof.
  induction fuel as [| fuel IH]; intros level ci ch t; [split; reflexivity |].
  cbn [updatePath_loop]. cbv zeta.
  destruct (Z.rem ci 2 =? 1);
    match goal with
    | |- leaves (updatePath_loop _ _ ?l ?c ?h ?t') = _ /\ _ =>
        destruct (IH l c h t') as [-> ->]
    end; split; reflexivity.
Qed.

Lemma tree_updatePath_loop_other_nodes (fuel : nat) :
  forall (level : nat) (ci ch : Z) (t : tree) (l : nat) (j : Z),
    ~ (exists k : nat, (k < fuel)%nat /\ l = (level + S k)%nat /\ j = IMT.halve (S k) ci) ->
    nodes (updatePath_loop H fuel level ci ch t) !! (l, j) = nodes t !! (l, j).
Proof.
  induction fuel as [| fuel IH]; intros level ci ch t l j Hnot; [reflexivity |].
  cbn [updatePath_loop]. cbv zeta.
  assert (Hstep : forall v,
             nodes (updatePath_loop H fuel (S level) (ci / 2) v
                      (setNode t (level + 1) (ci / 2) v)) !! (l, j)
             = nodes t !! (l, j)).
  { intros v. rewrite IH.
    - unfold setNode. cbn [nodes]. apply lookup_insert_ne.
      intros Heq. injection Heq as <- <-. apply Hnot. exists 0%nat.
      split; [lia |]. split; [lia | reflexivity].
    - intros (k & Hk & -> & ->). apply Hnot. exists (S k).
      split; [lia |]. split; [lia | reflexivity]. }
  destruct (Z.rem ci 2 =? 1); apply Hstep.
Qed.

Lemma tree_insert_unfold (leaf : Z) (t : tree) :
  insert H leaf t
  = (Ok (nextIndex t),
     let t' := updatePath_loop H TREE_DEPTH 0 (nextIndex t) leaf
                 (setLeaf t (nextIndex t) leaf) in
     mkTree (leaves t') (nodes t') (nextIndex t' + 1)).
Proof.
  unfold insert, updatePath. cbv zeta.
  replace (leaves (setLeaf t (nextIndex t) leaf) !! nextIndex t) with (Some leaf)
    by (unfold setLeaf; cbn [leaves]; symmetry; apply lookup_insert_eq).
  reflexivity.
Qed.

(** X27: the generator's [insert] never throws: it stores the leaf at
    [nextIndex] and counts it.  Once [2 ^ TREE_DEPTH] leaves are in, it
    still does so, and the root no longer changes. *)
Theorem insert_unguarded (leaf : Z) (t : tree) :
  0 <= nextIndex t < SAFE_LIMIT ->
  exists t' : tree,
    insert H leaf t = (Ok (nextIndex t), t') /\
    leaves t' = <[nextIndex t := leaf]> (leaves t) /\
    nextIndex t' = nextIndex t + 1 /\
    (IMT.MAX_LEAVES <= nextIndex t -> getRoot H t' = getRoot H t).
Proof.
  intros Hn. rewrite tree_insert_unfold. cbv zeta.
  eexists. split; [reflexivity |].
  destruct (tree_updatePath_loop_leaves TREE_DEPTH 0 (nextIndex t) leaf
              (setLeaf t (nextIndex t) leaf)) as [Hl Hc].
  cbn [leaves nextIndex]. rewrite Hl, Hc.
  change (nextIndex (setLeaf t (nextIndex t) leaf)) with (nextIndex t).
  split; [reflexivity |]. split; [reflexivity |].
  intros Hfull. unfold getRoot, getNode. cbn [nextIndex nodes].
  assert (Hmax : 0 < IMT.MAX_LEAVES) by reflexivity.
  destruct (Z.eqb_spec (nextIndex t + 1) 0) as [| _]; [lia |].
  destruct (Z.eqb_spec (nextIndex t) 0) as [| _]; [lia |].
  rewrite tree_updatePath_loop_other_nodes; [reflexivity |].
  change (nextIndex (setLeaf t (nextIndex t) leaf)) with (nextIndex t).
  intros (k & Hk & Hlevel & Hj).
  assert (k = 19%nat) as -> by (unfold TREE_DEPTH in Hlevel; lia).
  rewrite IMT.halve_div in Hj.
  assert (0 < nextIndex t / 2 ^ Z.of_nat 20); [| lia].
  apply Z.div_str_pos. exact (conj Hmax Hfull).
Qed.

(** ** Agreement with merkle_tree.ts, for a library that returns values
    that are not negative *)

Hypothesis poseidon2Hash_nonneg : forall inputs : list Z, 0 <= H inputs.

Lemma realPoseidon2Hash_eq (inputs : list Z) :
  realPoseidon2Hash H inputs = IMT.poseidon2 H inputs.
Proof.
  unfold realPoseidon2Hash, IMT.poseidon2, FIELD_PRIME. cbv zeta.
  change (map toPositiveField inputs) with (map fmod inputs).
  apply tree_rem_fmod, Z.rem_nonneg; [discriminate | apply poseidon2Hash_nonneg].
Qed.

Lemma hashPair_eq (l r : Z) : hashPair H l r = IMT.hashPair H l r.
Proof. apply realPoseidon2Hash_eq. Qed.

Lemma hashLeaf_eq (s : Z) : hashLeaf H s = IMT.hashLeaf H s.
Proof. apply realPoseidon2Hash_eq. Qed.

Lemma getZeroValue_eq : getZeroValue H = IMT.getZeroValue H.
Proof. apply realPoseidon2Hash_eq. Qed.

Lemma computeZeroHashes_loop_eq (fuel : nat) :
  forall (i : nat) (zs : list Z),
    computeZeroHashes_loop H fuel i zs = IMT.computeZeroHashes_loop H fuel i zs.
Proof.
  induction fuel as [| fuel IH]; intros i zs; [reflexivity |].
  cbn [computeZeroHashes_loop IMT.computeZeroHashes_loop].
  rewrite hashPair_eq. apply IH.
Qed.

Lemma ZERO_HASHES_eq : ZERO_HASHES H = IMT.ZERO_HASHES H.
Proof.
  unfold ZERO_HASHES, IMT.ZERO_HASHES, computeZeroHashes, IMT.computeZeroHashes.
  cbv zeta. rewrite getZeroValue_eq, TREE_DEPTH_same. apply computeZeroHashes_loop_eq.
Qed.

Lemma updatePath_loop_eq (fuel : nat) :
  forall (level : nat) (ci ch : Z) (t : tree),
    updatePath_loop H fuel level ci ch t = IMT.updatePath_loop H fuel level ci ch t.
Proof.
  induction fuel as [| fuel IH]; intros level ci ch t; [reflexivity |].
  cbn [updatePath_loop IMT.updatePath_loop]. cbv zeta.
  rewrite getZeroValue_eq, ZERO_HASHES_eq.
  destruct (Z.rem ci 2 =? 1); rewrite hashPair_eq; apply IH.
Qed.

Lemma getMerklePath_loop_eq (fuel : nat) :
  forall (level : nat) (ci : Z) (t : tree) (path pathIndices : list Z),
    getMerklePath_loop H fuel level ci t path pathIndices
    = IMT.getMerklePath_loop H fuel level ci t path pathIndices.
Proof.
  induction fuel as [| fuel IH]; intros level ci t path pathIndices; [reflexivity |].
  cbn [getMerklePath_loop IMT.getMerklePath_loop]. cbv zeta.
  rewrite getZeroValue_eq, ZERO_HASHES_eq. apply IH.
Qed.

Lemma getRoot_eq (t : tree) : getRoot H t = IMT.getRoot H t.
Proof.
  unfold getRoot, IMT.getRoot. rewrite ZERO_HASHES_eq, TREE_DEPTH_same. reflexivity.
Qed.

Lemma insert_eq (leaf : Z) (t : tree) :
  nextIndex t < IMT.MAX_LEAVES -> insert H leaf t = IMT.insert H leaf t.
Proof.
  intros Hroom. rewrite IMT.insert_room by exact Hroom.
  rewrite tree_insert_unfold. cbv zeta.
  rewrite updatePath_loop_eq, TREE_DEPTH_same. reflexivity.
Qed.

Lemma createIncrementalIMT_loop_eq (newSecrets : list Z) :
  forall t : tree,
    nextIndex t + Z.of_nat (length newSecrets) <= IMT.MAX_LEAVES ->
    createIncrementalIMT_loop H newSecrets t
    = Ok (IMT.insert_all H (map (IMT.hashLeaf H) newSecrets) t).
Proof.
  induction newSecrets as [| s ss IH]; intros t Hroom; [reflexivity |].
  cbn [length] in Hroom. rewrite Nat2Z.inj_succ in Hroom.
  cbn [createIncrementalIMT_loop map]. cbv zeta.
  unfold IMT.insert_all. cbn [foldl].
  fold (IMT.insert_all H (map (IMT.hashLeaf H) ss)
          (snd (IMT.insert H (IMT.hashLeaf H s) t))).
  fold (hashLeaf H s). rewrite hashLeaf_eq, insert_eq by lia.
  destruct (IMT.insert_room_fields H (IMT.hashLeaf H s) t) as [_ Hn]; [lia |].
  rewrite IMT.insert_room in * by lia. cbv zeta in *. cbn [snd] in *.
  apply IH. lia.
Qed.

(** X26: below the capacity, [createIncrementalIMT] builds exactly the
    tree that merkle_tree.ts builds by [insertMember] on the same
    secrets, and the two [getRoot] read the same root from it. *)
Theorem createIncrementalIMT_agrees (existingTree : option tree)
    (newSecrets : list Z) :
  nextIndex (default new_tree existingTree) + Z.of_nat (length newSecrets)
  <= IMT.MAX_LEAVES ->
  exists t : tree,
    createIncrementalIMT H existingTree newSecrets = Ok t /\
    t = IMT.insert_all H (map (IMT.hashLeaf H) newSecrets)
          (default new_tree existingTree) /\
    getRoot H t = IMT.getRoot H t.
Proof.
  intros Hroom. eexists. split; [| split; [reflexivity |]].
  - unfold createIncrementalIMT. cbv zeta. apply createIncrementalIMT_loop_eq, Hroom.
  - apply getRoot_eq.
Qed.

(** ** [generateTestData] and [validateCircuitInputs] *)

Lemma insert_testSecrets_eq (secrets : list Z) :
  forall t : tree,
    insert_testSecrets H secrets t = createIncrementalIMT_loop H secrets t.
Proof.
  induction secrets as [| s ss IH]; intros t; [reflexivity |].
  cbn [insert_testSecrets createIncrementalIMT_loop]. cbv zeta.
  fold (hashLeaf H s). destruct (insert H (hashLeaf H s) t) as [[i | e] t']; [apply IH | reflexivity].
Qed.

Lemma validate_climb_eq (fuel : nat) :
  forall (i : nat) (path pathIndices : list Z) (currentHash : Z) (calls : nat),
    (i + fuel <= length path)%nat -> (i + fuel <= length pathIndices)%nat ->
    validate_climb H fuel i path pathIndices currentHash
    = Ok (fst (IMT.climb_loop H fuel i path pathIndices currentHash calls)).
Proof.
  induction fuel as [| fuel IH]; intros i path pathIndices cur calls Hp Hi;
    [reflexivity |].
  cbn [validate_climb IMT.climb_loop]. cbv zeta.
  destruct (lookup_lt_is_Some_2 path i) as [p Hpi]; [lia |].
  destruct (lookup_lt_is_Some_2 pathIndices i) as [b Hbi]; [lia |].
  unfold arr_get. rewrite Hpi, Hbi. cbn [default]. unfold id.
  destruct (Z.eqb_spec b 1) as [-> | Hne].
  - rewrite bool_decide_eq_true_2 by reflexivity.
    rewrite hashPair_eq. apply IH; lia.
  - rewrite bool_decide_eq_false_2 by congruence.
    rewrite hashPair_eq. apply IH; lia.
Qed.

Lemma validate_index_eq (fuel : nat) :
  forall (i : nat) (pathIndices : list Z) (acc pow : Z),
    (i + fuel <= length pathIndices)%nat ->
    validate_index fuel i pathIndices acc pow
    = Ok (IMT.reconstruct_loop fuel i pathIndices acc pow).
Proof.
  induction fuel as [| fuel IH]; intros i pathIndices acc pow Hi; [reflexivity |].
  cbn [validate_index IMT.reconstruct_loop].
  destruct (lookup_lt_is_Some_2 pathIndices i) as [b Hbi]; [lia |].
  unfold arr_get. rewrite Hbi. cbn [default]. unfold id. apply IH. lia.
Qed.

Lemma validateCircuitInputs_of_verify (d : testData) :
  IMT.verifyMerkleProof H (IMT.hashLeaf H (secret d)) (userIndex d) (merklePath d)
    (pathIndices d) (merkleRoot d) = true ->
  nullifier d = realPoseidon2Hash H [secret d; verifierKey d] ->
  validateCircuitInputs H d = Ok true.
Proof.
  unfold IMT.verifyMerkleProof, IMT.verifyMerkleProof_counted, validateCircuitInputs.
  cbv zeta.
  destruct (Nat.eqb_spec (length (merklePath d)) IMT.TREE_DEPTH) as [Hlp | _];
    [| cbn [negb orb fst]; discriminate].
  destruct (Nat.eqb_spec (length (pathIndices d)) IMT.TREE_DEPTH) as [Hli | _];
    [| cbn [negb orb fst]; discriminate].
  cbn [negb orb].
  rewrite TREE_DEPTH_same, hashLeaf_eq.
  rewrite (validate_climb_eq IMT.TREE_DEPTH 0 _ _ _ 0) by lia.
  rewrite validate_index_eq by lia.
  generalize (IMT.reconstruct_loop IMT.TREE_DEPTH 0 (pathIndices d) 0 1).
  intros r. destruct (r =? userIndex d); cbn [negb fst]; [| discriminate].
  generalize (IMT.climb_loop H IMT.TREE_DEPTH 0 (merklePath d) (pathIndices d)
                (IMT.hashLeaf H (secret d)) 0).
  intros [h c]. cbn [fst]. intros -> ->. rewrite Z.eqb_refl. reflexivity.
Qed.

Lemma generateTestData_from_unfold (secrets : list Z) (secret verifierKey : Z) :
  Z.of_nat (length secrets) < IMT.MAX_LEAVES ->
  exists t : tree,
    IMT.wf H t /\
    leaves t !! Z.of_nat (length secrets) = Some (IMT.hashLeaf H secret) /\
    generateTestData_from H secrets secret verifierKey
    = Ok (mkTestData secret (Z.of_nat (length secrets)) (IMT.getRoot H t)
            (fst (IMT.getMerklePath_loop H IMT.TREE_DEPTH 0
                    (Z.of_nat (length secrets)) t [] []))
            (snd (IMT.getMerklePath_loop H IMT.TREE_DEPTH 0
                    (Z.of_nat (length secrets)) t [] []))
            (realPoseidon2Hash H [secret; verifierKey]) verifierKey).
Proof.
  intros Hlen.
  unfold generateTestData_from.
  rewrite insert_testSecrets_eq, createIncrementalIMT_loop_eq
    by (cbn [new_tree nextIndex]; lia).
  destruct (IMT.insert_all_spec H (map (IMT.hashLeaf H) secrets) new_tree (IMT.wf_new H))
    as (Hwf1 & Hn1 & _ & _).
  { cbn [new_tree nextIndex]. rewrite length_map. lia. }
  rewrite length_map in Hn1. cbn [new_tree nextIndex] in Hn1. rewrite Z.add_0_l in Hn1.
  generalize dependent (IMT.insert_all H (map (IMT.hashLeaf H) secrets) new_tree).
  intros t1 Hwf1 Hn1. cbv zeta.
  rewrite hashLeaf_eq, insert_eq by lia.
  pose proof (IMT.wf_insert H (IMT.hashLeaf H secret) t1 Hwf1) as Hwf2.
  destruct (IMT.insert_room_fields H (IMT.hashLeaf H secret) t1) as [Hl2 _]; [lia |].
  assert (Hins : IMT.insert H (IMT.hashLeaf H secret) t1
                 = (Ok (nextIndex t1), snd (IMT.insert H (IMT.hashLeaf H secret) t1))).
  { rewrite IMT.insert_room by lia. reflexivity. }
  rewrite Hins.
  generalize dependent (snd (IMT.insert H (IMT.hashLeaf H secret) t1)).
  intros t2 Hwf2 Hl2 _.
  exists t2. split; [exact Hwf2 |]. split.
  { rewrite Hl2, <- Hn1. apply lookup_insert_eq. }
  unfold getMerklePath. rewrite getMerklePath_loop_eq, getRoot_eq, TREE_DEPTH_same, Hn1.
  destruct (IMT.getMerklePath_loop H IMT.TREE_DEPTH 0 (Z.of_nat (length secrets)) t2 [] []).
  reflexivity.
Qed.

(** X28: whatever the secrets of the configuration (fewer than the
    capacity), the user's secret and the verifier's key,
    [generateTestData] returns, places the user after the configured
    secrets, and [validateCircuitInputs] accepts what it returned. *)
Theorem generateTestData_validates (secrets : list Z) (secret verifierKey : Z) :
  Z.of_nat (length secrets) < IMT.MAX_LEAVES ->
  exists d : testData,
    generateTestData_from H secrets secret verifierKey = Ok d /\
    userIndex d = Z.of_nat (length secrets) /\
    validateCircuitInputs H d = Ok true.
Proof.
  intros Hlen.
  destruct (generateTestData_from_unfold secrets secret verifierKey Hlen)
    as (t & Hwf & Hleaf & Hgen).
  eexists. split; [exact Hgen |]. split; [reflexivity |].
  apply validateCircuitInputs_of_verify; [| reflexivity].
  cbn [IMTGenerator.secret userIndex merklePath IMTGenerator.pathIndices merkleRoot].
  unfold IMT.verifyMerkleProof.
  rewrite (IMT.verify_path_of H t (Z.of_nat (length secrets)) (IMT.hashLeaf H secret));
    [reflexivity | apply (IMT.wf_consistent H _ Hwf) | lia | | exact Hleaf
    | apply IMT.getMerklePath_is_path].
  pose proof (proj1 (IMT.wf_leaves H _ Hwf (Z.of_nat (length secrets)))
                (ex_intro _ _ Hleaf)). lia.
Qed.

End Facts.

End IMTGeneratorFacts.

Module IMTGeneratorTests.
Import Field IMTGenerator.

(** A stand-in for the library that returns no negative value. *)
Definition nonneg_hash (inputs : list Z) : Z := Z.abs (IMTTests.toy_hash inputs).

Lemma nonneg_hash_nonneg (inputs : list Z) : 0 <= nonneg_hash inputs.
Proof. apply Z.abs_nonneg. Qed.

(** A tree that holds as many leaves as the circuit can address. *)
Definition full_tree : IMT.tree := IMT.mkTree ∅ ∅ IMT.MAX_LEAVES.

Lemma insert_unguarded_witness :
  exists t' : IMT.tree,
    insert nonneg_hash 5 full_tree = (IMT.Ok (IMT.nextIndex full_tree), t') /\
    IMT.leaves t' = <[IMT.nextIndex full_tree := 5]> (IMT.leaves full_tree) /\
    IMT.nextIndex t' = IMT.nextIndex full_tree + 1 /\
    (IMT.MAX_LEAVES <= IMT.nextIndex full_tree ->
     getRoot nonneg_hash t' = getRoot nonneg_hash full_tree).
Proof.
  apply (IMTGeneratorFacts.insert_unguarded nonneg_hash 5 full_tree).
  vm_compute. split; [discriminate | reflexivity].
Defined.

Lemma createIncrementalIMT_agrees_witness :
  exists t : IMT.tree,
    createIncrementalIMT nonneg_hash None [1; 2; 3] = IMT.Ok t /\
    t = IMT.insert_all nonneg_hash (map (IMT.hashLeaf nonneg_hash) [1; 2; 3])
          (default IMT.new_tree None) /\
    getRoot nonneg_hash t = IMT.getRoot nonneg_hash t.
Proof.
  apply (IMTGeneratorFacts.createIncrementalIMT_agrees nonneg_hash nonneg_hash_nonneg
           None [1; 2; 3]).
  vm_compute. discriminate.
Defined.

Lemma generateTestData_validates_witness :
  exists d : testData,
    generateTestData nonneg_hash 42 7 = IMT.Ok d /\
    userIndex d = 3 /\
    validateCircuitInputs nonneg_hash d = IMT.Ok true.
Proof.
  apply (IMTGeneratorFacts.generateTestData_validates nonneg_hash nonneg_hash_nonneg
           testSecrets 42 7).
  vm_compute. reflexivity.
Defined.

End IMTGeneratorTests.

(** * [addSecretsToBatches] on the store computes what it computes on values *)

Module BatchRefine.
Import Field Poly Store Batch BatchStore StoreFacts.

Local Open Scope nat_scope.

(** The arrays at [ls] hold the lists [vs], one each. *)
Definition holds (σ : store) (ls : list loc) (vs : list (list Z)) : Prop :=
  Forall2 (fun l v => σ !! l = Some (BigArr v)) ls vs.

(** The three objects at [h] hold the state [st]. *)
Record represents (σ : store) (h : handles) (st : state) : Prop := mkRepresents {
  rep_batches :
    exists bl, σ !! h_batches h = Some (RefArr bl) /\ holds σ bl (batches st);
  rep_roots :
    exists rl, σ !! h_batchRoots h = Some (RefArr rl) /\ holds σ rl (batchRoots st);
  rep_map : σ !! h_userMap h = Some (StrMap (userMap st));
}.

(** ** Running the primitives *)

Lemma bind_run {A B : Type} (c : M A) (k : A -> M B) (σ σ1 : store) (a : A) :
  c σ = (Done a, σ1) -> (c ≫= k) σ = k a σ1.
Proof. intros Hc. unfold mbind, M_bind. rewrite Hc. reflexivity. Qed.

Lemma bind_thrown {A B : Type} (c : M A) (k : A -> M B) (σ σ1 : store) :
  c σ = (Thrown, σ1) -> (c ≫= k) σ = (Thrown, σ1).
Proof. intros Hc. unfold mbind, M_bind. rewrite Hc. reflexivity. Qed.

Lemma read_big_run (σ : store) (l : loc) (xs : list Z) :
  σ !! l = Some (BigArr xs) -> read_big l σ = (Done xs, σ).
Proof. intros Hl. unfold read_big. rewrite Hl. reflexivity. Qed.

Lemma read_refs_run (σ : store) (l : loc) (rs : list loc) :
  σ !! l = Some (RefArr rs) -> read_refs l σ = (Done rs, σ).
Proof. intros Hl. unfold read_refs. rewrite Hl. reflexivity. Qed.

Lemma read_map_run (σ : store) (l : loc) (m : gmap string nat) :
  σ !! l = Some (StrMap m) -> read_map l σ = (Done m, σ).
Proof. intros Hl. unfold read_map. rewrite Hl. reflexivity. Qed.

Lemma push_big_run (σ : store) (l : loc) (xs : list Z) (x : Z) :
  σ !! l = Some (BigArr xs) ->
  push_big l x σ = (Done tt, <[l := BigArr (xs ++ [x])]> σ).
Proof.
  intros Hl. unfold push_big. rewrite (bind_run _ _ _ _ _ (read_big_run _ _ _ Hl)).
  reflexivity.
Qed.

Lemma push_ref_run (σ : store) (arr : loc) (rs : list loc) (l : loc) :
  σ !! arr = Some (RefArr rs) ->
  push_ref arr l σ = (Done tt, <[arr := RefArr (rs ++ [l])]> σ).
Proof.
  intros Hl. unfold push_ref. rewrite (bind_run _ _ _ _ _ (read_refs_run _ _ _ Hl)).
  reflexivity.
Qed.

Lemma get_ref_run (σ : store) (arr : loc) (rs : list loc) (i : nat) :
  σ !! arr = Some (RefArr rs) ->
  get_ref arr i σ = match rs !! i with Some l => (Done l, σ) | None => (Thrown, σ) end.
Proof.
  intros Hl. unfold get_ref. rewrite (bind_run _ _ _ _ _ (read_refs_run _ _ _ Hl)).
  destruct (rs !! i); reflexivity.
Qed.

Lemma set_ref_run (σ : store) (arr : loc) (rs : list loc) (i : nat) (l : loc) :
  σ !! arr = Some (RefArr rs) ->
  set_ref arr i l σ = (Done tt, <[arr := RefArr (<[i := l]> rs)]> σ).
Proof.
  intros Hl. unfold set_ref. rewrite (bind_run _ _ _ _ _ (read_refs_run _ _ _ Hl)).
  reflexivity.
Qed.

Lemma map_set_run (σ : store) (map : loc) (m : gmap string nat) (key : string)
    (value : nat) :
  σ !! map = Some (StrMap m) ->
  map_set map key value σ = (Done tt, <[map := StrMap (<[key := value]> m)]> σ).
Proof.
  intros Hl. unfold map_set. rewrite (bind_run _ _ _ _ _ (read_map_run _ _ _ Hl)).
  reflexivity.
Qed.

Lemma addRoot_st_run (σ : store) (b : loc) (P : list Z) (s : Z) :
  σ !! b = Some (BigArr P) ->
  addRoot_st b s σ
  = (Done (fresh (dom σ)), <[fresh (dom σ) := BigArr (addRoot P s)]> σ).
Proof.
  intros Hl. unfold addRoot_st. rewrite (bind_run _ _ _ _ _ (read_big_run _ _ _ Hl)).
  reflexivity.
Qed.

Lemma fresh_ne (σ : store) (l : loc) : is_Some (σ !! l) -> l <> fresh (dom σ).
Proof.
  intros Hl ->. rewrite fresh_not_in_store in Hl. destruct Hl; discriminate.
Qed.

Lemma holds_lookup (σ : store) (ls : list loc) (vs : list (list Z)) (i : nat)
    (l : loc) (v : list Z) :
  holds σ ls vs -> ls !! i = Some l -> vs !! i = Some v -> σ !! l = Some (BigArr v).
Proof. intros Hh Hl Hv. exact (Forall2_lookup_lr _ _ _ _ _ _ Hh Hl Hv). Qed.

Lemma holds_allocated (σ : store) (ls : list loc) (vs : list (list Z)) (l : loc) :
  holds σ ls vs -> l ∈ ls -> exists v, σ !! l = Some (BigArr v).
Proof.
  intros Hh Hl. apply list_elem_of_lookup in Hl as [i Hi].
  destruct (Forall2_lookup_l _ _ _ _ _ Hh Hi) as (v & _ & Hv). eauto.
Qed.

Lemma holds_frame (σ σ' : store) (ls : list loc) (vs : list (list Z)) :
  holds σ ls vs -> (forall l, l ∈ ls -> σ' !! l = σ !! l) -> holds σ' ls vs.
Proof.
  intros Hh Hsame. apply Forall2_same_length_lookup_2.
  - apply (Forall2_length _ _ _ Hh).
  - intros i l v Hl Hv. rewrite Hsame by (eapply list_elem_of_lookup_2, Hl).
    eapply holds_lookup; eassumption.
Qed.

Lemma holds_snoc (σ : store) (ls : list loc) (vs : list (list Z)) (l : loc)
    (v : list Z) :
  holds σ ls vs -> σ !! l = Some (BigArr v) -> holds σ (ls ++ [l]) (vs ++ [v]).
Proof.
  intros Hh Hl. apply Forall2_app; [exact Hh |]. constructor; [exact Hl | constructor].
Qed.

(** ** The loop *)

Section Loop.

Variables (cb cr u : loc).

(** While the loop runs: [currentBatches] and [currentRoots] are two
    arrays, the root lists are objects of their own, one per batch, and
    none of them is a polynomial. *)
Record live (bl rl : list loc) (σ : store) (st : state) : Prop := mkLive {
  live_cb : σ !! cb = Some (RefArr bl);
  live_batches : holds σ bl (batches st);
  live_cr : σ !! cr = Some (RefArr rl);
  live_roots : holds σ rl (batchRoots st);
  live_nodup : NoDup rl;
  live_apart : forall l, l ∈ rl -> l ∉ bl;
  live_distinct : cb <> cr;
  live_map : σ !! u = Some (StrMap (userMap st));
}.

Lemma live_hit (bl rl : list loc) (σ : store) (st : state) (i : nat) (r b : loc)
    (v poly : list Z) (secret : Z) :
  live bl rl σ st ->
  rl !! i = Some r -> batchRoots st !! i = Some v ->
  bl !! i = Some b -> batches st !! i = Some poly ->
  let σ1 := <[r := BigArr (v ++ [secret])]> σ in
  let l' := fresh (dom σ1) in
  live (<[i := l']> bl) rl
    (<[u := StrMap (<[pretty secret := i]> (userMap st))]>
       (<[cb := RefArr (<[i := l']> bl)]>
          (<[l' := BigArr (addRoot poly secret)]> σ1)))
    (mkState (<[i := addRoot poly secret]> (batches st))
             (<[i := v ++ [secret]]> (batchRoots st))
             (<[pretty secret := i]> (userMap st))).
Proof.
  intros [Hcb Hb Hcr Hr Hnd Hap Hd Hu] Hri Hvi Hbi Hpi σ1 l'.
  pose proof (holds_lookup _ _ _ _ _ _ Hr Hri Hvi) as Hσr.
  assert (Hrcb : r <> cb) by congruence.
  assert (Hrcr : r <> cr) by congruence.
  assert (Hru : r <> u) by congruence.
  assert (Hcbu : cb <> u) by congruence.
  assert (Hcru : cr <> u) by congruence.
  assert (Hold : forall l, is_Some (σ !! l) -> l <> l').
  { intros l Hl. apply fresh_ne. unfold σ1.
    destruct (decide (r = l)) as [-> | Hne];
      [rewrite lookup_insert_eq; eauto | rewrite lookup_insert_ne by exact Hne; exact Hl]. }
  assert (Hl'cb : cb <> l') by (apply Hold; eauto).
  assert (Hl'cr : cr <> l') by (apply Hold; eauto).
  assert (Hl'u : u <> l') by (apply Hold; eauto).
  assert (Hl'r : r <> l') by (apply Hold; eauto).
  split; cbn [batches batchRoots userMap].
  - rewrite lookup_insert_ne by congruence. apply lookup_insert_eq.
  - apply Forall2_same_length_lookup_2.
    { rewrite !length_insert. apply (Forall2_length _ _ _ Hb). }
    intros j x y Hx Hy. destruct (decide (j = i)) as [-> | Hji].
    + rewrite list_lookup_insert_eq in Hx by (eapply lookup_lt_Some, Hbi).
      rewrite list_lookup_insert_eq in Hy by (eapply lookup_lt_Some, Hpi).
      injection Hx as <-. injection Hy as <-.
      rewrite !lookup_insert_ne by congruence. apply lookup_insert_eq.
    + rewrite list_lookup_insert_ne in Hx by congruence.
      rewrite list_lookup_insert_ne in Hy by congruence.
      pose proof (holds_lookup _ _ _ _ _ _ Hb Hx Hy) as Hσx.
      assert (x <> r).
      { intros ->. apply (Hap r); eapply list_elem_of_lookup_2; eassumption. }
      assert (x <> l') by (apply Hold; eauto).
      unfold σ1. rewrite !lookup_insert_ne by congruence. exact Hσx.
  - unfold σ1. rewrite !lookup_insert_ne by congruence. exact Hcr.
  - apply Forall2_same_length_lookup_2.
    { rewrite length_insert. apply (Forall2_length _ _ _ Hr). }
    intros j x y Hx Hy. destruct (decide (j = i)) as [-> | Hji].
    + rewrite list_lookup_insert_eq in Hy by (eapply lookup_lt_Some, Hvi).
      injection Hy as <-. rewrite Hri in Hx. injection Hx as <-.
      unfold σ1. rewrite !lookup_insert_ne by congruence. apply lookup_insert_eq.
    + rewrite list_lookup_insert_ne in Hy by congruence.
      pose proof (holds_lookup _ _ _ _ _ _ Hr Hx Hy) as Hσx.
      assert (x <> r).
      { intros ->. apply Hji. eapply NoDup_lookup; eassumption. }
      assert (x <> l') by (apply Hold; eauto).
      unfold σ1. rewrite !lookup_insert_ne by congruence. exact Hσx.
  - exact Hnd.
  - intros l Hl Hin. apply list_elem_of_lookup in Hin as [j Hj].
    destruct (decide (j = i)) as [-> | Hji].
    + rewrite list_lookup_insert_eq in Hj by (eapply lookup_lt_Some, Hbi).
      injection Hj as <-.
      destruct (holds_allocated _ _ _ _ Hr Hl) as [w Hw].
      apply (Hold l'); eauto.
    + rewrite list_lookup_insert_ne in Hj by congruence.
      apply (Hap l Hl). eapply list_elem_of_lookup_2, Hj.
  - exact Hd.
  - apply lookup_insert_eq.
Qed.

Lemma scan_st_refines (secret : Z) (rest_v : list (list Z)) :
  forall (rest_l pre_l : list loc) (pre_v : list (list Z)) (bl rl : list loc)
         (σ : store) (st : state),
    live bl rl σ st ->
    rl = pre_l ++ rest_l -> batchRoots st = pre_v ++ rest_v ->
    length pre_l = length pre_v ->
    match scan st secret rest_v (length pre_v) with
    | None => exists σ', scan_st cb u secret rest_l (length pre_v) σ = (Thrown, σ')
    | Some (true, st') =>
        exists σ' bl',
          scan_st cb u secret rest_l (length pre_v) σ = (Done true, σ') /\
          live bl' rl σ' st'
    | Some (false, st') =>
        st' = st /\ scan_st cb u secret rest_l (length pre_v) σ = (Done false, σ)
    end.
Proof.
  induction rest_v as [| v rest_v IH];
    intros rest_l pre_l pre_v bl rl σ st Hlive Hrl Hroots Hpre.
  - pose proof (Forall2_length _ _ _ (live_roots _ _ _ _ Hlive)) as Hlen.
    rewrite Hrl, Hroots, !length_app in Hlen. cbn [length] in Hlen.
    destruct rest_l; [| cbn [length] in Hlen; lia].
    cbn. split; reflexivity.
  - pose proof (Forall2_length _ _ _ (live_roots _ _ _ _ Hlive)) as Hlen.
    rewrite Hrl, Hroots, !length_app in Hlen. cbn [length] in Hlen.
    destruct rest_l as [| r rest_l]; [cbn [length] in Hlen; lia |].
    assert (Hri : rl !! length pre_v = Some r).
    { rewrite Hrl. apply list_lookup_middle. congruence. }
    assert (Hvi : batchRoots st !! length pre_v = Some v).
    { rewrite Hroots. apply list_lookup_middle. reflexivity. }
    pose proof (holds_lookup _ _ _ _ _ _ (live_roots _ _ _ _ Hlive) Hri Hvi) as Hσr.
    cbn [scan scan_st].
    rewrite (bind_run _ _ _ _ _ (read_big_run _ _ _ Hσr)).
    destruct (length v <? MAX_POLY_DEGREE) eqn:Hfit.
    + rewrite (bind_run _ _ _ _ _ (push_big_run _ _ _ secret Hσr)).
      pose proof (live_cb _ _ _ _ Hlive) as Hcb.
      assert (Hcb1 : <[r := BigArr (v ++ [secret])]> σ !! cb = Some (RefArr bl)).
      { rewrite lookup_insert_ne by congruence. exact Hcb. }
      pose proof (Forall2_length _ _ _ (live_batches _ _ _ _ Hlive)) as Hlenb.
      destruct (batches st !! length pre_v) as [poly |] eqn:Hpi.
      * destruct (Forall2_lookup_r _ _ _ _ _ (live_batches _ _ _ _ Hlive) Hpi)
          as (b & Hbi & Hσb).
        rewrite (bind_run _ _ (<[r := BigArr (v ++ [secret])]> σ)
                   (<[r := BigArr (v ++ [secret])]> σ) b)
          by (rewrite (get_ref_run _ _ _ _ Hcb1), Hbi; reflexivity).
        assert (Hσb1 : <[r := BigArr (v ++ [secret])]> σ !! b = Some (BigArr poly)).
        { rewrite lookup_insert_ne; [exact Hσb |]. intros ->.
          apply (live_apart _ _ _ _ Hlive b); eapply list_elem_of_lookup_2; eassumption. }
        rewrite (bind_run _ _ _ _ _ (addRoot_st_run _ _ _ secret Hσb1)).
        pose proof (live_hit bl rl σ st (length pre_v) r b v poly secret
                      Hlive Hri Hvi Hbi Hpi) as Hnew.
        cbv zeta in Hnew.
        set (σ1 := <[r := BigArr (v ++ [secret])]> σ) in *.
        set (l' := fresh (dom σ1)) in *.
        assert (Hcb2 : <[l' := BigArr (addRoot poly secret)]> σ1 !! cb = Some (RefArr bl)).
        { rewrite lookup_insert_ne; [exact Hcb1 |].
          intros Heq. symmetry in Heq. revert Heq. apply fresh_ne. eauto. }
        rewrite (bind_run _ _ _ _ _ (set_ref_run _ _ _ (length pre_v) l' Hcb2)).
        assert (Hu3 : <[cb := RefArr (<[length pre_v := l']> bl)]>
                        (<[l' := BigArr (addRoot poly secret)]> σ1) !! u
                      = Some (StrMap (userMap st))).
        { pose proof (live_map _ _ _ _ Hlive) as Hu.
          assert (Hu1 : σ1 !! u = Some (StrMap (userMap st))).
          { unfold σ1. rewrite lookup_insert_ne by congruence. exact Hu. }
          rewrite lookup_insert_ne by congruence.
          rewrite lookup_insert_ne; [exact Hu1 |].
          intros Heq. symmetry in Heq. revert Heq. apply fresh_ne. eauto. }
        rewrite (bind_run _ _ _ _ _ (map_set_run _ _ _ (pretty secret) (length pre_v) Hu3)).
        eexists _, _. split; [reflexivity | exact Hnew].
      * assert (Hbi : bl !! length pre_v = None).
        { apply lookup_ge_None. rewrite Hlenb. apply lookup_ge_None, Hpi. }
        eexists. apply bind_thrown.
        rewrite (get_ref_run _ _ _ _ Hcb1), Hbi. reflexivity.
    + replace (S (length pre_v)) with (length (pre_v ++ [v]))
        by (rewrite length_app; cbn [length]; lia).
      apply (IH rest_l (pre_l ++ [r]) (pre_v ++ [v]) bl rl σ st Hlive).
      * rewrite <- app_assoc. exact Hrl.
      * rewrite <- app_assoc. exact Hroots.
      * rewrite !length_app. cbn [length]. lia.
Qed.

Lemma live_new (bl rl : list loc) (σ : store) (st : state) (secret : Z) :
  live bl rl σ st ->
  let nr := fresh (dom σ) in
  let σ1 := <[nr := BigArr [secret]]> σ in
  let one := fresh (dom σ1) in
  let σ2 := <[one := BigArr [1%Z]]> σ1 in
  let np := fresh (dom σ2) in
  let σ3 := <[np := BigArr (addRoot [1%Z] secret)]> σ2 in
  live (bl ++ [np]) (rl ++ [nr])
    (<[u := StrMap (<[pretty secret := length (rl ++ [nr]) - 1]> (userMap st))]>
       (<[cb := RefArr (bl ++ [np])]> (<[cr := RefArr (rl ++ [nr])]> σ3)))
    (mkState (batches st ++ [addRoot [1%Z] secret]) (batchRoots st ++ [[secret]])
       (<[pretty secret := length (batchRoots st ++ [[secret]]) - 1]> (userMap st))).
Proof.
  intros [Hcb Hb Hcr Hr Hnd Hap Hd Hu] nr σ1 one σ2 np σ3.
  assert (Hcbu : cb <> u) by congruence.
  assert (Hcru : cr <> u) by congruence.
  assert (H1 : forall l, is_Some (σ !! l) -> l <> nr) by (intros l; apply fresh_ne).
  assert (Hσ1 : forall l, is_Some (σ !! l) -> σ1 !! l = σ !! l).
  { intros l Hl. unfold σ1. apply lookup_insert_ne. intros Heq. apply (H1 l Hl). congruence. }
  assert (Hnr1 : σ1 !! nr = Some (BigArr [secret])) by apply lookup_insert_eq.
  assert (H2 : forall l, is_Some (σ1 !! l) -> l <> one) by (intros l; apply fresh_ne).
  assert (Hσ2 : forall l, is_Some (σ1 !! l) -> σ2 !! l = σ1 !! l).
  { intros l Hl. unfold σ2. apply lookup_insert_ne. intros Heq. apply (H2 l Hl). congruence. }
  assert (H3 : forall l, is_Some (σ2 !! l) -> l <> np) by (intros l; apply fresh_ne).
  assert (Hσ3 : forall l, is_Some (σ2 !! l) -> σ3 !! l = σ2 !! l).
  { intros l Hl. unfold σ3. apply lookup_insert_ne. intros Heq. apply (H3 l Hl). congruence. }
  assert (Hold : forall l, is_Some (σ !! l) -> σ3 !! l = σ !! l /\ l <> nr /\ l <> np).
  { intros l Hl.
    assert (is_Some (σ1 !! l)) by (rewrite Hσ1; assumption).
    assert (is_Some (σ2 !! l)) by (rewrite Hσ2; assumption).
    rewrite Hσ3, Hσ2, Hσ1 by assumption. auto. }
  assert (Hnr3 : σ3 !! nr = Some (BigArr [secret]) /\ nr <> np).
  { assert (is_Some (σ2 !! nr)) by (rewrite Hσ2; rewrite Hnr1; eauto).
    rewrite Hσ3, Hσ2 by (assumption || rewrite Hnr1; eauto). auto. }
  assert (Hnp3 : σ3 !! np = Some (BigArr (addRoot [1%Z] secret)))
    by apply lookup_insert_eq.
  destruct Hnr3 as [Hnr3 Hnrnp].
  destruct (Hold cb ltac:(eauto)) as (Hcb3 & Hcbnr & Hcbnp).
  destruct (Hold cr ltac:(eauto)) as (Hcr3 & Hcrnr & Hcrnp).
  destruct (Hold u ltac:(eauto)) as (Hu3 & Hunr & Hunp).
  assert (Hlen : length rl = length (batchRoots st)) by apply (Forall2_length _ _ _ Hr).
  split; cbn [batches batchRoots userMap].
  - rewrite lookup_insert_ne by congruence. apply lookup_insert_eq.
  - apply holds_snoc.
    + apply (holds_frame σ); [exact Hb |]. intros l Hl.
      destruct (holds_allocated _ _ _ _ Hb Hl) as [w Hw].
      destruct (Hold l ltac:(eauto)) as (Hl3 & _ & _).
      rewrite !lookup_insert_ne by congruence. exact Hl3.
    + rewrite !lookup_insert_ne by congruence. exact Hnp3.
  - rewrite !lookup_insert_ne by congruence. apply lookup_insert_eq.
  - apply holds_snoc.
    + apply (holds_frame σ); [exact Hr |]. intros l Hl.
      destruct (holds_allocated _ _ _ _ Hr Hl) as [w Hw].
      destruct (Hold l ltac:(eauto)) as (Hl3 & _ & _).
      rewrite !lookup_insert_ne by congruence. exact Hl3.
    + rewrite !lookup_insert_ne by congruence. exact Hnr3.
  - apply NoDup_app. split; [exact Hnd |]. split; [| apply NoDup_singleton].
    intros l Hl Hin. apply list_elem_of_singleton in Hin. subst l.
    destruct (holds_allocated _ _ _ _ Hr Hl) as [w Hw].
    destruct (Hold nr ltac:(eauto)) as (_ & Hne & _). congruence.
  - intros l Hl Hin. apply elem_of_app in Hl. apply elem_of_app in Hin.
    destruct Hl as [Hl | Hl]; destruct Hin as [Hin | Hin];
      try apply list_elem_of_singleton in Hl; try apply list_elem_of_singleton in Hin.
    + exact (Hap l Hl Hin).
    + subst l. destruct (holds_allocated _ _ _ _ Hr Hl) as [w Hw].
      destruct (Hold np ltac:(eauto)) as (_ & _ & Hne). congruence.
    + subst l. destruct (holds_allocated _ _ _ _ Hb Hin) as [w Hw].
      destruct (Hold nr ltac:(eauto)) as (_ & Hne & _). congruence.
    + congruence.
  - exact Hd.
  - rewrite lookup_insert_eq, !length_app, Hlen. reflexivity.
Qed.

Lemma place_st_refines (secret : Z) (bl rl : list loc) (σ : store) (st : state) :
  live bl rl σ st ->
  match place st secret with
  | None => exists σ', place_st cb cr u secret σ = (Thrown, σ')
  | Some st' =>
      exists σ' bl' rl',
        place_st cb cr u secret σ = (Done tt, σ') /\ live bl' rl' σ' st'
  end.
Proof.
  intros Hlive. unfold place, place_st.
  rewrite (bind_run _ _ _ _ _ (read_refs_run _ _ _ (live_cr _ _ _ _ Hlive))).
  pose proof (scan_st_refines secret (batchRoots st) rl [] [] bl rl σ st Hlive
                eq_refl eq_refl eq_refl) as Hscan.
  cbn [length] in Hscan.
  destruct (scan st secret (batchRoots st) 0) as [[[|] st'] |].
  - destruct Hscan as (σ' & bl' & Hrun & Hlive').
    rewrite (bind_run _ _ _ _ _ Hrun). eauto.
  - destruct Hscan as [-> Hrun]. rewrite (bind_run _ _ _ _ _ Hrun).
    pose proof (live_new bl rl σ st secret Hlive) as Hnew. cbv zeta in Hnew.
    destruct Hlive as [Hcb Hb Hcr Hr Hnd Hap Hd Hu].
    set (nr := fresh (dom σ)) in *.
    set (σ1 := <[nr := BigArr [secret]]> σ) in *.
    set (one := fresh (dom σ1)) in *.
    set (σ2 := <[one := BigArr [1%Z]]> σ1) in *.
    set (np := fresh (dom σ2)) in *.
    set (σ3 := <[np := BigArr (addRoot [1%Z] secret)]> σ2) in *.
    rewrite (bind_run _ _ σ σ1 nr) by reflexivity.
    rewrite (bind_run _ _ σ1 σ2 one) by reflexivity.
    rewrite (bind_run _ _ σ2 σ3 np)
      by (apply addRoot_st_run; apply lookup_insert_eq).
    destruct Hnew as [Hcb' _ Hcr' _ _ _ _ _].
    assert (Hcr3 : σ3 !! cr = Some (RefArr rl)).
    { assert (E1 : σ1 !! cr = σ !! cr)
        by (apply lookup_alloc_old; eauto).
      assert (E2 : σ2 !! cr = σ1 !! cr)
        by (apply lookup_alloc_old; rewrite E1; eauto).
      assert (E3 : σ3 !! cr = σ2 !! cr)
        by (apply lookup_alloc_old; rewrite E2, E1; eauto).
      congruence. }
    assert (Hcb3 : σ3 !! cb = Some (RefArr bl)).
    { assert (E1 : σ1 !! cb = σ !! cb)
        by (apply lookup_alloc_old; eauto).
      assert (E2 : σ2 !! cb = σ1 !! cb)
        by (apply lookup_alloc_old; rewrite E1; eauto).
      assert (E3 : σ3 !! cb = σ2 !! cb)
        by (apply lookup_alloc_old; rewrite E2, E1; eauto).
      congruence. }
    rewrite (bind_run _ _ _ _ _ (push_ref_run _ _ _ nr Hcr3)).
    assert (Hcb4 : <[cr := RefArr (rl ++ [nr])]> σ3 !! cb = Some (RefArr bl))
      by (rewrite lookup_insert_ne by congruence; exact Hcb3).
    rewrite (bind_run _ _ _ _ _ (push_ref_run _ _ _ np Hcb4)).
    assert (Hcr5 : <[cb := RefArr (bl ++ [np])]> (<[cr := RefArr (rl ++ [nr])]> σ3) !! cr
                   = Some (RefArr (rl ++ [nr]))).
    { rewrite lookup_insert_ne by congruence. apply lookup_insert_eq. }
    rewrite (bind_run _ _ _ _ _ (read_refs_run _ _ _ Hcr5)).
    assert (Hu5 : <[cb := RefArr (bl ++ [np])]> (<[cr := RefArr (rl ++ [nr])]> σ3) !! u
                  = Some (StrMap (userMap st))).
    { assert (E1 : σ1 !! u = σ !! u)
        by (apply lookup_alloc_old; eauto).
      assert (E2 : σ2 !! u = σ1 !! u)
        by (apply lookup_alloc_old; rewrite E1; eauto).
      assert (E3 : σ3 !! u = σ2 !! u)
        by (apply lookup_alloc_old; rewrite E2, E1; eauto).
      rewrite !lookup_insert_ne by congruence. congruence. }
    rewrite (map_set_run _ _ _ _ _ Hu5).
    eexists _, _, _. split; [reflexivity |].
    exact (live_new bl rl σ st secret (mkLive _ _ _ _ Hcb Hb Hcr Hr Hnd Hap Hd Hu)).
  - destruct Hscan as [σ' Hrun]. eexists.
    apply bind_thrown. exact Hrun.
Qed.

Lemma place_all_st_refines (newSecrets : list Z) :
  forall (bl rl : list loc) (σ : store) (st : state),
    live bl rl σ st ->
    match place_all st newSecrets with
    | None => exists σ', place_all_st cb cr u newSecrets σ = (Thrown, σ')
    | Some st' =>
        exists σ' bl' rl',
          place_all_st cb cr u newSecrets σ = (Done tt, σ') /\ live bl' rl' σ' st'
    end.
Proof.
  induction newSecrets as [| secret newSecrets IH]; intros bl rl σ st Hlive.
  - cbn. eauto.
  - cbn [place_all place_all_st].
    pose proof (place_st_refines secret bl rl σ st Hlive) as Hplace.
    destruct (place st secret) as [st1 |].
    + destruct Hplace as (σ1 & bl1 & rl1 & Hrun & Hlive1).
      rewrite (bind_run _ _ _ _ _ Hrun). apply (IH bl1 rl1 σ1 st1 Hlive1).
    + destruct Hplace as [σ' Hrun]. eexists. apply bind_thrown. exact Hrun.
Qed.

End Loop.

(** ** The copies at the start *)

Lemma copy_each_run (rs : list loc) :
  forall (vs : list (list Z)) (σ : store),
    holds σ rs vs ->
    exists copies σ',
      copy_each rs σ = (Done copies, σ') /\
      holds σ' copies vs /\ NoDup copies /\
      (forall l, l ∈ copies -> σ !! l = None) /\
      (forall l, is_Some (σ !! l) -> σ' !! l = σ !! l).
Proof.
  induction rs as [| r rs IH]; intros vs σ Hh.
  - apply Forall2_nil_inv_l in Hh as ->.
    exists [], σ. cbn. split; [reflexivity |]. split; [constructor |].
    split; [constructor |]. split; [intros l Hl; inversion Hl | reflexivity].
  - apply Forall2_cons_inv_l in Hh as (v & vs' & Hr & Hh & ->).
    set (c := fresh (dom σ)). set (σ1 := <[c := BigArr v]> σ).
    assert (Hσ1 : forall l, is_Some (σ !! l) -> σ1 !! l = σ !! l)
      by (intros l Hl; apply lookup_alloc_old, Hl).
    assert (Hh1 : holds σ1 rs vs').
    { apply (holds_frame σ); [exact Hh |]. intros l Hl.
      destruct (holds_allocated _ _ _ _ Hh Hl) as [w Hw]. apply Hσ1. eauto. }
    destruct (IH vs' σ1 Hh1) as (cs & σ' & Hrun & Hcs & Hnd & Hnew & Hold).
    exists (c :: cs), σ'. split.
    { cbn [copy_each]. unfold copy_big at 1.
      rewrite (bind_run _ _ σ σ1 c)
        by (rewrite (bind_run _ _ _ _ _ (read_big_run _ _ _ Hr)); reflexivity).
      rewrite (bind_run _ _ _ _ _ Hrun). reflexivity. }
    assert (Hc1 : σ1 !! c = Some (BigArr v)) by apply lookup_insert_eq.
    split.
    { constructor; [| exact Hcs]. rewrite Hold by eauto. exact Hc1. }
    split.
    { constructor; [| exact Hnd]. intros Hin. apply Hnew in Hin. congruence. }
    split.
    { intros l Hl. apply elem_of_cons in Hl as [-> | Hl].
      - apply fresh_not_in_store.
      - specialize (Hnew l Hl). destruct (σ !! l) eqn:Hσl; [| reflexivity].
        rewrite Hσ1 in Hnew by eauto. congruence. }
    intros l Hl. rewrite Hold by (rewrite Hσ1; assumption). apply Hσ1, Hl.
Qed.

(** X29: on a store where the three arguments hold a state, the call on
    objects returns exactly when the call on values does, and the three
    objects it returns then hold the state that the call on values
    computes; when the call on values throws, so does the call on
    objects. *)
Theorem addSecretsToBatches_st_refines (σ : store) (b r u : loc) (st : state)
    (newSecrets : list Z) :
  represents σ (mkHandles b r u) st ->
  match addSecretsToBatches (batches st) (batchRoots st) (userMap st) newSecrets with
  | Some st' =>
      exists (h : handles) (σ' : store),
        addSecretsToBatches_st b r u newSecrets σ = (Done h, σ') /\
        represents σ' h st'
  | None =>
      exists σ' : store, addSecretsToBatches_st b r u newSecrets σ = (Thrown, σ')
  end.
Proof.
  intros [(bl & Hb & Hbl) (rl & Hr & Hrl) Hu]. cbn [h_batches h_batchRoots h_userMap] in *.
  unfold addSecretsToBatches, addSecretsToBatches_st.
  rewrite (bind_run _ _ _ _ _ (read_refs_run _ _ _ Hb)).
  set (cb := fresh (dom σ)). set (σ1 := <[cb := RefArr bl]> σ).
  rewrite (bind_run _ _ σ σ1 cb) by reflexivity.
  assert (Hσ1 : forall l, is_Some (σ !! l) -> σ1 !! l = σ !! l)
    by (intros l Hl; apply lookup_alloc_old, Hl).
  assert (Hr1 : σ1 !! r = Some (RefArr rl)) by (rewrite Hσ1; eauto).
  rewrite (bind_run _ _ _ _ _ (read_refs_run _ _ _ Hr1)).
  assert (Hrl1 : holds σ1 rl (batchRoots st)).
  { apply (holds_frame σ); [exact Hrl |]. intros l Hl.
    destruct (holds_allocated _ _ _ _ Hrl Hl) as [w Hw]. apply Hσ1. eauto. }
  destruct (copy_each_run rl (batchRoots st) σ1 Hrl1)
    as (copies & σ2 & Hrun & Hcopies & Hnd & Hnew & Hold).
  rewrite (bind_run _ _ _ _ _ Hrun).
  set (cr := fresh (dom σ2)). set (σ3 := <[cr := RefArr copies]> σ2).
  rewrite (bind_run _ _ σ2 σ3 cr) by reflexivity.
  assert (Hσ3 : forall l, is_Some (σ2 !! l) -> σ3 !! l = σ2 !! l)
    by (intros l Hl; apply lookup_alloc_old, Hl).
  assert (Hkeep : forall l, is_Some (σ !! l) -> σ3 !! l = σ !! l).
  { intros l Hl.
    assert (E1 : σ1 !! l = σ !! l) by (apply Hσ1, Hl).
    assert (E2 : σ2 !! l = σ1 !! l) by (apply Hold; rewrite E1; exact Hl).
    assert (E3 : σ3 !! l = σ2 !! l) by (apply Hσ3; rewrite E2, E1; exact Hl).
    congruence. }
  assert (Hcb1 : σ1 !! cb = Some (RefArr bl)) by apply lookup_insert_eq.
  assert (Hcb3 : σ3 !! cb = Some (RefArr bl)).
  { assert (E2 : σ2 !! cb = σ1 !! cb) by (apply Hold; rewrite Hcb1; eauto).
    assert (E3 : σ3 !! cb = σ2 !! cb) by (apply Hσ3; rewrite E2, Hcb1; eauto).
    congruence. }
  assert (Hlive : live cb cr u bl copies σ3
                    (mkState (batches st) (batchRoots st) (userMap st))).
  { split; cbn [batches batchRoots userMap].
    - exact Hcb3.
    - apply (holds_frame σ); [exact Hbl |]. intros l Hl.
      destruct (holds_allocated _ _ _ _ Hbl Hl) as [w Hw]. apply Hkeep. eauto.
    - apply lookup_insert_eq.
    - apply (holds_frame σ2); [exact Hcopies |]. intros l Hl.
      destruct (holds_allocated _ _ _ _ Hcopies Hl) as [w Hw]. apply Hσ3. eauto.
    - exact Hnd.
    - intros l Hl Hin. specialize (Hnew l Hl).
      destruct (holds_allocated _ _ _ _ Hbl Hin) as [w Hw].
      rewrite Hσ1 in Hnew by eauto. congruence.
    - intros Heq. pose proof (fresh_not_in_store σ2) as Hnone.
      fold cr in Hnone. rewrite <- Heq, Hold in Hnone by (rewrite Hcb1; eauto).
      congruence.
    - rewrite Hkeep by eauto. exact Hu. }
  pose proof (place_all_st_refines cb cr u newSecrets bl copies σ3 _ Hlive) as Hloop.
  destruct (place_all (mkState (batches st) (batchRoots st) (userMap st)) newSecrets)
    as [st' |].
  - destruct Hloop as (σ' & bl' & rl' & Hrun' & Hlive').
    rewrite (bind_run _ _ _ _ _ Hrun'). eexists _, _. split; [reflexivity |].
    destruct Hlive' as [Hcb' Hb' Hcr' Hr' _ _ _ Hu'].
    split; cbn [h_batches h_batchRoots h_userMap]; eauto.
  - destruct Hloop as [σ' Hrun']. eexists. apply bind_thrown. exact Hrun'.
Qed.

End BatchRefine.

Module BatchRefineTests.
Import Field Poly Store Batch BatchStore BatchStoreTests BatchRefine.

(** What [one_batch] holds at its three handles. *)
Definition one_batch_state : state := mkState [addRoot [1] 7] [[7]] ∅.

Lemma addSecretsToBatches_st_refines_witness :
  match addSecretsToBatches (batches one_batch_state) (batchRoots one_batch_state)
          (userMap one_batch_state) [9] with
  | Some st' =>
      exists (h : handles) (σ' : store),
        addSecretsToBatches_st 2%positive 4%positive 5%positive [9] one_batch
        = (Done h, σ') /\
        represents σ' h st'
  | None =>
      exists σ' : store,
        addSecretsToBatches_st 2%positive 4%positive 5%positive [9] one_batch
        = (Thrown, σ')
  end.
Proof.
  apply (addSecretsToBatches_st_refines one_batch 2%positive 4%positive 5%positive
           one_batch_state [9]).
  split; cbn [h_batches h_batchRoots h_userMap one_batch_state batches batchRoots userMap].
  - exists [1%positive]. split; [reflexivity |]. repeat constructor.
  - exists [3%positive]. split; [reflexivity |]. repeat constructor.
  - reflexivity.
Defined.

End BatchRefineTests.
